(** * AutoTest browser-test-reporter: step inference and case runner

    A shallow embedding of the two scripts at the heart of the
    browser-test-reporter skill:

    - [parse_docx.py]: the chain resolver [_resolve_arrow_chains], the step
      inference engine [infer_step], the three markdown record extractors
      and the python-docx pass of [main];
    - [run_tests.py]: the action executor [execute_step], the case runner
      [run_test_case] and the results aggregation of [main].

    Python [str] values are sequences of Unicode code points, so they are
    modelled as [list N].  The regular expressions of the scripts are kept
    as pattern text and compiled by a small model of Python's [re] module
    (a backtracking matcher with the priorities of the original).  The
    browser is an oracle: every Playwright call is a transition of an
    abstract world that either returns or raises. *)

From Stdlib Require Import Ascii String.
From Stdlib Require Import List NArith Arith Lia Bool.
Import ListNotations.

Set Implicit Arguments.

(* ------------------------------------------------------------------ *)
(** * Python strings *)
(* ------------------------------------------------------------------ *)

Module PyStr.

(** A Python [str]: a sequence of code points. *)
Definition str := list N.

(** ** String literals

    Literals are written as in the source and decoded from the UTF-8
    bytes of the Rocq string. *)

Fixpoint utf8_decode (bs : list N) : str :=
  match bs with
  | [] => []
  | b :: r =>
    if (b <? 128)%N then b :: utf8_decode r
    else if (b <? 224)%N then
      match r with
      | b1 :: r' => ((b - 192) * 64 + (b1 - 128))%N :: utf8_decode r'
      | _ => []
      end
    else if (b <? 240)%N then
      match r with
      | b1 :: b2 :: r' =>
        ((b - 224) * 4096 + (b1 - 128) * 64 + (b2 - 128))%N :: utf8_decode r'
      | _ => []
      end
    else
      match r with
      | b1 :: b2 :: b3 :: r' =>
        ((b - 240) * 262144 + (b1 - 128) * 4096 + (b2 - 128) * 64 + (b3 - 128))%N
          :: utf8_decode r'
      | _ => []
      end
  end.

Definition U (s : string) : str :=
  utf8_decode (map N_of_ascii (list_ascii_of_string s)).

(** The first code point of a literal (for one-character literals). *)
Definition ch (s : string) : N := hd 0%N (U s).

(** The literal of one line feed. *)
Definition LF : string := String (ascii_of_nat 10) EmptyString.

(** ** Comparison *)

Fixpoint str_eqb (a b : str) : bool :=
  match a, b with
  | [], [] => true
  | x :: a', y :: b' => (x =? y)%N && str_eqb a' b'
  | _, _ => false
  end.

Definition mem (c : N) (s : str) : bool := existsb (N.eqb c) s.

Definition str_in (a : str) (l : list str) : bool := existsb (str_eqb a) l.

(** [s.startswith(p)] *)
Fixpoint startswith (p s : str) : bool :=
  match p, s with
  | [], _ => true
  | x :: p', y :: s' => (x =? y)%N && startswith p' s'
  | _ :: _, [] => false
  end.

(** [p in s] for strings: substring test. *)
Fixpoint contains (p s : str) : bool :=
  startswith p s ||
  match s with
  | [] => false
  | _ :: s' => contains p s'
  end.

(** [s.removeprefix(p)] *)
Definition removeprefix (p s : str) : str :=
  if startswith p s then skipn (length p) s else s.

(** ** Stripping *)

(** [str.isspace] on one code point; also the class [\s] of [re]. *)
Definition isspace (c : N) : bool :=
  ((9 <=? c) && (c <=? 13) || (28 <=? c) && (c <=? 32)
   || (c =? 133) || (c =? 160) || (c =? 5760)
   || (8192 <=? c) && (c <=? 8202)
   || (c =? 8232) || (c =? 8233) || (c =? 8239) || (c =? 8287)
   || (c =? 12288))%N.

Fixpoint lstrip_by (p : N -> bool) (s : str) : str :=
  match s with
  | [] => []
  | c :: s' => if p c then lstrip_by p s' else s
  end.

Definition rstrip_by (p : N -> bool) (s : str) : str :=
  rev (lstrip_by p (rev s)).

Definition strip_by (p : N -> bool) (s : str) : str :=
  rstrip_by p (lstrip_by p s).

(** [s.strip()] *)
Definition strip (s : str) : str := strip_by isspace s.
(** [s.strip(chars)], [s.lstrip(chars)], [s.rstrip(chars)] *)
Definition strip_chars (chars s : str) : str := strip_by (fun c => mem c chars) s.
Definition lstrip_chars (chars s : str) : str := lstrip_by (fun c => mem c chars) s.
Definition rstrip_chars (chars s : str) : str := rstrip_by (fun c => mem c chars) s.

(** ** Splitting and joining *)

(** Splitting at every code point satisfying [p]; [s.split(sep)] for a
    one-character separator is [split_by (N.eqb sep)].  The result always
    has at least one element. *)
Fixpoint split_by (p : N -> bool) (s : str) : list str :=
  match s with
  | [] => [[]]
  | c :: s' =>
    if p c then [] :: split_by p s'
    else match split_by p s' with
         | [] => [[c]]
         | w :: ws => (c :: w) :: ws
         end
  end.

(** [s.split(sep)], for the one-character separators the scripts use. *)
Definition split (sep : string) (s : str) : list str :=
  split_by (N.eqb (ch sep)) s.

(** [sep.join(parts)] *)
Fixpoint join (sep : str) (parts : list str) : str :=
  match parts with
  | [] => []
  | [w] => w
  | w :: ws => w ++ sep ++ join sep ws
  end.

(** [s.replace(old, new)] for a one-character [old]. *)
Definition replace (old : string) (new : str) (s : str) : str :=
  flat_map (fun c => if (c =? ch old)%N then new else [c]) s.

(** [s.splitlines()]: the line boundaries of Python, with CR LF counted
    as one; no empty last line after a final boundary. *)
Definition is_linebreak (c : N) : bool :=
  ((10 <=? c) && (c <=? 13) || (28 <=? c) && (c <=? 30)
   || (c =? 133) || (c =? 8232) || (c =? 8233))%N.

Fixpoint splitlines_go (cur : str) (s : str) : list str :=
  match s with
  | [] => match cur with [] => [] | _ => [rev cur] end
  | c :: s' =>
    if is_linebreak c then
      match c, s' with
      | 13%N, 10%N :: s'' => rev cur :: splitlines_go [] s''
      | _, _ => rev cur :: splitlines_go [] s'
      end
    else splitlines_go (c :: cur) s'
  end.

Definition splitlines (s : str) : list str := splitlines_go [] s.

(** ** Numbers *)

(** [str(n)] for a natural number. *)
Fixpoint digits_go (fuel : nat) (n : N) (acc : str) : str :=
  match fuel with
  | O => acc
  | S f =>
    let acc' := (48 + n mod 10)%N :: acc in
    if (n <? 10)%N then acc' else digits_go f (n / 10)%N acc'
  end.

Definition str_of_N (n : N) : str := digits_go (S (N.to_nat (N.log2 n))) n [].

(** [f"{n:0Wd}"]: decimal, zero-padded on the left to width [W]. *)
Definition zfill (w : nat) (s : str) : str :=
  repeat 48%N (w - length s) ++ s.

Definition fmt_0d (w : nat) (n : N) : str := zfill w (str_of_N n).

(** ** The Unicode tables of the interpreter

    [str.lower], [str.isdigit], [int] and the classes [\w] and [\d]
    consult the Unicode character database of the running interpreter.
    It is a parameter of the model. *)
Class Unicode := {
  (** [str.isalnum] on one code point; [\w] is this or an underscore. *)
  uni_isalnum : N -> bool;
  (** the value of a decimal digit (category Nd): the class [\d], and
      the digits [int] accepts. *)
  uni_decimal : N -> option N;
  (** [str.isdigit] on one code point (decimals and other digits, such
      as superscripts, which [int] rejects). *)
  uni_isdigit : N -> bool;
  (** [str.lower] *)
  uni_lower : str -> str
}.

Section WithUnicode.
Context {UD : Unicode}.

(** [s.isdigit()] *)
Definition isdigit (s : str) : bool :=
  match s with
  | [] => false
  | _ => forallb uni_isdigit s
  end.

(** [int(s)] on a string without sign, blanks or underscores: [None]
    stands for the [ValueError]. *)
Fixpoint int_go (acc : N) (s : str) : option N :=
  match s with
  | [] => Some acc
  | c :: s' =>
    match uni_decimal c with
    | Some d => int_go (acc * 10 + d)%N s'
    | None => None
    end
  end.

Definition int (s : str) : option N :=
  match s with
  | [] => None
  | _ => int_go 0%N s
  end.

Definition lower (s : str) : str := uni_lower s.

End WithUnicode.

(** A table for examples: Basic Latin and the CJK Unified Ideographs
    block, which is where the texts of the examples live. *)
Definition ascii_lower (c : N) : N :=
  if ((65 <=? c) && (c <=? 90))%N then (c + 32)%N else c.

Definition is_ascii_digit (c : N) : bool := ((48 <=? c) && (c <=? 57))%N.

Definition is_ascii_alpha (c : N) : bool :=
  ((65 <=? c) && (c <=? 90) || (97 <=? c) && (c <=? 122))%N.

Definition is_cjk (c : N) : bool := ((19968 <=? c) && (c <=? 40959))%N.

Definition latin_cjk : Unicode := {|
  uni_isalnum := fun c => is_ascii_digit c || is_ascii_alpha c || is_cjk c;
  uni_decimal := fun c => if is_ascii_digit c then Some (c - 48)%N else None;
  uni_isdigit := is_ascii_digit;
  uni_lower := map ascii_lower
|}.

End PyStr.

Import PyStr.

Example U_arrow : U "→" = [8594%N].
Proof. reflexivity. Qed.

Example U_click_zh : U "點選" = [40670%N; 36984%N].
Proof. reflexivity. Qed.

Example splitlines_ex :
  splitlines (U "a" ++ [13; 10]%N ++ U "b" ++ [10]%N) = [U "a"; U "b"].
Proof. reflexivity. Qed.

Example fmt_ex : fmt_0d 3 7 = U "007" /\ fmt_0d 2 123 = U "123" /\ fmt_0d 2 0 = U "00".
Proof. repeat split. Qed.

(* ------------------------------------------------------------------ *)
(** * A model of Python's [re] *)
(* ------------------------------------------------------------------ *)

(** The fragment of the regular-expression language the two scripts
    use: literals, [.], classes (with [\s], [\d], [\w]), groups,
    alternation, greedy and lazy repetition, [^] and [$], and the flag
    [re.IGNORECASE].  Matching is backtracking search; the matcher
    lists the ways a pattern can match in the order in which Python
    tries them, so the match Python reports is the head of the list. *)

Module Re.

Inductive citem : Type :=
| CChar (c : N)
| CSpace
| CDigit
| CWord.

Inductive re : Type :=
| Eps
| Lit (c : N)
| Any
| Cls (neg : bool) (items : list citem)
| Cat (a b : re)
| Alt (a b : re)
| Rep (greedy : bool) (lo : nat) (hi : option nat) (a : re)
| Grp (i : nat) (a : re)
| Bol
| Eol.

(** ** Reading a pattern *)

Definition isc (c : N) (s : string) : bool := (c =? ch s)%N.

Definition hexval (c : N) : option N :=
  if ((48 <=? c) && (c <=? 57))%N then Some (c - 48)%N
  else if ((97 <=? c) && (c <=? 102))%N then Some (c - 87)%N
  else if ((65 <=? c) && (c <=? 70))%N then Some (c - 55)%N
  else None.

(** What follows a backslash. *)
Definition p_escape (s : str) : option (citem * str) :=
  match s with
  | [] => None
  | c :: s' =>
    if isc c "s" then Some (CSpace, s')
    else if isc c "d" then Some (CDigit, s')
    else if isc c "w" then Some (CWord, s')
    else if isc c "t" then Some (CChar 9, s')
    else if isc c "n" then Some (CChar 10, s')
    else if isc c "x" then
      match s' with
      | h1 :: h2 :: s'' =>
        match hexval h1, hexval h2 with
        | Some a, Some b => Some (CChar (a * 16 + b), s'')
        | _, _ => None
        end
      | _ => None
      end
    else if is_ascii_alpha c || is_ascii_digit c then None
    else Some (CChar c, s')
  end.

(** The items of a class, up to the closing bracket.  A hyphen stands
    for itself as the first or the last item; ranges are not used by
    the scripts and are refused. *)
Fixpoint p_items (fuel : nat) (first : bool) (s : str) : option (list citem * str) :=
  match fuel with
  | O => None
  | S f =>
    match s with
    | [] => None
    | c :: s' =>
      if isc c "]" then Some ([], s')
      else if isc c "\" then
        match p_escape s' with
        | Some (it, s1) =>
          match p_items f false s1 with
          | Some (its, s2) => Some (it :: its, s2)
          | None => None
          end
        | None => None
        end
      else if isc c "-" && negb first && negb (isc (hd 0%N s') "]") then None
      else
        match p_items f false s' with
        | Some (its, s2) => Some (CChar c :: its, s2)
        | None => None
        end
    end
  end.

Fixpoint p_nat (acc : nat) (s : str) : nat * str :=
  match s with
  | c :: s' => if is_ascii_digit c then p_nat (acc * 10 + N.to_nat (c - 48)) s' else (acc, s)
  | [] => (acc, s)
  end.

(** The bounds of a quantifier, when one follows. *)
Definition p_bounds (s : str) : option (nat * option nat * str) :=
  match s with
  | [] => None
  | c :: s' =>
    if isc c "*" then Some (0, None, s')
    else if isc c "+" then Some (1, None, s')
    else if isc c "?" then Some (0, Some 1, s')
    else if isc c "{" then
      let '(lo, s1) := p_nat 0 s' in
      match s1 with
      | d :: s2 =>
        if isc d "}" then Some (lo, Some lo, s2)
        else if isc d "," then
          let '(hi, s3) := p_nat 0 s2 in
          match s3 with
          | e :: s4 => if isc e "}" then Some (lo, Some hi, s4) else None
          | [] => None
          end
        else None
      | [] => None
      end
    else None
  end.

Definition p_quant (a : re) (s : str) : re * str :=
  match p_bounds s with
  | Some (lo, hi, s1) =>
    match s1 with
    | q :: s2 => if isc q "?" then (Rep false lo hi a, s2) else (Rep true lo hi a, s1)
    | [] => (Rep true lo hi a, s1)
    end
  | None => (a, s)
  end.

Definition cat (a b : re) : re :=
  match b with
  | Eps => a
  | _ => Cat a b
  end.

(** Alternation, sequence, atom.  [g] is the number of the next
    capturing group; groups are numbered from 0 here, so group [k] of
    Python is group [k - 1] of the model. *)
Fixpoint p_alt (fuel : nat) (s : str) (g : nat) : option (re * str * nat) :=
  match fuel with
  | O => None
  | S f =>
    match p_cat f s g with
    | Some (a, s1, g1) =>
      match s1 with
      | c :: s2 =>
        if isc c "|" then
          match p_alt f s2 g1 with
          | Some (b, s3, g3) => Some (Alt a b, s3, g3)
          | None => None
          end
        else Some (a, s1, g1)
      | [] => Some (a, s1, g1)
      end
    | None => None
    end
  end
with p_cat (fuel : nat) (s : str) (g : nat) : option (re * str * nat) :=
  match fuel with
  | O => None
  | S f =>
    match s with
    | [] => Some (Eps, s, g)
    | c :: _ =>
      if isc c "|" || isc c ")" then Some (Eps, s, g)
      else
        match p_atom f s g with
        | Some (a, s1, g1) =>
          let '(a', s2) := p_quant a s1 in
          match p_cat f s2 g1 with
          | Some (b, s3, g3) => Some (cat a' b, s3, g3)
          | None => None
          end
        | None => None
        end
    end
  end
with p_atom (fuel : nat) (s : str) (g : nat) : option (re * str * nat) :=
  match fuel with
  | O => None
  | S f =>
    match s with
    | [] => None
    | c :: s' =>
      if isc c "(" then
        match s' with
        | q :: k :: s'' =>
          if isc q "?" then
            if isc k ":" then
              match p_alt f s'' g with
              | Some (a, d :: s1, g1) => if isc d ")" then Some (a, s1, g1) else None
              | _ => None
              end
            else None
          else
            match p_alt f s' (S g) with
            | Some (a, d :: s1, g1) => if isc d ")" then Some (Grp g a, s1, g1) else None
            | _ => None
            end
        | _ => None
        end
      else if isc c "[" then
        match s' with
        | n :: s'' =>
          if isc n "^" then
            match p_items f true s'' with
            | Some (its, s1) => Some (Cls true its, s1, g)
            | None => None
            end
          else
            match p_items f true s' with
            | Some (its, s1) => Some (Cls false its, s1, g)
            | None => None
            end
        | [] => None
        end
      else if isc c "\" then
        match p_escape s' with
        | Some (CChar x, s1) => Some (Lit x, s1, g)
        | Some (it, s1) => Some (Cls false [it], s1, g)
        | None => None
        end
      else if isc c "." then Some (Any, s', g)
      else if isc c "^" then Some (Bol, s', g)
      else if isc c "$" then Some (Eol, s', g)
      else if isc c "*" || isc c "+" || isc c "?" || isc c "{" then None
      else Some (Lit c, s', g)
    end
  end.

(** A compiled pattern: the expression, the flag [re.I] and the number
    of capturing groups.  Pattern text that is not in the fragment
    compiles to [None]. *)
Record pattern : Type := {
  pat_re : re;
  pat_icase : bool;
  pat_groups : nat
}.

Definition parse (icase : bool) (p : string) : option pattern :=
  let s := U p in
  match p_alt (3 * length s + 3) s 0 with
  | Some (r, [], g) => Some {| pat_re := r; pat_icase := icase; pat_groups := g |}
  | _ => None
  end.

(** [re.compile(p)] and [re.compile(p, re.I)].  Every pattern of the
    scripts is in the fragment (see [patterns_compile] below); text that
    is not compiles to a pattern that matches nothing. *)
Definition never : pattern := {| pat_re := Cls false []; pat_icase := false; pat_groups := 0 |}.

Definition compile (p : string) : pattern :=
  match parse false p with Some q => q | None => never end.

Definition compile_I (p : string) : pattern :=
  match parse true p with Some q => q | None => never end.

(** ** Matching *)

(** A position in the subject: the offset reached, what is left of the
    subject, and the groups captured so far ([None]: the group did not
    take part). *)
Record mst : Type := {
  pos : nat;
  rest : str;
  caps : list (option str)
}.

Fixpoint set_nth (A : Type) (i : nat) (v : A) (l : list A) : list A :=
  match l, i with
  | [], _ => []
  | _ :: l', O => v :: l'
  | x :: l', S i' => x :: set_nth i' v l'
  end.

Definition set_cap (i : nat) (v : str) (st : mst) : mst :=
  {| pos := pos st; rest := rest st; caps := set_nth i (Some v) (caps st) |}.

(** A letter of the pattern under [re.I]: the subject's character is
    compared after simple lower-casing, and [i] and [s] have one more
    variant each.  The cased characters of the scripts' patterns are
    all ASCII letters, whose variants are these. *)
Definition ci_eq (c x : N) : bool :=
  if is_ascii_alpha c then
    let lo := ascii_lower c in
    (x =? lo)%N || (x =? lo - 32)%N
    || (lo =? 105)%N && ((x =? 304)%N || (x =? 305)%N)
    || (lo =? 107)%N && (x =? 8490)%N
    || (lo =? 115)%N && (x =? 383)%N
  else (x =? c)%N.

Section Matcher.
Context {UD : Unicode}.
Variable icase : bool.

Definition lit_match (c x : N) : bool :=
  if icase then ci_eq c x else (x =? c)%N.

Definition item_match (x : N) (it : citem) : bool :=
  match it with
  | CChar c => lit_match c x
  | CSpace => isspace x
  | CDigit => match uni_decimal x with Some _ => true | None => false end
  | CWord => uni_isalnum x || (x =? 95)%N
  end.

Definition cls_match (neg : bool) (items : list citem) (x : N) : bool :=
  xorb neg (existsb (item_match x) items).

(** One character. *)
Definition step1 (p : N -> bool) (st : mst) : list mst :=
  match rest st with
  | x :: r => if p x then [{| pos := S (pos st); rest := r; caps := caps st |}] else []
  | [] => []
  end.

Definition may_repeat (hi : option nat) (n : nat) : bool :=
  match hi with
  | None => true
  | Some h => n <? h
  end.

(** Repetition of a matcher [ma], [n] iterations done so far.  A greedy
    repetition tries one more iteration before stopping, a lazy one
    stops first.  An iteration that consumes nothing is not repeated
    (no repeated expression of the scripts can match the empty
    string). *)
Fixpoint rep (ma : mst -> list mst) (greedy : bool) (lo : nat) (hi : option nat)
    (fuel n : nat) (st : mst) : list mst :=
  let stop := if lo <=? n then [st] else [] in
  let more :=
    match fuel with
    | O => []
    | S f =>
      if may_repeat hi n then
        flat_map (fun st' => if pos st <? pos st' then rep ma greedy lo hi f (S n) st' else [])
                 (ma st)
      else []
    end in
  if greedy then more ++ stop else stop ++ more.

(** All the ways [r] matches at [st], in the order of the backtracking
    search. *)
Fixpoint m (r : re) (st : mst) : list mst :=
  match r with
  | Eps => [st]
  | Lit c => step1 (lit_match c) st
  | Any => step1 (fun x => negb (x =? 10)%N) st
  | Cls neg items => step1 (cls_match neg items) st
  | Cat a b => flat_map (m b) (m a st)
  | Alt a b => m a st ++ m b st
  | Rep g lo hi a => rep (m a) g lo hi (length (rest st)) 0 st
  | Grp i a =>
    map (fun st' => set_cap i (firstn (pos st' - pos st) (rest st)) st') (m a st)
  | Bol => if pos st =? 0 then [st] else []
  | Eol =>
    match rest st with
    | [] => [st]
    | [10%N] => [st]
    | _ => []
    end
  end.

End Matcher.

Section Api.
Context {UD : Unicode}.

Definition start (p : pattern) (at_ : nat) (s : str) : mst :=
  {| pos := at_; rest := s; caps := repeat None (pat_groups p) |}.

(** The match of [p] at offset [at_], where [s] is the subject from
    that offset on. *)
Definition match_at (p : pattern) (at_ : nat) (s : str) : option mst :=
  hd_error (m (pat_icase p) (pat_re p) (start p at_ s)).

(** [p.match(s)]: the final position, if the pattern matches at the
    start of [s]. *)
Definition match_ (p : pattern) (s : str) : option mst := match_at p 0 s.

(** [m.groups()] *)
Definition groups (r : mst) : list (option str) := caps r.

(** [p.search(s)]: the leftmost match; the offset where it starts and
    the final position. *)
Fixpoint search_from (p : pattern) (at_ : nat) (s : str) : option (nat * mst) :=
  match match_at p at_ s with
  | Some r => Some (at_, r)
  | None =>
    match s with
    | [] => None
    | _ :: s' => search_from p (S at_) s'
    end
  end.

Definition search (p : pattern) (s : str) : option mst :=
  option_map snd (search_from p 0 s).

Definition matches (p : pattern) (s : str) : bool :=
  match match_ p s with Some _ => true | None => false end.

Definition found (p : pattern) (s : str) : bool :=
  match search p s with Some _ => true | None => false end.

(** [p.sub(repl, s)]: every non-overlapping match, from the left, is
    replaced; [repl] is given the groups of the match. *)
Fixpoint sub_go (p : pattern) (repl : list (option str) -> str)
    (fuel at_ : nat) (s : str) : str :=
  match fuel with
  | O => s
  | S f =>
    match match_at p at_ s with
    | Some r =>
      if at_ <? pos r then repl (caps r) ++ sub_go p repl f (pos r) (rest r)
      else
        repl (caps r) ++
        match s with
        | [] => []
        | c :: s' => c :: sub_go p repl f (S at_) s'
        end
    | None =>
      match s with
      | [] => []
      | c :: s' => c :: sub_go p repl f (S at_) s'
      end
    end
  end.

Definition sub (p : pattern) (repl : list (option str) -> str) (s : str) : str :=
  sub_go p repl (S (length s)) 0 s.

(** [p.split(s, maxsplit)] for a pattern without groups, whose matches
    are never empty; [limit = None] is [maxsplit = 0], no limit. *)
Fixpoint split_go (p : pattern) (limit : option nat) (fuel at_ : nat)
    (cur : str) (s : str) : list str :=
  match fuel with
  | O => [rev cur ++ s]
  | S f =>
    match limit with
    | Some O => [rev cur ++ s]
    | _ =>
      match match_at p at_ s with
      | Some r =>
        if at_ <? pos r then
          rev cur :: split_go p (option_map Nat.pred limit) f (pos r) [] (rest r)
        else
          match s with
          | [] => [rev cur]
          | c :: s' => split_go p limit f (S at_) (c :: cur) s'
          end
      | None =>
        match s with
        | [] => [rev cur]
        | c :: s' => split_go p limit f (S at_) (c :: cur) s'
        end
      end
    end
  end.

Definition split (p : pattern) (s : str) : list str :=
  split_go p None (S (length s)) 0 [] s.

Definition split_max (p : pattern) (maxsplit : nat) (s : str) : list str :=
  split_go p (Some maxsplit) (S (length s)) 0 [] s.

(** [p.findall(s)] for a pattern without groups: the matched texts. *)
Fixpoint findall_go (p : pattern) (fuel at_ : nat) (s : str) : list str :=
  match fuel with
  | O => []
  | S f =>
    match match_at p at_ s with
    | Some r =>
      if at_ <? pos r then
        firstn (pos r - at_) s :: findall_go p f (pos r) (rest r)
      else
        [] :: match s with
              | [] => []
              | _ :: s' => findall_go p f (S at_) s'
              end
    | None =>
      match s with
      | [] => []
      | _ :: s' => findall_go p f (S at_) s'
      end
    end
  end.

Definition findall (p : pattern) (s : str) : list str :=
  findall_go p (S (length s)) 0 s.

End Api.

End Re.

Example parse_ex1 :
  Re.parse true "^(?:wait|等待)\s*(\d+)" =
  Some {| Re.pat_re :=
            Re.Cat Re.Bol
              (Re.Cat (Re.Alt (Re.Cat (Re.Lit 119) (Re.Cat (Re.Lit 97) (Re.Cat (Re.Lit 105) (Re.Lit 116))))
                              (Re.Cat (Re.Lit 31561) (Re.Lit 24453)))
                 (Re.Cat (Re.Rep true 0 None (Re.Cls false [Re.CSpace]))
                    (Re.Grp 0 (Re.Rep true 1 None (Re.Cls false [Re.CDigit])))));
          Re.pat_icase := true; Re.pat_groups := 1 |}.
Proof. reflexivity. Qed.

Example parse_ex2 :
  Re.parse false "^#{1,4}[-\s]?(a+?)[^\x22']$" =
  Some {| Re.pat_re :=
            Re.Cat Re.Bol
              (Re.Cat (Re.Rep true 1 (Some 4) (Re.Lit 35))
                 (Re.Cat (Re.Rep true 0 (Some 1) (Re.Cls false [Re.CChar 45; Re.CSpace]))
                    (Re.Cat (Re.Grp 0 (Re.Rep false 1 None (Re.Lit 97)))
                       (Re.Cat (Re.Cls true [Re.CChar 34; Re.CChar 39]) Re.Eol))));
          Re.pat_icase := false; Re.pat_groups := 1 |}.
Proof. reflexivity. Qed.

Section ReExamples.
Let UD := latin_cjk.
Existing Instance UD.

Example match_ex1 :
  option_map Re.groups (Re.match_ (Re.compile_I "^(?:type|enter|input|fill)\s+[\x22']?(.+?)[\x22']?\s+(?:in(?:to)?)\s+(.+)")
                              (U "Type 'abc' into #q"))
  = Some [Some (U "abc"); Some (U "#q")].
Proof. vm_compute. reflexivity. Qed.

Example sub_ex1 :
  Re.sub (Re.compile "\*\*(.+?)\*\*") (fun g => match nth 0 g None with Some x => x | None => [] end)
         (U "a **b** c **dd**") = U "a b c dd".
Proof. vm_compute. reflexivity. Qed.

Example split_ex1 :
  Re.split (Re.compile "[,，；;]") (U "a,b；c,") = [U "a"; U "b"; U "c"; []].
Proof. vm_compute. reflexivity. Qed.

Example split_ex2 :
  Re.split_max (Re.compile "[：:\t]+") 1 (U "title:: x: y") = [U "title"; U " x: y"].
Proof. vm_compute. reflexivity. Qed.

Example findall_ex1 :
  Re.findall (Re.compile "https?://[^\s\x22'>]+") (U "URL: http://a.b/c https://d") =
  [U "http://a.b/c"; U "https://d"].
Proof. vm_compute. reflexivity. Qed.

End ReExamples.

(* ------------------------------------------------------------------ *)
(** * Data shared by the two scripts *)
(* ------------------------------------------------------------------ *)

(** A raised exception: its class and [str(e)]. *)
Record exn : Type := Raise {
  exn_type : string;
  exn_msg : str
}.

(** A computation that returns or raises. *)
Definition res (A : Type) : Type := exn + A.

Definition ret {A : Type} (a : A) : res A := inr a.

Definition bind {A B : Type} (c : res A) (k : A -> res B) : res B :=
  match c with
  | inl e => inl e
  | inr a => k a
  end.

Declare Scope res_scope.
Delimit Scope res_scope with res.
Notation "'let*' x ':=' c 'in' k" := (bind c (fun x => k))
  (at level 10, x name, c at level 100, k at level 200) : res_scope.

(** The canonical Step, a dict with up to four keys.  A key that is
    absent is [None]: [d.get(k, default)] falls back to the default,
    [d[k]] raises [KeyError]. *)
Record Step : Type := {
  action : option str;
  target : option str;
  value : option str;
  name : option str
}.

Definition get (o : option str) (default : str) : str :=
  match o with
  | Some v => v
  | None => default
  end.

Definition KeyError (k : string) : exn :=
  Raise "KeyError" (U "'" ++ U k ++ U "'").

Definition ValueError (s : str) : exn :=
  Raise "ValueError" (U "invalid literal for int() with base 10: '" ++ s ++ U "'").

Definition AssertionError (msg : str) : exn := Raise "AssertionError" msg.

Definition item (k : string) (o : option str) : res str :=
  match o with
  | Some v => inr v
  | None => inl (KeyError k)
  end.

Definition step_at (a t : string) : Step :=
  {| action := Some (U a); target := Some (U t); value := None; name := None |}.

(** [{"action": a, "target": t}], [{"action": a, "target": t, "value": v}]
    and [{"action": "screenshot", "name": n}] *)
Definition mk_target (a : str) (t : str) : Step :=
  {| action := Some a; target := Some t; value := None; name := None |}.

Definition mk_value (a : str) (t v : str) : Step :=
  {| action := Some a; target := Some t; value := Some v; name := None |}.

Definition mk_shot (n : str) : Step :=
  {| action := Some (U "screenshot"); target := None; value := None; name := Some n |}.

(** A test case as the extractors build it. *)
Record TestCase : Type := {
  tc_id : option str;
  tc_name : option str;
  tc_description : str;
  tc_steps : option (list Step);
  tc_expected : str
}.

Definition mk_case (id nm descr : str) (steps : list Step) (expected : str) : TestCase :=
  {| tc_id := Some id; tc_name := Some nm; tc_description := descr;
     tc_steps := Some steps; tc_expected := expected |}.

(* ------------------------------------------------------------------ *)
(** * parse_docx.py *)
(* ------------------------------------------------------------------ *)

Module ParseDocx.

(** In pattern text a double quote is written [\x22]; everything else is
    the text of the source. *)

Definition _TC_HEADER_RE :=
  Re.compile_I "^#{1,4}\s*(?:TC[-\s]?(\d+)[:\s]?\s*)?(.+)$".
Definition _NUMBERED_STEP_RE := Re.compile "^\d+[\.\)]\s+(.+)".
Definition _BULLET_STEP_RE := Re.compile "^[-*]\s+(.+)".
Definition _EXPECTED_RE :=
  Re.compile_I "(?:expected|預期結果|期望|result|verify|驗證)[\s:：]+(.+)".
Definition _URL_RE := Re.compile "https?://[^\s\x22'>]+".

Definition _SEARCH_INPUT_SELECTORS : str :=
  U "input[name*=keyword], input[name*=Keyword], "
  ++ U "input[placeholder*=檢索], input[placeholder*=搜尋], input[placeholder*=查詢], "
  ++ U "input.ui-autocomplete-input, input[type=search], "
  ++ U "input[name*=search], input[name*=query], #search, .search-input".

Definition _STEP_ACTION_PATTERNS : list (Re.pattern * str) := [
  (Re.compile_I "^(?:navigate|go\s*to)\s+(.+)", U "goto");
  (Re.compile_I "^(?:開啟|前往|瀏覽|進入|連到|連至|造訪|訪問|到)\s*(.+)", U "goto");
  (Re.compile_I "^(?:click)\s+(.+)", U "click");
  (Re.compile_I "^(?:按下|點擊|點選|按|點|選按|勾選|展開|收合|切換|按鈕)\s*(.+)", U "click");
  (Re.compile_I "^(?:type|enter|input|fill)\s+[\x22']?(.+?)[\x22']?\s+(?:in(?:to)?)\s+(.+)", U "fill");
  (Re.compile_I "^(?:輸入|填入|填寫|鍵入)\s*[「「\x22']?(.+?)[」」\x22']?\s*(?:於|到|在|至)\s*(.+)", U "fill");
  (Re.compile_I "^(?:輸入|填入|填寫|鍵入)\s*[「「\x22']?(.+?)[」」\x22']?\s*(?:關鍵字|搜尋|查詢|字串)", U "fill_search");
  (Re.compile_I "^(?:select)\s+[\x22']?(.+?)[\x22']?\s+(?:from|in)\s+(.+)", U "select");
  (Re.compile_I "^(?:選擇|選取|下拉選)\s*[「「\x22']?(.+?)[」」\x22']?\s*(?:於|在|從)\s*(.+)", U "select");
  (Re.compile_I "^(?:hover)\s+(.+)", U "hover");
  (Re.compile_I "^(?:滑鼠移至|移至|移到|懸停)\s*(.+)", U "hover");
  (Re.compile_I "^(?:verify|assert|check)\s+(.+?)\s+(?:is\s+visible|appears?)", U "assert_visible");
  (Re.compile_I "^(?:確認|驗證|確保|檢查)\s*(.+?)\s*(?:可見|存在|出現|顯示|呈現)", U "assert_visible");
  (Re.compile_I "^(?:verify|assert|check|確認|驗證)\s*(?:url|網址|連結)\s*(?:is|contains?|包含|為)?\s*(.+)", U "assert_url");
  (Re.compile_I "^(?:verify|assert|check|確認|驗證)\s*(?:文字|text|內容)\s*(?:is|contains?|包含|為)?\s*(.+)", U "assert_text");
  (Re.compile_I "^(?:wait|等待)\s*(\d+)", U "wait");
  (Re.compile_I "^(?:screenshot|截圖|擷圖|截取畫面)\s*(.*)", U "screenshot");
  (Re.compile_I "^(?:scroll|捲動|滾動|向下捲)\s*(.*)", U "scroll")
].

Definition _ZH_GOTO_VERBS := Re.compile "^(?:進入|開啟|前往|瀏覽|連到|連至|造訪|訪問|查看|檢視|打開)".
Definition _ZH_CLICK_VERBS := Re.compile "^(?:點選|點擊|按下|按|點|選按|勾選|展開|收合|切換)".
Definition _ZH_FILL_VERBS := Re.compile "^(?:輸入|填入|填寫|鍵入)".
Definition _ZH_ASSERT_VERBS := Re.compile "^(?:確認|驗證|確保|檢查)".
Definition _ZH_BROWSE_KEYWORDS := Re.compile "(?:使用|利用|透過|以).*(?:開啟|瀏覽|檢視|查看|進入)".

(** The patterns written inside the functions. *)
Definition fragment_sep := Re.compile "[,，；;]".
Definition arrow_verb :=
  Re.compile "^(點選|點擊|按下|按|點|選按|切換|展開|進入|前往|開啟|瀏覽|到)\s*".
Definition step_marker := Re.compile_I "^(?:步驟|step)\s*\d*[.、:：]?\s*".
Definition quoted := Re.compile "[「「\x22'](.+?)[」」\x22']".
Definition non_word := Re.compile "[^\w]".

Definition arrow : str := U "→".

(** [f"{x}"] of a group: an absent group prints as [None]. *)
Definition fmt_group (g : option str) : str :=
  match g with
  | Some v => v
  | None => U "None"
  end.

Definition nonempty (s : str) : bool :=
  match s with
  | [] => false
  | _ => true
  end.

Section WithUnicode.
Context {UD : Unicode}.

(** The non-empty, stripped parts of a fragment around its arrows. *)
Definition arrow_parts (fragment : str) : list str :=
  filter nonempty (map strip (PyStr.split "→" fragment)).

(** The body of the loop of [_resolve_arrow_chains], for one fragment
    of the split. *)
Definition resolve_fragment (fragment0 : str) : str :=
  let fragment := strip fragment0 in
  if negb (contains arrow fragment) then fragment
  else
    let parts := arrow_parts fragment in
    if length parts <? 2 then replace "→" [] fragment
    else
      let first := hd [] parts in
      let last := List.last parts [] in
      match Re.match_ arrow_verb first with
      | Some verb_match => fmt_group (nth 0 (Re.groups verb_match) None) ++ last
      | None => U "點選" ++ last
      end.

Definition _resolve_arrow_chains (text : str) : str :=
  if negb (contains arrow text) then text
  else join (U "，") (map resolve_fragment (Re.split fragment_sep text)).

(** [groups[i].strip()] *)
Definition strip_group (groups : list (option str)) (i : nat) : res str :=
  match nth_error groups i with
  | None => inl (Raise "IndexError" (U "tuple index out of range"))
  | Some None => inl (Raise "AttributeError" (U "'NoneType' object has no attribute 'strip'"))
  | Some (Some v) => inr (strip v)
  end.

(** The characters stripped from the value of a search: the two corner
    brackets, the double quote and the apostrophe. *)
Definition quote_chars : str := U "「」" ++ [34%N] ++ U "'".

(** The Step built from the groups of the first pattern that matched. *)
Definition build_step (action : str) (groups : list (option str)) (text : str) : res Step :=
  (if str_eqb action (U "fill") && (2 <=? length groups) then
     let* t := strip_group groups 1 in
     let* v := strip_group groups 0 in
     ret (mk_value action t v)
   else if str_eqb action (U "fill_search") then
     let* v := strip_group groups 0 in
     ret (mk_value (U "fill") _SEARCH_INPUT_SELECTORS (strip_chars quote_chars v))
   else if str_eqb action (U "select") && (2 <=? length groups) then
     let* t := strip_group groups 1 in
     let* v := strip_group groups 0 in
     ret (mk_value action t v)
   else if str_eqb action (U "wait") then
     let* t := strip_group groups 0 in
     ret (mk_target action t)
   else if str_eqb action (U "scroll") then
     let* t := strip_group groups 0 in
     ret (mk_target action (if nonempty t then t else U "500"))
   else
     match groups with
     | [] => ret (mk_target action text)
     | _ :: _ =>
       let* t := strip_group groups 0 in
       ret (mk_target action t)
     end)%res.

(** The first pass: the explicit patterns, in their declared order. *)
Fixpoint first_pass (pats : list (Re.pattern * str)) (text : str) : option (res Step) :=
  match pats with
  | [] => None
  | (pattern, action) :: pats' =>
    match Re.match_ pattern text with
    | Some m => Some (build_step action (Re.groups m) text)
    | None => first_pass pats' text
    end
  end.

Definition empty : list (option str) -> str := fun _ => [].

(** The text [infer_step] works on: stripped, without its leading
    marker, arrows resolved. *)
Definition unmarked (raw : str) : str :=
  strip (Re.sub step_marker empty (strip raw)).

Definition resolved (text : str) : str :=
  if contains arrow text then _resolve_arrow_chains text else text.

(** The second pass: broad verb families. *)
Definition second_pass (text : str) : option Step :=
  if Re.found _ZH_GOTO_VERBS text then Some (mk_target (U "goto") (U "/"))
  else if Re.found _ZH_BROWSE_KEYWORDS text then Some (mk_target (U "goto") (U "/"))
  else if Re.found _ZH_CLICK_VERBS text then
    let remainder := strip (Re.sub _ZH_CLICK_VERBS empty text) in
    Some (mk_target (U "click")
            (if nonempty remainder then U "text=" ++ remainder else U "body"))
  else if Re.found _ZH_FILL_VERBS text then
    let remainder := strip (Re.sub _ZH_FILL_VERBS empty text) in
    match Re.search quoted remainder with
    | Some qm =>
      Some {| action := Some (U "fill"); target := Some _SEARCH_INPUT_SELECTORS;
              value := nth 0 (Re.groups qm) None; name := None |}
    | None => Some (mk_value (U "fill") (U "input[type=text]") remainder)
    end
  else if Re.found _ZH_ASSERT_VERBS text then
    let remainder := strip (Re.sub _ZH_ASSERT_VERBS empty text) in
    Some (mk_target (U "assert_visible")
            (if nonempty remainder then U "text=" ++ firstn 60 remainder else U "body"))
  else None.

(** [re.sub(r'[^\w]', '_', text[:40])] *)
Definition sanitized (text : str) : str :=
  Re.sub non_word (fun _ => U "_") (firstn 40 text).

Definition infer_step (raw : str) : res Step :=
  let text := unmarked raw in
  if negb (nonempty text) then ret (mk_shot (U "blank_step"))
  else
    let text := resolved text in
    match first_pass _STEP_ACTION_PATTERNS text with
    | Some step => step
    | None =>
      match second_pass text with
      | Some step => ret step
      | None => ret (mk_shot (sanitized text))
      end
    end.

(** ** The record extractors *)

(** [[infer_step(s.strip()) for s in pieces if s.strip()]] *)
Fixpoint infer_steps (pieces : list str) : res (list Step) :=
  match pieces with
  | [] => ret []
  | s :: pieces' =>
    let s := strip s in
    if nonempty s then
      (let* step := infer_step s in
       let* steps := infer_steps pieces' in
       ret (step :: steps))%res
    else infer_steps pieces'
  end.

(** [dict(zip(keys, values)).get(k, default)]: of two equal keys the
    later one counts. *)
Definition dict_get (d : list (str * str)) (k : string) (default : str) : str :=
  match find (fun kv => str_eqb (fst kv) (U k)) (rev d) with
  | Some kv => snd kv
  | None => default
  end.

Definition or_else (a b : str) : str := if nonempty a then a else b.

Definition tc_label (n : N) : str := U "TC-" ++ fmt_0d 3 n.

Definition is_goto (st : Step) : bool :=
  match action st with
  | Some a => str_eqb a (U "goto")
  | None => false
  end.

(** *** Pipe tables *)

Definition table_rule := Re.compile "^[-:]+$".
Definition step_sep := Re.compile "[;\n。；]".

(** One data row of a pipe table, given the cases so far. *)
Definition table_row (headers cells : list str) (cases : list TestCase)
  : res (list TestCase) :=
  let row := combine headers cells in
  let id_val := dict_get row "id" (dict_get row "編號" []) in
  let name_val :=
    dict_get row "name" (dict_get row "test case"
      (dict_get row "名稱" (dict_get row "測試案例" []))) in
  let steps_raw := dict_get row "steps" (dict_get row "步驟" (dict_get row "step" [])) in
  let expected :=
    dict_get row "expected" (dict_get row "expected result" (dict_get row "預期結果" [])) in
  if negb (nonempty name_val) then ret cases
  else
    (let* step_list := infer_steps (Re.split step_sep steps_raw) in
     let tc_counter := N.of_nat (length cases + 1) in
     ret (cases ++ [mk_case (or_else id_val (tc_label tc_counter)) name_val []
                      (match step_list with
                       | [] => [mk_target (U "goto") (U "/")]
                       | _ => step_list
                       end)
                      expected]))%res.

(** The loop of [_parse_table_cases]: [in_table], [headers] and
    [cases] are its variables. *)
Fixpoint table_loop (lines : list str) (in_table : bool) (headers : list str)
    (cases : list TestCase) : res (list TestCase) :=
  match lines with
  | [] => ret cases
  | line :: lines' =>
    let line := strip line in
    if negb (startswith (U "|") line) then
      if in_table then ret cases
      else table_loop lines' in_table headers cases
    else
      let cells := map strip (PyStr.split "|" (strip_chars (U "|") line)) in
      if forallb (Re.matches table_rule) (filter nonempty cells) then
        table_loop lines' in_table headers cases
      else if negb in_table then
        table_loop lines' true (map lower cells) cases
      else
        (let* cases' := table_row headers cells cases in
         table_loop lines' in_table headers cases')%res
  end.

Definition _parse_table_cases (lines : list str) : res (list TestCase) :=
  table_loop lines false [] [].

(** *** Grid tables *)

Definition grid_rule := Re.compile "^\+[=\-]+".
Definition bold := Re.compile "\*\*(.+?)\*\*".
Definition grid_header := Re.compile "個案編號|項目序|測試目標|測試紀錄".
Definition leading_digits := Re.compile "^\d+".

Definition push_block (current : list str) (row_blocks : list (list str))
  : list (list str) :=
  match current with
  | [] => row_blocks
  | _ => row_blocks ++ [current]
  end.

(** The first loop of [_parse_grid_table_cases]: the blocks of lines
    between the rules of a grid. *)
Fixpoint grid_blocks (lines : list str) (in_grid : bool) (current : list str)
    (row_blocks : list (list str)) : list (list str) :=
  match lines with
  | [] => push_block current row_blocks
  | line :: lines' =>
    if Re.matches grid_rule line then
      grid_blocks lines' true [] (push_block current row_blocks)
    else if in_grid && startswith (U "|") line then
      grid_blocks lines' in_grid (current ++ [line]) row_blocks
    else if in_grid && negb (startswith (U "|") line) && negb (startswith (U "+") line) then
      grid_blocks lines' false [] (push_block current row_blocks)
    else grid_blocks lines' in_grid current row_blocks
  end.

Definition flatten_cell_lines (cell_lines : list str) : str :=
  let raw := join (U " ") (filter nonempty (map strip cell_lines)) in
  let raw := Re.sub bold (fun g => get (nth 0 g None) []) raw in
  strip raw.

Definition bar_parts (l : str) : list str := PyStr.split "|" (strip_chars (U "|") l).

Definition extract_row_cells (row_lines : list str) : list str :=
  match row_lines with
  | [] => []
  | first :: _ =>
    let ncols := length (bar_parts first) in
    map (fun i =>
           flatten_cell_lines
             (flat_map (fun l => match nth_error (bar_parts l) i with
                                 | Some p => [strip p]
                                 | None => []
                                 end) row_lines))
        (seq 0 ncols)
  end.

(** One block of a grid; [tc_counter] counts the cases made so far. *)
Definition grid_row (block : list str) (tc_counter : N) : res (option TestCase) :=
  let cells := extract_row_cells block in
  if length cells <? 2 then ret None
  else
    let first_cell := strip (nth 0 cells []) in
    if Re.found grid_header first_cell then ret None
    else
      let seq := first_cell in
      let name := nth 1 cells [] in
      let steps_raw := nth 2 cells [] in
      let expected := nth 3 cells [] in
      if negb (nonempty name) || negb (Re.matches leading_digits seq) then ret None
      else
        let processed := _resolve_arrow_chains steps_raw in
        (let* step_list := infer_steps (Re.split fragment_sep processed) in
         let step_list :=
           if existsb is_goto step_list then step_list
           else mk_target (U "goto") (U "/") :: step_list in
         let step_list :=
           step_list ++ [mk_shot (tc_label (tc_counter + 1) ++ U "_final")] in
         ret (Some (mk_case (tc_label (tc_counter + 1)) name steps_raw step_list expected)))%res.

Fixpoint grid_loop (blocks : list (list str)) (tc_counter : N) (cases : list TestCase)
  : res (list TestCase) :=
  match blocks with
  | [] => ret cases
  | block :: blocks' =>
    (let* c := grid_row block tc_counter in
     match c with
     | Some tc => grid_loop blocks' (tc_counter + 1) (cases ++ [tc])
     | None => grid_loop blocks' tc_counter cases
     end)%res
  end.

Definition _parse_grid_table_cases (md : str) : res (list TestCase) :=
  grid_loop (grid_blocks (splitlines md) false [] []) 0 [].

(** *** Sections *)

Definition tc_word := Re.compile_I "TC|test case|測試|案例".

(** The case being collected by the section loop. *)
Record open_case : Type := {
  oc_id : str;
  oc_name : str;
  oc_steps : list Step;
  oc_expected : str
}.

Definition close_case (c : open_case) : TestCase :=
  mk_case (oc_id c) (oc_name c) [] (oc_steps c) (oc_expected c).

(** [if current_case and current_case.get("steps"): test_cases.append(current_case)] *)
Definition save_case (current : option open_case) (test_cases : list TestCase)
  : list TestCase :=
  match current with
  | Some c =>
    match oc_steps c with
    | [] => test_cases
    | _ => test_cases ++ [close_case c]
    end
  | None => test_cases
  end.

Definition with_expected (c : open_case) (e : str) : open_case :=
  {| oc_id := oc_id c; oc_name := oc_name c; oc_steps := oc_steps c; oc_expected := e |}.

Definition with_step (c : open_case) (st : Step) : open_case :=
  {| oc_id := oc_id c; oc_name := oc_name c; oc_steps := oc_steps c ++ [st];
     oc_expected := oc_expected c |}.

Fixpoint section_loop (lines : list str) (current : option open_case) (tc_counter : N)
    (test_cases : list TestCase) : res (list TestCase) :=
  match lines with
  | [] => ret (save_case current test_cases)
  | line :: lines' =>
    match (if Re.found tc_word line then Re.match_ _TC_HEADER_RE line else None) with
    | Some h_match =>
      let test_cases := save_case current test_cases in
      let tc_counter := (tc_counter + 1)%N in
      let tc_num :=
        match nth 0 (Re.groups h_match) None with
        | Some (c :: d) => c :: d
        | _ => str_of_N tc_counter
        end in
      (let* tc_name := strip_group (Re.groups h_match) 1 in
       match int tc_num with
       | None => inl (ValueError tc_num)
       | Some n =>
         section_loop lines'
           (Some {| oc_id := tc_label n; oc_name := tc_name; oc_steps := [];
                    oc_expected := [] |})
           tc_counter test_cases
       end)%res
    | None =>
      match current with
      | None => section_loop lines' current tc_counter test_cases
      | Some c =>
        match (match Re.match_ _NUMBERED_STEP_RE line with
               | Some s_match => Some s_match
               | None => Re.match_ _BULLET_STEP_RE line
               end) with
        | Some s_match =>
          (let* step_text := strip_group (Re.groups s_match) 0 in
           match Re.match_ _EXPECTED_RE step_text with
           | Some exp_m =>
             let* e := strip_group (Re.groups exp_m) 0 in
             section_loop lines' (Some (with_expected c e)) tc_counter test_cases
           | None =>
             let* st := infer_step step_text in
             section_loop lines' (Some (with_step c st)) tc_counter test_cases
           end)%res
        | None =>
          match (if startswith (U "#") line then None else Re.search _EXPECTED_RE line) with
          | Some exp_m =>
            (let* e := strip_group (Re.groups exp_m) 0 in
             section_loop lines' (Some (with_expected c e)) tc_counter test_cases)%res
          | None => section_loop lines' current tc_counter test_cases
          end
        end
      end
    end
  end.

(** *** The whole of [parse_markdown_to_cases] *)

Record Meta : Type := {
  title : str;
  base_url : str;
  environment : str;
  tested_by : str;
  date : str
}.

Record Payload : Type := {
  meta : Meta;
  test_cases : list TestCase
}.

Definition meta_url := Re.compile_I "(?:URL|base.?url|網址|網站)".
Definition meta_title := Re.compile_I "(?:title|名稱|測試名|project)".
Definition meta_env := Re.compile_I "(?:環境|environment|env)".
Definition meta_by := Re.compile_I "(?:author|by|by|撰寫者|PM|SA)".
Definition meta_sep := Re.compile "[：:\t]+".

(** The text after the first colon or tab of a line, if there is one. *)
Definition after_sep (line : str) : option str :=
  match Re.split_max meta_sep 1 line with
  | [_; v] => Some (strip v)
  | _ => None
  end.

Definition meta_line (m : Meta) (line : str) : Meta :=
  let m :=
    if Re.found meta_url line then
      match Re.findall _URL_RE line with
      | u :: _ =>
        if negb (nonempty (base_url m)) then
          {| title := title m; base_url := u; environment := environment m;
             tested_by := tested_by m; date := date m |}
        else m
      | [] => m
      end
    else m in
  let m :=
    match (if Re.found meta_title line then after_sep line else None) with
    | Some v =>
      {| title := v; base_url := base_url m; environment := environment m;
         tested_by := tested_by m; date := date m |}
    | None => m
    end in
  let m :=
    match (if Re.found meta_env line then after_sep line else None) with
    | Some v =>
      {| title := title m; base_url := base_url m; environment := v;
         tested_by := tested_by m; date := date m |}
    | None => m
    end in
  match (if Re.found meta_by line then after_sep line else None) with
  | Some v =>
    {| title := title m; base_url := base_url m; environment := environment m;
       tested_by := v; date := date m |}
  | None => m
  end.

Definition exploratory (m : Meta) : TestCase :=
  mk_case (U "TC-001") (U "Exploratory Test")
    (U "Parsed from unstructured Word document — please edit steps manually")
    [mk_target (U "goto") (base_url m); mk_shot (U "home")]
    (U "Page loads without errors").

(** The third strategy with its fallback: sections, or else the one
    exploratory case. *)
Definition section_cases (lines : list str) (m : Meta) : res (list TestCase) :=
  (let* test_cases := section_loop lines None 0 [] in
   match test_cases with
   | [] => ret [exploratory m]
   | _ => ret test_cases
   end)%res.

(** [today] is [str(date.today())]. *)
Definition parse_markdown_to_cases (today : str) (md : str) (base_url0 : str)
  : res Payload :=
  let lines := splitlines md in
  let m0 := {| title := U "Test Suite"; base_url := base_url0; environment := [];
               tested_by := []; date := today |} in
  let m := fold_left meta_line (firstn 20 lines) m0 in
  (let* table_cases := _parse_table_cases lines in
   match table_cases with
   | _ :: _ => ret {| meta := m; test_cases := table_cases |}
   | [] =>
     let* grid_cases := _parse_grid_table_cases md in
     match grid_cases with
     | _ :: _ => ret {| meta := m; test_cases := grid_cases |}
     | [] =>
       let* cases := section_cases lines m in
       ret {| meta := m; test_cases := cases |}
     end
   end)%res.

(** ** The python-docx pass of [main] *)

(** What python-docx gives: the tables of the document, each a list of
    rows, each the texts of its cells; opening the document or reading
    a row may raise. *)
Definition DocxTable : Type := list (res (list str)).
Definition Docx : Type := res (list DocxTable).

Definition docx_row (headers cells : list str) (docx_cases : list TestCase)
  : res (list TestCase) :=
  let row_dict := combine headers cells in
  let name_val :=
    dict_get row_dict "測試項目" (dict_get row_dict "test case" (dict_get row_dict "name" [])) in
  let steps_raw :=
    dict_get row_dict "操作步驟" (dict_get row_dict "steps" (dict_get row_dict "step" [])) in
  let expected :=
    dict_get row_dict "預期結果"
      (dict_get row_dict "expected result" (dict_get row_dict "expected" [])) in
  if negb (nonempty name_val)
     || str_in name_val [U "測試項目"; U "test case"; U "name"] then ret docx_cases
  else
    (let* step_list := infer_steps (Re.split step_sep steps_raw) in
     ret (docx_cases ++
          [mk_case (tc_label (N.of_nat (length docx_cases + 1))) name_val steps_raw
             (match step_list with
              | [] => [mk_target (U "goto") (U "/")]
              | _ => step_list
              end)
             expected]))%res.

Fixpoint docx_rows (rows : DocxTable) (headers : list str) (docx_cases : list TestCase)
  : res (list TestCase) :=
  match rows with
  | [] => ret docx_cases
  | row :: rows' =>
    (let* texts := row in
     let cells := map (fun t => replace LF (U " ") (strip t)) texts in
     if str_in (U "項目序") cells || str_in (U "測試項目") cells then
       docx_rows rows' (map lower cells) docx_cases
     else if match headers with [] => false | _ => true end
             && (length cells =? length headers) then
       let* docx_cases' := docx_row headers cells docx_cases in
       docx_rows rows' headers docx_cases'
     else docx_rows rows' headers docx_cases)%res
  end.

Fixpoint docx_tables (tables : list DocxTable) (docx_cases : list TestCase)
  : res (list TestCase) :=
  match tables with
  | [] => ret docx_cases
  | table :: tables' =>
    (let* docx_cases' := docx_rows table [] docx_cases in
     docx_tables tables' docx_cases')%res
  end.

(** What the [try] block computes: the cases read from the tables. *)
Definition docx_pass (doc : Docx) : res (list TestCase) :=
  (let* tables := doc in docx_tables tables [])%res.

(** The payload [main] writes: the markdown payload, its cases replaced
    by those of the python-docx pass when that pass ends without an
    exception and with at least one case. *)
Definition main (today : str) (md : str) (base_url0 : str) (doc : Docx) : res Payload :=
  (let* payload := parse_markdown_to_cases today md base_url0 in
   match docx_pass doc with
   | inr (c :: cs) => ret {| meta := meta payload; test_cases := c :: cs |}
   | inr [] => ret payload
   | inl _ => ret payload
   end)%res.

End WithUnicode.

End ParseDocx.

Section ArrowExamples.
Let UD := latin_cjk.
Existing Instance UD.

Example resolve_ex1 :
  ParseDocx._resolve_arrow_chains (U "點選主選單→全宗瀏覽") = U "點選全宗瀏覽".
Proof. vm_compute. reflexivity. Qed.

Example resolve_ex2 :
  ParseDocx._resolve_arrow_chains (U "進入首頁, 主選單 → 檢索→進階;查看結果") =
  U "進入首頁，點選進階，查看結果".
Proof. vm_compute. reflexivity. Qed.

Example resolve_ex3 :
  ParseDocx._resolve_arrow_chains (U "主選單→") = U "主選單".
Proof. vm_compute. reflexivity. Qed.

End ArrowExamples.

(* ------------------------------------------------------------------ *)
(** * Facts about strings and matching *)
(* ------------------------------------------------------------------ *)

Module PyStrFacts.

Lemma contains_char (c : N) (s : str) : contains [c] s = mem c s.
Proof.
  induction s as [|x s IH]; simpl; [reflexivity|].
  rewrite IH. unfold mem. simpl.
  rewrite andb_true_r. reflexivity.
Qed.

Lemma mem_false_Forall (c : N) (s : str) :
  mem c s = false <-> Forall (fun x => x <> c) s.
Proof.
  unfold mem. induction s as [|x s IH]; simpl.
  - split; auto.
  - rewrite orb_false_iff, IH. split.
    + intros [H1 H2]. constructor; auto.
      intros ->. rewrite N.eqb_refl in H1. discriminate.
    + intros H. inversion H; subst. split; auto.
      apply N.eqb_neq. congruence.
Qed.

Section Preserved.
Variable P : N -> Prop.

Lemma lstrip_by_Forall (p : N -> bool) (s : str) :
  Forall P s -> Forall P (lstrip_by p s).
Proof.
  induction s as [|c s IH]; simpl; intros H; auto.
  destruct (p c); auto. inversion H; auto.
Qed.

Lemma rstrip_by_Forall (p : N -> bool) (s : str) :
  Forall P s -> Forall P (rstrip_by p s).
Proof.
  intros H. unfold rstrip_by.
  apply Forall_rev, lstrip_by_Forall, Forall_rev, H.
Qed.

Lemma strip_by_Forall (p : N -> bool) (s : str) :
  Forall P s -> Forall P (strip_by p s).
Proof. intros H. apply rstrip_by_Forall, lstrip_by_Forall, H. Qed.

Lemma strip_Forall (s : str) : Forall P s -> Forall P (strip s).
Proof. apply strip_by_Forall. Qed.

Lemma firstn_Forall (n : nat) (s : str) : Forall P s -> Forall P (firstn n s).
Proof.
  revert n. induction s as [|c s IH]; intros [|n] H; simpl; auto.
  inversion H; subst. constructor; auto.
Qed.

Lemma split_by_Forall (p : N -> bool) (s : str) :
  Forall P s -> Forall (Forall P) (split_by p s).
Proof.
  induction s as [|c s IH]; simpl; intros H.
  - repeat constructor.
  - inversion H; subst. specialize (IH H3).
    destruct (p c).
    + constructor; auto.
    + destruct (split_by p s) as [|w ws]; [repeat constructor; auto|].
      inversion IH; subst. constructor; auto.
Qed.

Lemma replace_drop_Forall (old : string) (s : str) :
  Forall P s -> Forall P (replace old [] s).
Proof.
  unfold replace. induction s as [|c s IH]; simpl; intros H; auto.
  inversion H; subst.
  destruct (c =? ch old)%N; simpl; auto.
Qed.

End Preserved.

Lemma replace_drop_gone (old : string) (s : str) :
  Forall (fun x => x <> ch old) (replace old [] s).
Proof.
  unfold replace. induction s as [|c s IH]; simpl; auto.
  destruct (c =? ch old)%N eqn:E; simpl; auto.
  constructor; auto. apply N.eqb_neq, E.
Qed.

(** The pieces of a split hold no separator. *)
Lemma split_by_free (p : N -> bool) (s : str) :
  Forall (Forall (fun x => p x = false)) (split_by p s).
Proof.
  induction s as [|c s IH]; simpl.
  - repeat constructor.
  - destruct (p c) eqn:E.
    + constructor; auto.
    + destruct (split_by p s) as [|w ws]; [repeat constructor; auto|].
      inversion IH; subst. constructor; auto.
Qed.

Lemma split_by_ext (p q : N -> bool) (s : str) :
  (forall x, p x = q x) -> split_by p s = split_by q s.
Proof.
  intros H. induction s as [|c s IH]; simpl; auto.
  rewrite H, IH. reflexivity.
Qed.

Lemma split_by_nonempty (p : N -> bool) (s : str) : split_by p s <> [].
Proof.
  destruct s as [|c s]; simpl; [discriminate|].
  destruct (p c); [discriminate|].
  destruct (split_by p s); discriminate.
Qed.

Lemma split_by_free_id (p : N -> bool) (w : str) :
  Forall (fun x => p x = false) w -> split_by p w = [w].
Proof.
  induction w as [|c w IH]; simpl; intros H; auto.
  inversion H; subst. rewrite H2, IH; auto.
Qed.

Lemma split_by_app_sep (p : N -> bool) (w : str) (c : N) (s : str) :
  Forall (fun x => p x = false) w -> p c = true ->
  split_by p (w ++ c :: s) = w :: split_by p s.
Proof.
  induction w as [|x w IH]; simpl; intros H Hc.
  - rewrite Hc. reflexivity.
  - inversion H; subst. rewrite H2, IH; auto.
Qed.

(** Joining separator-free pieces with a separator and splitting again
    gives the pieces back. *)
Lemma split_by_join (p : N -> bool) (c : N) (parts : list str) :
  p c = true -> parts <> [] ->
  Forall (Forall (fun x => p x = false)) parts ->
  split_by p (join [c] parts) = parts.
Proof.
  intros Hc. induction parts as [|w ws IH]; intros Hne H; [congruence|].
  inversion H; subst.
  destruct ws as [|w' ws'].
  - simpl. apply split_by_free_id; auto.
  - change (join [c] (w :: w' :: ws')) with (w ++ c :: join [c] (w' :: ws')).
    rewrite split_by_app_sep; auto.
    rewrite IH; auto. discriminate.
Qed.

Lemma last_In (A : Type) (l : list A) (d : A) : l <> [] -> In (List.last l d) l.
Proof.
  induction l as [|x l IH]; intros H; [congruence|].
  destruct l as [|y l]; [left; reflexivity|].
  right. apply IH. discriminate.
Qed.

Lemma lstrip_by_all (p : N -> bool) (s : str) :
  forallb p s = true -> lstrip_by p s = [].
Proof.
  induction s as [|c s IH]; simpl; auto.
  intros H. apply andb_true_iff in H as [H1 H2]. rewrite H1. auto.
Qed.

Lemma strip_all_space (s : str) : forallb isspace s = true -> strip s = [].
Proof.
  intros H. unfold strip, strip_by. rewrite lstrip_by_all; auto.
Qed.

End PyStrFacts.

Module ReFacts.
Import Re.

Lemma eol_same (st st' : mst) :
  In st' (match rest st with
          | [] => [st]
          | [10%N] => [st]
          | _ => []
          end) -> st' = st.
Proof.
  destruct (rest st) as [|x l]; [intros [<-|[]]; reflexivity|].
  destruct x as [|p]; [contradiction|].
  do 4 (try destruct p as [p|p|]; try contradiction).
  destruct l; [intros [<-|[]]; reflexivity | contradiction].
Qed.

Section Invariant.
Context {UD : Unicode}.
Variable icase : bool.

(** *** What a match can capture

    Whatever holds of every character of the subject holds of every
    character of what is left and of every captured group. *)

Variable P : N -> Prop.

Definition caps_all (c : list (option str)) : Prop :=
  forall v, In (Some v) c -> Forall P v.

Definition good (st : mst) : Prop := Forall P (rest st) /\ caps_all (caps st).

Definition keeps (ma : mst -> list mst) : Prop :=
  forall st st', In st' (ma st) -> good st -> good st'.

Lemma step1_keeps (p : N -> bool) : keeps (step1 p).
Proof.
  intros st st' Hin [Hr Hc]. unfold step1 in Hin.
  destruct (rest st) as [|x r] eqn:E; [contradiction|].
  destruct (p x); [|contradiction].
  destruct Hin as [<-|[]]. split; simpl; auto.
  inversion Hr; auto.
Qed.

Lemma rep_keeps (ma : mst -> list mst) g lo hi :
  keeps ma -> forall fuel n, keeps (rep ma g lo hi fuel n).
Proof.
  intros Hma. induction fuel as [|f IH]; intros n st st' Hin Hg.
  - simpl in Hin.
    destruct g, (lo <=? n); simpl in Hin; try contradiction;
      destruct Hin as [<-|[]]; assumption.
  - simpl in Hin.
    assert (Hstop : In st' (if lo <=? n then [st] else []) -> good st').
    { destruct (lo <=? n); [intros [<-|[]]; assumption | contradiction]. }
    assert (Hmore : In st'
        (if may_repeat hi n
         then flat_map (fun st'0 => if pos st <? pos st'0 then rep ma g lo hi f (S n) st'0 else [])
                       (ma st)
         else []) -> good st').
    { destruct (may_repeat hi n); [|contradiction].
      intros H. apply in_flat_map in H as [st1 [H1 H2]].
      destruct (pos st <? pos st1); [|contradiction].
      eapply IH; eauto. }
    destruct g; apply in_app_or in Hin as [H|H]; auto.
Qed.

Lemma set_nth_In (A : Type) (i : nat) (v x : A) (l : list A) :
  In x (set_nth i v l) -> x = v \/ In x l.
Proof.
  revert i. induction l as [|y l IH]; intros [|i]; simpl; auto.
  - intros [<-|H]; auto.
  - intros [<-|H]; auto. destruct (IH _ H); auto.
Qed.

Lemma m_keeps (r : re) : keeps (m icase r).
Proof.
  induction r; simpl.
  - intros st st' [<-|[]] H; exact H.
  - apply step1_keeps.
  - apply step1_keeps.
  - apply step1_keeps.
  - intros st st' Hin Hg. apply in_flat_map in Hin as [st1 [H1 H2]]. eauto.
  - intros st st' Hin Hg. apply in_app_or in Hin as [H|H]; eauto.
  - intros st st' Hin Hg. eapply rep_keeps; eauto.
  - intros st st' Hin Hg. apply in_map_iff in Hin as [st1 [<- H1]].
    destruct (IHr _ _ H1 Hg) as [Hr Hc]. split; simpl; auto.
    intros v Hv. apply set_nth_In in Hv as [Hv|Hv]; auto.
    inversion Hv; subst. apply PyStrFacts.firstn_Forall. exact (proj1 Hg).
  - intros st st' Hin Hg. destruct (pos st =? 0); [|contradiction].
    destruct Hin as [<-|[]]; exact Hg.
  - intros st st' Hin Hg. apply eol_same in Hin. subst. exact Hg.
Qed.

End Invariant.

Section Groups.
Context {UD : Unicode}.
Variable icase : bool.

(** *** Groups that take part in every match *)

(** [sets r i]: group [i] lies on every path through [r]. *)
Fixpoint sets (r : re) (i : nat) : bool :=
  match r with
  | Cat a b => sets a i || sets b i
  | Alt a b => sets a i && sets b i
  | Rep _ lo _ a => (0 <? lo) && sets a i
  | Grp j a => (i =? j) || sets a i
  | _ => false
  end.

Definition is_set (i : nat) (st : mst) : Prop := nth i (caps st) None <> None.

(** A matcher that never forgets a group nor changes their number. *)
Definition mono (ma : mst -> list mst) : Prop :=
  forall st st', In st' (ma st) ->
    length (caps st') = length (caps st) /\
    forall i, is_set i st -> is_set i st'.

Lemma step1_mono (p : N -> bool) : mono (step1 p).
Proof.
  intros st st' Hin. unfold step1 in Hin.
  destruct (rest st) as [|x r]; [contradiction|].
  destruct (p x); [|contradiction].
  destruct Hin as [<-|[]]. split; auto.
Qed.

Lemma rep_mono (ma : mst -> list mst) g lo hi :
  mono ma -> forall fuel n, mono (rep ma g lo hi fuel n).
Proof.
  intros Hma. induction fuel as [|f IH]; intros n st st' Hin.
  - simpl in Hin.
    destruct g, (lo <=? n); simpl in Hin; try contradiction;
      destruct Hin as [<-|[]]; split; auto.
  - simpl in Hin.
    assert (Hstop : In st' (if lo <=? n then [st] else []) ->
              length (caps st') = length (caps st) /\
              forall i, is_set i st -> is_set i st').
    { destruct (lo <=? n); [intros [<-|[]]; split; auto | contradiction]. }
    assert (Hmore : In st'
        (if may_repeat hi n
         then flat_map (fun st'0 => if pos st <? pos st'0 then rep ma g lo hi f (S n) st'0 else [])
                       (ma st)
         else []) ->
              length (caps st') = length (caps st) /\
              forall i, is_set i st -> is_set i st').
    { destruct (may_repeat hi n); [|contradiction].
      intros H. apply in_flat_map in H as [st1 [H1 H2]].
      destruct (pos st <? pos st1); [|contradiction].
      destruct (Hma _ _ H1) as [L1 S1].
      destruct (IH _ _ _ H2) as [L2 S2].
      split; [congruence | auto]. }
    destruct g; apply in_app_or in Hin as [H|H]; auto.
Qed.

Lemma set_nth_length (A : Type) (i : nat) (v : A) (l : list A) :
  length (set_nth i v l) = length l.
Proof.
  revert i. induction l as [|y l IH]; intros [|i]; simpl; auto.
Qed.

Lemma nth_set_nth_same (A : Type) (i : nat) (v d : A) (l : list A) :
  i < length l -> nth i (set_nth i v l) d = v.
Proof.
  revert i. induction l as [|y l IH]; intros [|i] H; simpl in *; try lia; auto.
  apply IH. lia.
Qed.

Lemma nth_set_nth_other (A : Type) (i j : nat) (v d : A) (l : list A) :
  i <> j -> nth i (set_nth j v l) d = nth i l d.
Proof.
  revert i j. induction l as [|y l IH]; intros [|i] [|j] H; simpl; try congruence; auto.
Qed.

Lemma m_mono (r : re) : mono (m icase r).
Proof.
  induction r; simpl.
  - intros st st' [<-|[]]; split; auto.
  - apply step1_mono.
  - apply step1_mono.
  - apply step1_mono.
  - intros st st' Hin. apply in_flat_map in Hin as [st1 [H1 H2]].
    destruct (IHr1 _ _ H1) as [L1 S1]. destruct (IHr2 _ _ H2) as [L2 S2].
    split; [congruence | auto].
  - intros st st' Hin. apply in_app_or in Hin as [H|H]; auto.
  - intros st st' Hin. eapply rep_mono; eauto.
  - intros st st' Hin. apply in_map_iff in Hin as [st1 [<- H1]].
    destruct (IHr _ _ H1) as [L1 S1]. split; simpl.
    + rewrite set_nth_length. exact L1.
    + intros j Hj. unfold is_set. simpl.
      destruct (Nat.eq_dec j i) as [->|Hne].
      * destruct (Nat.lt_ge_cases i (length (caps st1))) as [Hlt|Hge].
        -- rewrite nth_set_nth_same; [discriminate | exact Hlt].
        -- exfalso. apply Hj. apply nth_overflow. lia.
      * rewrite nth_set_nth_other; auto. apply S1, Hj.
  - intros st st' Hin. destruct (pos st =? 0); [|contradiction].
    destruct Hin as [<-|[]]; split; auto.
  - intros st st' Hin. apply eol_same in Hin. subst. split; auto.
Qed.

Definition surely (ma : mst -> list mst) (i : nat) : Prop :=
  forall st st', In st' (ma st) -> i < length (caps st) -> is_set i st'.

Lemma rep_sets (ma : mst -> list mst) g lo hi (i : nat) :
  mono ma -> surely ma i -> 0 < lo ->
  forall fuel n st st', In st' (rep ma g lo hi fuel n st) ->
    i < length (caps st) -> (0 < n -> is_set i st) -> is_set i st'.
Proof.
  intros Hmono Hs Hlo. induction fuel as [|f IH]; intros n st st' Hin Hi Hn.
  - simpl in Hin.
    destruct (lo <=? n) eqn:E.
    + apply Nat.leb_le in E.
      destruct g; simpl in Hin; destruct Hin as [<-|[]]; apply Hn; lia.
    + destruct g; simpl in Hin; contradiction.
  - simpl in Hin.
    assert (Hstop : In st' (if lo <=? n then [st] else []) -> is_set i st').
    { destruct (lo <=? n) eqn:E; [|contradiction].
      apply Nat.leb_le in E. intros [<-|[]]. apply Hn. lia. }
    assert (Hmore : In st'
        (if may_repeat hi n
         then flat_map (fun st'0 => if pos st <? pos st'0 then rep ma g lo hi f (S n) st'0 else [])
                       (ma st)
         else []) -> is_set i st').
    { destruct (may_repeat hi n); [|contradiction].
      intros H. apply in_flat_map in H as [st1 [H1 H2]].
      destruct (pos st <? pos st1); [|contradiction].
      destruct (Hmono _ _ H1) as [L1 S1].
      eapply IH; [exact H2 | lia | intros _; eapply Hs; eauto]. }
    destruct g; apply in_app_or in Hin as [H|H]; auto.
Qed.

Lemma m_sets (r : re) (i : nat) : sets r i = true -> surely (m icase r) i.
Proof.
  induction r; simpl; try discriminate.
  - (* Cat *)
    intros H st st' Hin Hi. apply in_flat_map in Hin as [st1 [H1 H2]].
    destruct (m_mono r1 _ _ H1) as [L1 S1].
    destruct (m_mono r2 _ _ H2) as [L2 S2].
    apply orb_true_iff in H as [H|H].
    + apply S2. eapply IHr1; eauto.
    + eapply IHr2; eauto. lia.
  - (* Alt *)
    intros H st st' Hin Hi. apply andb_true_iff in H as [Ha Hb].
    apply in_app_or in Hin as [H|H]; [eapply IHr1 | eapply IHr2]; eauto.
  - (* Rep *)
    intros H st st' Hin Hi. apply andb_true_iff in H as [Ha Hb].
    apply Nat.ltb_lt in Ha.
    eapply rep_sets; eauto using m_mono. lia.
  - (* Grp *)
    intros H st st' Hin Hi. apply in_map_iff in Hin as [st1 [<- H1]].
    destruct (m_mono r _ _ H1) as [L1 S1].
    unfold is_set. simpl.
    apply orb_true_iff in H as [H|H].
    + apply Nat.eqb_eq in H. subst i0.
      rewrite nth_set_nth_same; [discriminate | lia].
    + destruct (Nat.eq_dec i0 i) as [->|Hne].
      * rewrite nth_set_nth_same; [discriminate | lia].
      * rewrite nth_set_nth_other; auto. eapply IHr; eauto.
Qed.

End Groups.

Section Matches.
Context {UD : Unicode}.

(** A group that lies on every path is present in the groups of a
    match. *)
Lemma match_group (p : pattern) (s : str) (r : mst) (i : nat) :
  match_ p s = Some r -> sets (pat_re p) i = true -> i < pat_groups p ->
  exists v, nth i (groups r) None = Some v.
Proof.
  unfold match_, match_at. intros Hm Hs Hi.
  destruct (m (pat_icase p) (pat_re p) (start p 0 s)) as [|st l] eqn:E; [discriminate|].
  simpl in Hm. inversion Hm; subst st.
  assert (Hset : is_set i r).
  { pose proof (@m_sets _ (pat_icase p) (pat_re p) i Hs) as Hsure.
    apply (Hsure (start p 0 s)).
    - rewrite E. left. reflexivity.
    - simpl. rewrite repeat_length. exact Hi. }
  unfold is_set in Hset. unfold groups.
  destruct (nth i (caps r) None); [eauto | congruence].
Qed.

Lemma match_groups_length (p : pattern) (s : str) (r : mst) :
  match_ p s = Some r -> length (groups r) = pat_groups p.
Proof.
  unfold match_, match_at. intros Hm.
  destruct (m (pat_icase p) (pat_re p) (start p 0 s)) as [|st l] eqn:E; [discriminate|].
  simpl in Hm. inversion Hm; subst st.
  destruct (@m_mono _ (pat_icase p) (pat_re p) (start p 0 s) r) as [L _].
  - rewrite E. left. reflexivity.
  - unfold groups. rewrite L. simpl. apply repeat_length.
Qed.

(** Whatever holds of every character of the subject holds of every
    character of every group of a match. *)
Lemma match_groups_Forall (P : N -> Prop) (p : pattern) (s : str) (r : mst) :
  match_ p s = Some r -> Forall P s -> caps_all P (groups r).
Proof.
  unfold match_, match_at. intros Hm Hs.
  destruct (m (pat_icase p) (pat_re p) (start p 0 s)) as [|st l] eqn:E; [discriminate|].
  simpl in Hm. inversion Hm; subst st.
  apply (@m_keeps _ (pat_icase p) P (pat_re p) (start p 0 s) r).
  - rewrite E. left. reflexivity.
  - split; simpl; auto.
    intros v Hv. apply repeat_spec in Hv. discriminate.
Qed.

(** *** Patterns that are one class *)

Definition one_class (items : list citem) : pattern :=
  {| pat_re := Cls false items; pat_icase := false; pat_groups := 0 |}.

Lemma match_at_class (neg : bool) (items : list citem) (ic : bool) (g at_ : nat) (s : str) :
  match_at {| pat_re := Cls neg items; pat_icase := ic; pat_groups := g |} at_ s =
  match s with
  | x :: s' =>
    if cls_match ic neg items x
    then Some {| pos := S at_; rest := s'; caps := repeat None g |}
    else None
  | [] => None
  end.
Proof.
  unfold match_at. simpl. unfold step1. simpl.
  destruct s as [|x s']; [reflexivity|].
  destruct (cls_match ic neg items x); reflexivity.
Qed.

(** Splitting at a one-class pattern is splitting at the characters of
    the class. *)
Lemma split_go_class (neg : bool) (items : list citem) (ic : bool) (g : nat) (s : str) :
  forall fuel at_ cur, length s < fuel ->
    split_go {| pat_re := Cls neg items; pat_icase := ic; pat_groups := g |}
             None fuel at_ cur s =
    match split_by (cls_match ic neg items) s with
    | w :: ws => (rev cur ++ w) :: ws
    | [] => []
    end.
Proof.
  induction s as [|x s IH]; intros fuel at_ cur Hf.
  - destruct fuel; [simpl in Hf; lia|].
    cbn [split_go]. rewrite match_at_class. simpl.
    rewrite app_nil_r. reflexivity.
  - destruct fuel; [simpl in Hf; lia|].
    cbn [split_go]. rewrite match_at_class.
    cbn [split_by].
    destruct (cls_match ic neg items x) eqn:E.
    + cbn [pos rest]. replace (at_ <? S at_) with true
        by (symmetry; apply Nat.ltb_lt; lia).
      cbn [option_map]. rewrite (IH fuel (S at_) []); [|simpl in Hf; lia].
      rewrite app_nil_r. cbn [rev app].
      destruct (split_by (cls_match ic neg items) s) eqn:E2.
      * exfalso. eapply PyStrFacts.split_by_nonempty; eauto.
      * reflexivity.
    + rewrite (IH fuel (S at_) (x :: cur)); [|simpl in Hf; lia].
      destruct (split_by (cls_match ic neg items) s) eqn:E2.
      * exfalso. eapply PyStrFacts.split_by_nonempty; eauto.
      * simpl. rewrite <- app_assoc. reflexivity.
Qed.

Lemma split_class (neg : bool) (items : list citem) (ic : bool) (g : nat) (s : str) :
  split {| pat_re := Cls neg items; pat_icase := ic; pat_groups := g |} s =
  split_by (cls_match ic neg items) s.
Proof.
  unfold split. rewrite split_go_class by lia.
  destruct (split_by (cls_match ic neg items) s); reflexivity.
Qed.

(** Substituting at a one-class pattern rewrites the characters of the
    class one by one. *)
Lemma sub_go_class (neg : bool) (items : list citem) (ic : bool) (g : nat)
    (repl : list (option str) -> str) (s : str) :
  forall fuel at_, length s < fuel ->
    sub_go {| pat_re := Cls neg items; pat_icase := ic; pat_groups := g |}
           repl fuel at_ s =
    flat_map (fun x => if cls_match ic neg items x then repl (repeat None g) else [x]) s.
Proof.
  induction s as [|x s IH]; intros fuel at_ Hf.
  - destruct fuel; [simpl in Hf; lia|]. reflexivity.
  - destruct fuel; [simpl in Hf; lia|].
    cbn [sub_go]. rewrite match_at_class. cbn [flat_map].
    destruct (cls_match ic neg items x) eqn:E.
    + cbn [pos rest caps]. replace (at_ <? S at_) with true
        by (symmetry; apply Nat.ltb_lt; lia).
      rewrite IH; [reflexivity | simpl in Hf; lia].
    + rewrite IH; [reflexivity | simpl in Hf; lia].
Qed.

Lemma sub_class (neg : bool) (items : list citem) (ic : bool) (g : nat)
    (repl : list (option str) -> str) (s : str) :
  sub {| pat_re := Cls neg items; pat_icase := ic; pat_groups := g |} repl s =
  flat_map (fun x => if cls_match ic neg items x then repl (repeat None g) else [x]) s.
Proof. unfold sub. apply sub_go_class. lia. Qed.

End Matches.

End ReFacts.

(* ------------------------------------------------------------------ *)
(** * The chain resolver *)
(* ------------------------------------------------------------------ *)

Module ChainFacts.
Import ParseDocx.

Definition arrow_char : N := 8594.

(** The separators of fragments: [,] and [;] and their full-width
    forms. *)
Definition is_sep (x : N) : bool :=
  ((x =? 44) || (x =? 65292) || (x =? 65307) || (x =? 59))%N.

Definition no_arrow (s : str) : Prop := Forall (fun x => x <> arrow_char) s.
Definition no_sep (s : str) : Prop := Forall (fun x => is_sep x = false) s.

Lemma arrow_is : arrow = [arrow_char].
Proof. reflexivity. Qed.

Lemma contains_arrow_false (s : str) : contains arrow s = false <-> no_arrow s.
Proof.
  rewrite arrow_is, PyStrFacts.contains_char. apply PyStrFacts.mem_false_Forall.
Qed.

Section WithUnicode.
Context {UD : Unicode}.

Lemma fragment_sep_class :
  fragment_sep = ReFacts.one_class [Re.CChar 44; Re.CChar 65292; Re.CChar 65307; Re.CChar 59].
Proof. reflexivity. Qed.

Lemma split_fragments (s : str) : Re.split fragment_sep s = split_by is_sep s.
Proof.
  rewrite fragment_sep_class. unfold ReFacts.one_class. rewrite ReFacts.split_class.
  apply PyStrFacts.split_by_ext. intros x.
  unfold Re.cls_match, is_sep. simpl. unfold Re.lit_match.
  destruct (x =? 44)%N, (x =? 65292)%N, (x =? 65307)%N, (x =? 59)%N; reflexivity.
Qed.

Lemma arrow_parts_Forall (P : N -> Prop) (fragment : str) :
  Forall (Forall P) (PyStr.split "→" fragment) ->
  Forall (Forall P) (arrow_parts fragment).
Proof.
  intros H. unfold arrow_parts.
  apply Forall_forall. intros w Hw.
  apply filter_In in Hw as [Hw _].
  apply in_map_iff in Hw as [w0 [<- Hw0]].
  apply PyStrFacts.strip_Forall.
  rewrite Forall_forall in H. auto.
Qed.

(** The branch for a chain of two parts or more. *)
Definition chain_result (parts : list str) : str :=
  match Re.match_ arrow_verb (hd [] parts) with
  | Some verb_match => fmt_group (nth 0 (Re.groups verb_match) None) ++ List.last parts []
  | None => U "點選" ++ List.last parts []
  end.

Lemma chain_result_Forall (P : N -> Prop) (parts : list str) :
  Forall P (U "點選") -> Forall P (U "None") ->
  Forall (Forall P) parts -> 2 <= length parts ->
  Forall P (chain_result parts).
Proof.
  intros Hclick Hnone Hparts Hlen. unfold chain_result.
  assert (Hne : parts <> []) by (destruct parts; simpl in Hlen; [lia | discriminate]).
  assert (Hlast : Forall P (List.last parts [])).
  { rewrite Forall_forall in Hparts. apply Hparts, PyStrFacts.last_In, Hne. }
  assert (Hfirst : Forall P (hd [] parts)).
  { destruct parts; [congruence|]. inversion Hparts; auto. }
  destruct (Re.match_ arrow_verb (hd [] parts)) as [vm|] eqn:E.
  - apply Forall_app. split; auto.
    pose proof (@ReFacts.match_groups_Forall _ P _ _ _ E Hfirst) as Hcaps.
    destruct (nth 0 (Re.groups vm) None) as [v|] eqn:Ev; simpl; auto.
    apply Hcaps. rewrite <- Ev. apply nth_In.
    destruct (Nat.lt_ge_cases 0 (length (Re.groups vm))) as [Hlt|Hge]; auto.
    rewrite nth_overflow in Ev by exact Hge. discriminate.
  - apply Forall_app. split; auto.
Qed.

Lemma resolve_fragment_eq (fragment0 : str) :
  resolve_fragment fragment0 =
  let fragment := strip fragment0 in
  if negb (contains arrow fragment) then fragment
  else if length (arrow_parts fragment) <? 2 then replace "→" [] fragment
       else chain_result (arrow_parts fragment).
Proof. reflexivity. Qed.

Lemma U_click_no_sep : no_sep (U "點選").
Proof. repeat constructor. Qed.

Lemma U_None_no_sep : no_sep (U "None").
Proof. repeat constructor. Qed.

Lemma U_click_no_arrow : no_arrow (U "點選").
Proof. repeat constructor; discriminate. Qed.

Lemma U_None_no_arrow : no_arrow (U "None").
Proof. repeat constructor; discriminate. Qed.

(** A resolved fragment holds no separator when the fragment held
    none. *)
Lemma resolve_fragment_no_sep (fragment : str) :
  no_sep fragment -> no_sep (resolve_fragment fragment).
Proof.
  intros H. rewrite resolve_fragment_eq. cbv zeta.
  assert (Hs : no_sep (strip fragment)) by (apply PyStrFacts.strip_Forall, H).
  destruct (negb (contains arrow (strip fragment))); auto.
  destruct (length (arrow_parts (strip fragment)) <? 2) eqn:E.
  - apply PyStrFacts.replace_drop_Forall, Hs.
  - apply Nat.ltb_ge in E.
    apply chain_result_Forall;
      [apply U_click_no_sep | apply U_None_no_sep | | exact E].
    apply arrow_parts_Forall, PyStrFacts.split_by_Forall, Hs.
Qed.

(** A resolved fragment holds no arrow. *)
Lemma resolve_fragment_no_arrow (fragment : str) :
  no_arrow (resolve_fragment fragment).
Proof.
  rewrite resolve_fragment_eq. cbv zeta.
  destruct (contains arrow (strip fragment)) eqn:Ec; simpl.
  - destruct (length (arrow_parts (strip fragment)) <? 2) eqn:E.
    + exact (PyStrFacts.replace_drop_gone "→" _).
    + apply Nat.ltb_ge in E.
      apply chain_result_Forall;
        [apply U_click_no_arrow | apply U_None_no_arrow | | exact E].
      apply arrow_parts_Forall.
      eapply Forall_impl; [|apply PyStrFacts.split_by_free].
      intros w Hw. eapply Forall_impl; [|exact Hw].
      intros x Hx. cbv beta in Hx. apply N.eqb_neq in Hx.
      intros ->. apply Hx. reflexivity.
  - apply contains_arrow_false, Ec.
Qed.

Lemma resolved_fragments_no_sep (text : str) :
  Forall no_sep (map resolve_fragment (split_by is_sep text)).
Proof.
  apply Forall_forall. intros w Hw.
  apply in_map_iff in Hw as [f [<- Hf]].
  apply resolve_fragment_no_sep.
  pose proof (PyStrFacts.split_by_free is_sep text) as H.
  rewrite Forall_forall in H. apply H, Hf.
Qed.

(** The fragments of the output are the resolved fragments of the
    input, one for one. *)
Lemma resolve_fragments (text : str) :
  contains arrow text = true ->
  Re.split fragment_sep (_resolve_arrow_chains text) =
  map resolve_fragment (Re.split fragment_sep text).
Proof.
  intros Hc. unfold _resolve_arrow_chains. rewrite Hc. simpl negb. cbv iota.
  rewrite !split_fragments.
  change (U "，") with [65292%N].
  apply PyStrFacts.split_by_join.
  - reflexivity.
  - intros H. apply map_eq_nil in H. eapply PyStrFacts.split_by_nonempty; eauto.
  - apply resolved_fragments_no_sep.
Qed.

Lemma join_Forall (P : N -> Prop) (sep : str) (parts : list str) :
  Forall P sep -> Forall (Forall P) parts -> Forall P (join sep parts).
Proof.
  intros Hsep. induction parts as [|w ws IH]; intros H; [constructor|].
  inversion H; subst. destruct ws as [|w' ws']; [exact H2|].
  change (join sep (w :: w' :: ws')) with (w ++ sep ++ join sep (w' :: ws')).
  repeat (apply Forall_app; split); auto.
Qed.

Lemma resolve_no_arrow (text : str) : no_arrow (_resolve_arrow_chains text).
Proof.
  unfold _resolve_arrow_chains.
  destruct (contains arrow text) eqn:Ec; simpl.
  - apply join_Forall; [repeat constructor; discriminate|].
    apply Forall_forall. intros w Hw.
    apply in_map_iff in Hw as [f [<- _]].
    apply resolve_fragment_no_arrow.
  - apply contains_arrow_false, Ec.
Qed.

Lemma resolve_count (text : str) :
  length (Re.split fragment_sep (_resolve_arrow_chains text)) =
  length (Re.split fragment_sep text).
Proof.
  destruct (contains arrow text) eqn:Ec.
  - rewrite resolve_fragments by exact Ec. apply length_map.
  - unfold _resolve_arrow_chains. rewrite Ec. reflexivity.
Qed.

End WithUnicode.

End ChainFacts.

Section InferExamples.
Let UD := latin_cjk.
Existing Instance UD.

Example infer_ex1 :
  ParseDocx.infer_step (U "點選主選單→全宗瀏覽") = inr (mk_target (U "click") (U "全宗瀏覽")).
Proof. vm_compute. reflexivity. Qed.

Example infer_ex2 :
  ParseDocx.infer_step (U "Step 2: Type 'abc' into #q") =
  inr (mk_value (U "fill") (U "#q") (U "abc")).
Proof. vm_compute. reflexivity. Qed.

Example infer_ex3 :
  ParseDocx.infer_step (U "輸入「南方資料館」關鍵字") =
  inr (mk_value (U "fill") ParseDocx._SEARCH_INPUT_SELECTORS (U "南方資料館")).
Proof. vm_compute. reflexivity. Qed.

Example infer_ex4 :
  ParseDocx.infer_step (U "  步驟3.  ") = inr (mk_shot (U "blank_step")).
Proof. vm_compute. reflexivity. Qed.

Example infer_ex5 :
  ParseDocx.infer_step (U "hello, world!") = inr (mk_shot (U "hello__world_")).
Proof. vm_compute. reflexivity. Qed.

Example infer_ex6 :
  ParseDocx.infer_step (U "查看結果") = inr (mk_target (U "goto") (U "/")).
Proof. vm_compute. reflexivity. Qed.

Example infer_ex7 :
  ParseDocx.infer_step (U "wait 500") = inr (mk_target (U "wait") (U "500")).
Proof. vm_compute. reflexivity. Qed.

Example infer_ex8 :
  ParseDocx.infer_step (U "確認搜尋結果顯示") =
  inr (mk_target (U "assert_visible") (U "搜尋結果")).
Proof. vm_compute. reflexivity. Qed.

End InferExamples.

(* ------------------------------------------------------------------ *)
(** * The step inference engine *)
(* ------------------------------------------------------------------ *)

Module InferFacts.
Import ParseDocx.

Section WithUnicode.
Context {UD : Unicode}.

Lemma strip_group_present (groups : list (option str)) (i : nat) (v : str) :
  nth i groups None = Some v -> strip_group groups i = inr (strip v).
Proof.
  intros H. unfold strip_group.
  destruct (nth_error groups i) as [o|] eqn:E.
  - rewrite (nth_error_nth _ _ None E) in H. subst o. reflexivity.
  - apply nth_error_None in E. rewrite nth_overflow in H by exact E. discriminate.
Qed.

(** With its first group present, and its second when it has two,
    [build_step] returns a Step. *)
Lemma build_step_returns (action : str) (groups : list (option str)) (text : str) :
  (exists v, nth 0 groups None = Some v) ->
  (2 <= length groups -> exists v, nth 1 groups None = Some v) ->
  exists step, build_step action groups text = inr step.
Proof.
  intros [v0 H0] H1. unfold build_step.
  rewrite (strip_group_present _ _ H0).
  destruct (2 <=? length groups) eqn:E2.
  - apply Nat.leb_le in E2. destruct (H1 E2) as [v1 Hv1].
    rewrite (strip_group_present _ _ Hv1).
    rewrite !andb_true_r.
    destruct (str_eqb action (U "fill")); [eexists; reflexivity|].
    destruct (str_eqb action (U "fill_search")); [eexists; reflexivity|].
    destruct (str_eqb action (U "select")); [eexists; reflexivity|].
    destruct (str_eqb action (U "wait")); [eexists; reflexivity|].
    destruct (str_eqb action (U "scroll")); [eexists; reflexivity|].
    destruct groups; eexists; reflexivity.
  - rewrite !andb_false_r.
    destruct (str_eqb action (U "fill_search")); [eexists; reflexivity|].
    destruct (str_eqb action (U "wait")); [eexists; reflexivity|].
    destruct (str_eqb action (U "scroll")); [eexists; reflexivity|].
    destruct groups; eexists; reflexivity.
Qed.

(** A pattern whose first group, and second if there is one, lies on
    every path. *)
Definition groups_sure (p : Re.pattern) : bool :=
  (0 <? Re.pat_groups p) && ReFacts.sets (Re.pat_re p) 0
  && ((Re.pat_groups p <? 2) || ReFacts.sets (Re.pat_re p) 1).

Lemma step_patterns_sure :
  forallb (fun pa => groups_sure (fst pa)) _STEP_ACTION_PATTERNS = true.
Proof. vm_compute. reflexivity. Qed.

Lemma first_pass_returns (pats : list (Re.pattern * str)) (text : str) (r : res Step) :
  forallb (fun pa => groups_sure (fst pa)) pats = true ->
  first_pass pats text = Some r -> exists step, r = inr step.
Proof.
  induction pats as [|[p a] pats IH]; simpl; intros Hs H; [discriminate|].
  apply andb_true_iff in Hs as [Hp Hs].
  destruct (Re.match_ p text) as [mt|] eqn:E; [|auto].
  inversion H; subst r; clear H.
  unfold groups_sure in Hp.
  apply andb_true_iff in Hp as [Hp H1]. apply andb_true_iff in Hp as [Hg H0].
  apply Nat.ltb_lt in Hg.
  apply build_step_returns.
  - eapply ReFacts.match_group; eauto.
  - intros Hlen. rewrite (ReFacts.match_groups_length _ _ E) in Hlen.
    apply orb_true_iff in H1 as [H1|H1].
    + apply Nat.ltb_lt in H1. lia.
    + eapply ReFacts.match_group; eauto.
Qed.

(** *** Totality *)

Lemma infer_step_returns (raw : str) : exists step, infer_step raw = inr step.
Proof.
  unfold infer_step.
  destruct (negb (nonempty (unmarked raw))); [eexists; reflexivity|].
  destruct (first_pass _STEP_ACTION_PATTERNS (resolved (unmarked raw))) as [r|] eqn:E.
  - eapply first_pass_returns; eauto. apply step_patterns_sure.
  - destruct (second_pass (resolved (unmarked raw))); eexists; reflexivity.
Qed.

(** *** The blank step *)

Lemma infer_step_blank (raw : str) :
  unmarked raw = [] -> infer_step raw = inr (mk_shot (U "blank_step")).
Proof. intros H. unfold infer_step. rewrite H. reflexivity. Qed.

Lemma unmarked_nil : unmarked [] = [].
Proof. reflexivity. Qed.

Lemma unmarked_space (raw : str) : forallb isspace raw = true -> unmarked raw = [].
Proof.
  intros H. unfold unmarked. rewrite (PyStrFacts.strip_all_space _ H).
  reflexivity.
Qed.

(** *** The fallback *)

Definition is_word (x : N) : bool := uni_isalnum x || (x =? 95)%N.

Lemma non_word_class :
  non_word = {| Re.pat_re := Re.Cls true [Re.CWord]; Re.pat_icase := false; Re.pat_groups := 0 |}.
Proof. reflexivity. Qed.

Lemma sanitized_eq (text : str) :
  sanitized text = map (fun x => if is_word x then x else 95%N) (firstn 40 text).
Proof.
  unfold sanitized. rewrite non_word_class, ReFacts.sub_class.
  induction (firstn 40 text) as [|x l IH]; [reflexivity|].
  cbn [flat_map map]. rewrite IH.
  unfold Re.cls_match, is_word. cbn [existsb Re.item_match].
  rewrite orb_false_r.
  destruct (uni_isalnum x || (x =? 95)%N); reflexivity.
Qed.

Lemma sanitized_length (text : str) : length (sanitized text) <= 40.
Proof.
  rewrite sanitized_eq, length_map. apply firstn_le_length.
Qed.

Lemma sanitized_word (text : str) : forallb is_word (sanitized text) = true.
Proof.
  rewrite sanitized_eq. induction (firstn 40 text) as [|x l IH]; simpl; auto.
  rewrite IH, andb_true_r.
  destruct (is_word x) eqn:E; [exact E|].
  unfold is_word. rewrite N.eqb_refl. apply orb_true_r.
Qed.

Lemma infer_step_fallback (raw : str) :
  unmarked raw <> [] ->
  first_pass _STEP_ACTION_PATTERNS (resolved (unmarked raw)) = None ->
  second_pass (resolved (unmarked raw)) = None ->
  infer_step raw = inr (mk_shot (sanitized (resolved (unmarked raw)))).
Proof.
  intros Hne H1 H2. unfold infer_step.
  destruct (unmarked raw) eqn:E; [congruence|].
  simpl negb. cbv iota. rewrite H1, H2. reflexivity.
Qed.

End WithUnicode.

End InferFacts.

Section ExtractExamples.
Let UD := latin_cjk.
Existing Instance UD.

Definition nl : str := [10%N].

(** A document with a pipe table and, after it, a grid table. *)
Definition md_both : str :=
  U "| ID | Name | Steps | Expected |" ++ nl ++
  U "|----|------|-------|----------|" ++ nl ++
  U "| T1 | Login | go to /login; click #submit | ok |" ++ nl ++
  nl ++
  U "+---+------+-----------+" ++ nl ++
  U "| 1 | 首頁 | 點選主選單→全宗瀏覽 |" ++ nl ++
  U "+---+------+-----------+" ++ nl.

(** A document with only the grid table. *)
Definition md_grid : str :=
  U "+---+------+-----------+" ++ nl ++
  U "| 1 | 首頁 | 點選主選單→全宗瀏覽 |" ++ nl ++
  U "+---+------+-----------+" ++ nl.

Definition md_sections : str :=
  U "# TC-7: 測試 login" ++ nl ++
  U "1. go to /login" ++ nl ++
  U "2. click #submit" ++ nl ++
  U "- expected: welcome" ++ nl.

Example table_ex :
  ParseDocx._parse_table_cases (splitlines md_both) =
  inr [mk_case (U "T1") (U "Login") []
         [mk_target (U "goto") (U "/login"); mk_target (U "click") (U "#submit")]
         (U "ok")].
Proof. vm_compute. reflexivity. Qed.

Example grid_ex :
  ParseDocx._parse_grid_table_cases md_grid =
  inr [mk_case (U "TC-001") (U "首頁") (U "點選主選單→全宗瀏覽")
         [mk_target (U "goto") (U "/"); mk_target (U "click") (U "全宗瀏覽");
          mk_shot (U "TC-001_final")]
         []].
Proof. vm_compute. reflexivity. Qed.

Example grid_of_both_ex :
  ParseDocx._parse_grid_table_cases md_both = ParseDocx._parse_grid_table_cases md_grid.
Proof. vm_compute. reflexivity. Qed.

Example section_ex :
  ParseDocx.section_cases (splitlines md_sections)
    {| ParseDocx.title := []; ParseDocx.base_url := []; ParseDocx.environment := [];
       ParseDocx.tested_by := []; ParseDocx.date := [] |} =
  inr [mk_case (U "TC-007") (U "測試 login") []
         [mk_target (U "goto") (U "/login"); mk_target (U "click") (U "#submit")]
         (U "welcome")].
Proof. vm_compute. reflexivity. Qed.

Example exploratory_ex :
  option_map ParseDocx.test_cases
    (match ParseDocx.parse_markdown_to_cases (U "2026-01-01") (U "URL: https://x.test/ nothing here") [] with
     | inr p => Some p
     | inl _ => None
     end) =
  Some [mk_case (U "TC-001") (U "Exploratory Test")
          (U "Parsed from unstructured Word document — please edit steps manually")
          [mk_target (U "goto") (U "https://x.test/"); mk_shot (U "home")]
          (U "Page loads without errors")].
Proof. vm_compute. reflexivity. Qed.

End ExtractExamples.

(* ------------------------------------------------------------------ *)
(** * run_tests.py *)
(* ------------------------------------------------------------------ *)

Module RunTests.

(** ** The browser

    Every call the script makes to Playwright is an event.  The
    environment answers an event from the state of the world, changes
    the world, and either returns a value or raises.  A computation
    also keeps the log of the events it has issued. *)

Inductive call : Type -> Type :=
| Launch (headed : bool) : call unit
| Shutdown : call unit
| NewPage (record_video : bool) : call unit
| ClosePage : call unit
| SaveVideo (tc_id : str) : call (option str)
| Goto (url : str) : call unit
| WaitForLoadState (state : str) (timeout : N) : call unit
| ClickFirst (selector : str) (timeout : N) : call unit
| Count (selector : str) : call nat
| ClickNth (selector : str) (i : nat) (timeout : N) : call unit
| WaitForVisible (selector : str) (timeout : N) : call unit
| FillFirst (selector value : str) (timeout : N) : call unit
| SelectOption (selector value : str) (timeout : N) : call unit
| Hover (selector : str) (timeout : N) : call unit
| WaitForTimeout (ms : N) : call unit
| Evaluate (script : str) : call unit
| Screenshot (file : str) : call unit
| InnerText (selector : str) (timeout : N) : call str
| Url : call str
| Title : call str.

Inductive event : Type :=
| Event (A : Type) (c : call A).

Class Env (W : Type) : Type := {
  (** the answer of the browser to a call *)
  answer : forall A, call A -> W -> W * res A;
  (** [traceback.format_exc()] for the exception being handled *)
  format_exc : exn -> str
}.

Record St (W : Type) : Type := {
  world : W;
  log : list event
}.

(** A computation over the browser: state passing with exceptions. *)
Definition M (W A : Type) : Type := St W -> St W * res A.

Definition mret {W A : Type} (a : A) : M W A := fun s => (s, inr a).

Definition mbind {W A B : Type} (c : M W A) (k : A -> M W B) : M W B :=
  fun s =>
    match c s with
    | (s', inr a) => k a s'
    | (s', inl e) => (s', inl e)
    end.

Definition raise {W A : Type} (e : exn) : M W A := fun s => (s, inl e).

(** [try: c  except Exception as e: h e] *)
Definition try_ {W A : Type} (c : M W A) (h : exn -> M W A) : M W A :=
  fun s =>
    match c s with
    | (s', inl e) => h e s'
    | r => r
    end.

Definition lift {W A : Type} (r : res A) : M W A := fun s => (s, r).

Definition do_ {W : Type} {E : Env W} {A : Type} (c : call A) : M W A :=
  fun s =>
    let '(w', r) := answer c (world s) in
    ({| world := w'; log := log s ++ [Event c] |}, r).

Declare Scope m_scope.
Delimit Scope m_scope with M.
Notation "x <- c ;; k" := (mbind c (fun x => k))
  (at level 61, c at next level, right associativity) : m_scope.
Notation "c ;; k" := (mbind c (fun _ => k))
  (at level 61, right associativity) : m_scope.

(** ** The action executor *)


Definition NAVIGATION_TIMEOUT_MS : N := 15000.
Definition INTERACTION_TIMEOUT_MS : N := 10000.
Definition POST_ACTION_TIMEOUT_MS : N := 8000.
Definition RETRY_TIMEOUT_MS : N := 3000.
Definition FILL_PROBE_TIMEOUT_MS : N := 1500.

Definition _HTML_TAGS : list str :=
  map U ["body"; "html"; "head"; "main"; "header"; "footer"; "nav";
         "section"; "article"; "div"; "span"; "a"; "p"; "ul"; "li";
         "form"; "input"; "button"; "select"; "textarea"; "table";
         "tr"; "td"; "th"; "h1"; "h2"; "h3"; "h4"; "h5"; "h6"; "img"]%string.

Definition css_chars := Re.compile "[#\[\].:>+~()]".

Definition locator_prefixes : list str :=
  map U ["text="; "role="; "css="; "#"; "."; "["; "//"; "xpath="]%string.

(** The outcome of one Step. *)
Record StepResult : Type := {
  sr_index : nat;
  sr_action : str;
  sr_target : str;
  sr_value : str;
  sr_status : str;
  sr_screenshot : option str;
  sr_error : option str
}.

(** [Path(f).name]: the last component of a file name. *)
Definition path_name (f : str) : str := List.last (PyStr.split "/" f) [].

(** [f"{tc_id}_step_{step_idx:02d}_"] *)
Definition step_prefix (tc_id : str) (step_idx : nat) : str :=
  tc_id ++ U "_step_" ++ fmt_0d 2 (N.of_nat step_idx) ++ U "_".

Definition step_file (tc_id : str) (step_idx : nat) (action : str) : str :=
  step_prefix tc_id step_idx ++ action ++ U ".png".

Definition fail_file (tc_id : str) (step_idx : nat) : str :=
  step_prefix tc_id step_idx ++ U "FAIL" ++ U ".png".

Section WithEnv.
Context {W : Type} {E : Env W} {UD : Unicode}.

Definition _selector_or_text (target : str) : str :=
  if existsb (fun p => startswith p target) locator_prefixes
  then removeprefix (U "css=") target
  else if str_in (lower target) _HTML_TAGS then target
  else if Re.found css_chars target then target
  else U "text=" ++ target.

(** [for i in range(1, min(count, 5))]: the later matches, until one
    can be clicked. *)
Fixpoint probe (selector : str) (indices : list nat) : M W bool :=
  match indices with
  | [] => mret false
  | i :: indices' =>
    try_ (do_ (ClickNth selector i 3000) ;; mret true)%M
         (fun _ => probe selector indices')
  end.

(** [for sel in selectors]: the candidates, until one is visible and
    filled. *)
Fixpoint fill_any (selectors : list str) (value : str) : M W bool :=
  match selectors with
  | [] => mret false
  | sel :: selectors' =>
    try_ (do_ (WaitForVisible sel 1500) ;; do_ (FillFirst sel value 5000) ;; mret true)%M
         (fun _ => fill_any selectors' value)
  end.

(** [int(target) if str(target).isdigit() else default] *)
Definition number_or (target : str) (default : N) : M W N :=
  if isdigit target then
    match int target with
    | Some n => mret n
    | None => raise (ValueError target)
    end
  else mret default.

Definition is_action (action : str) (a : string) : bool := str_eqb action (U a).

(** The chain of [if action == ...] inside the [try].  The result is
    the screenshot to record when the branch returns at once (only
    [screenshot] does). *)
Definition act (action target value name : str) : M W (option str) :=
  (if is_action action "goto" then
     do_ (Goto (if startswith (U "http") target then target else target)) ;;
     do_ (WaitForLoadState (U "networkidle") 15000) ;;
     mret None
   else if is_action action "click" then
     let locator := _selector_or_text target in
     try_ (do_ (ClickFirst locator 10000))
          (fun e =>
             count <- do_ (Count locator) ;;
             clicked <- probe locator (seq 1 (Nat.min count 5 - 1)) ;;
             if clicked then mret tt else raise e) ;;
     do_ (WaitForLoadState (U "networkidle") 8000) ;;
     mret None
   else if is_action action "fill" then
     filled <- fill_any (map strip (PyStr.split "," target)) value ;;
     (if filled then mret tt
      else do_ (FillFirst (_selector_or_text target) value 10000)) ;;
     mret None
   else if is_action action "select" then
     do_ (SelectOption (_selector_or_text target) value 10000) ;;
     mret None
   else if is_action action "hover" then
     do_ (Hover (_selector_or_text target) 10000) ;;
     mret None
   else if is_action action "wait" then
     ms <- number_or target 1000 ;;
     do_ (WaitForTimeout ms) ;;
     mret None
   else if is_action action "scroll" then
     px <- number_or target 500 ;;
     do_ (Evaluate (U "window.scrollBy(0, " ++ str_of_N px ++ U ")")) ;;
     do_ (WaitForTimeout 500) ;;
     mret None
   else if is_action action "screenshot" then
     do_ (Screenshot (name ++ U ".png")) ;;
     mret (Some (path_name (name ++ U ".png")))
   else if is_action action "assert_visible" then
     do_ (WaitForVisible (_selector_or_text target) 10000) ;;
     mret None
   else if is_action action "assert_text" then
     actual <- do_ (InnerText (_selector_or_text target) 10000) ;;
     (if contains (lower value) (lower actual) then mret tt
      else raise (AssertionError
                    (U "Expected '" ++ value ++ U "' in '" ++ actual ++ U "'"))) ;;
     mret None
   else if is_action action "assert_url" then
     current <- do_ Url ;;
     (if contains target current then mret tt
      else raise (AssertionError
                    (U "Expected URL to contain '" ++ target ++ U "', got '"
                     ++ current ++ U "'"))) ;;
     mret None
   else if is_action action "assert_title" then
     current <- do_ Title ;;
     (if contains (lower target) (lower current) then mret tt
      else raise (AssertionError
                    (U "Expected title to contain '" ++ target ++ U "', got '"
                     ++ current ++ U "'"))) ;;
     mret None
   else mret None)%M.

(** The body of the [try]: the action, then the screenshot taken after
    every action that did not return at once.  The result is the
    screenshot recorded. *)
Definition attempt (tc_id : str) (step_idx : nat) (action target value name : str)
  : M W str :=
  (early <- act action target value name ;;
   match early with
   | Some shot => mret shot
   | None =>
     let screenshot_path := step_file tc_id step_idx action in
     do_ (Screenshot screenshot_path) ;;
     mret (path_name screenshot_path)
   end)%M.

(** The [except Exception as e] of [execute_step]: the failure
    screenshot, whose own failure is passed over. *)
Definition rescue (tc_id : str) (step_idx : nat) : M W (option str) :=
  let fail_path := fail_file tc_id step_idx in
  try_ (do_ (Screenshot fail_path) ;; mret (Some (path_name fail_path)))%M
       (fun _ => mret None).

Definition execute_step (step : Step) (tc_id : str) (step_idx : nat) : M W StepResult :=
  let action := get (action step) [] in
  let target := get (target step) [] in
  let value := get (value step) [] in
  let name := get (name step) (step_prefix tc_id step_idx ++ action) in
  let result status screenshot error :=
    {| sr_index := step_idx; sr_action := action; sr_target := target;
       sr_value := value; sr_status := status; sr_screenshot := screenshot;
       sr_error := error |} in
  try_ (shot <- attempt tc_id step_idx action target value name ;;
        mret (result (U "passed") (Some shot) None))%M
       (fun e =>
          (shot <- rescue tc_id step_idx ;;
           mret (result (U "failed") shot (Some (exn_msg e))))%M).

(** ** The case runner *)

(** The outcome of one test case. *)
Record TestCaseResult : Type := {
  r_id : str;
  r_name : str;
  r_status : str;
  r_steps : list StepResult;
  r_video : option str;
  r_error : option str
}.

(** [s.get("action") == a] *)
Definition action_is (s : Step) (a : string) : bool :=
  match action s with
  | Some x => str_eqb x (U a)
  | None => false
  end.

Definition with_target (s : Step) (t : str) : Step :=
  {| action := action s; target := Some t; value := value s; name := name s |}.

(** The body of the loop that resolves the targets of [goto] Steps. *)
Definition resolve_step (base_url : str) (s : Step) : res Step :=
  if action_is s "goto" then
    (let* t := item "target" (target s) in
     if startswith (U "http") t then ret s
     else if startswith (U "/") t then
       ret (with_target s (rstrip_chars (U "/") base_url ++ U "/" ++ lstrip_chars (U "/") t))
     else ret (with_target s (rstrip_chars (U "/") base_url ++ U "/")))%res
  else ret s.

Fixpoint resolve_all (base_url : str) (steps : list Step) : res (list Step) :=
  match steps with
  | [] => ret []
  | s :: steps' =>
    (let* s2 := resolve_step base_url s in
     let* rest := resolve_all base_url steps' in
     ret (s2 :: rest))%res
  end.

Definition resolve_steps (base_url : str) (steps : list Step) : res (list Step) :=
  let has_goto := existsb (fun s => action_is s "goto") steps in
  (let* resolved := resolve_all base_url steps in
   if negb has_goto && ParseDocx.nonempty base_url
   then ret ({| action := Some (U "goto"); target := Some base_url;
                value := None; name := None |} :: resolved)
   else ret resolved)%res.

(** The actions passed over after an interaction has failed, and the
    actions whose failure starts the passing over. *)
Definition skipped_actions : list str :=
  map U ["click"; "fill"; "select"; "hover";
         "assert_visible"; "assert_text"; "assert_url"; "assert_title"]%string.

Definition halting_actions : list str :=
  map U ["click"; "fill"; "select"; "hover"]%string.

Definition skipped_result (idx : nat) (step : Step) : StepResult :=
  {| sr_index := idx; sr_action := get (action step) [];
     sr_target := get (target step) []; sr_value := get (value step) [];
     sr_status := U "skipped"; sr_screenshot := None;
     sr_error := Some (U "Skipped: prior step failed") |}.

(** The variables of the loop over the Steps. *)
Record Run : Type := {
  step_results : list StepResult;
  tc_status : str;
  tc_error : option str;
  interaction_failed : bool
}.

(** [not tc_error] *)
Definition falsy (o : option str) : bool :=
  match o with
  | Some (_ :: _) => false
  | _ => true
  end.

Definition record_result (action : str) (r : StepResult) (run : Run) : Run :=
  if str_eqb (sr_status r) (U "failed") then
    {| step_results := step_results run ++ [r];
       tc_status := U "failed";
       tc_error := if falsy (tc_error run) then sr_error r else tc_error run;
       interaction_failed := interaction_failed run || str_in action halting_actions |}
  else
    {| step_results := step_results run ++ [r];
       tc_status := tc_status run;
       tc_error := tc_error run;
       interaction_failed := interaction_failed run |}.

Definition skip_result (idx : nat) (step : Step) (run : Run) : Run :=
  {| step_results := step_results run ++ [skipped_result idx step];
     tc_status := tc_status run;
     tc_error := tc_error run;
     interaction_failed := interaction_failed run |}.

(** One turn of the loop. *)
Definition run_step (tc_id : str) (idx : nat) (step : Step) (run : Run) : M W Run :=
  let action_ := get (action step) [] in
  if interaction_failed run && str_in action_ skipped_actions
  then mret (skip_result idx step run)
  else
    (_ <- lift (item "action" (action step)) ;;
     r <- execute_step step tc_id idx ;;
     mret (record_result action_ r run))%M.

(** The loop, with the exception that ended it, if one did: the loop
    variables keep what they held when it was raised. *)
Fixpoint run_steps (tc_id : str) (idx : nat) (steps : list Step) (run : Run)
  : St W -> St W * (Run * option exn) :=
  fun s =>
    match steps with
    | [] => (s, (run, None))
    | step :: steps' =>
      match run_step tc_id idx step run s with
      | (s', inr run') => run_steps tc_id (S idx) steps' run' s'
      | (s', inl e) => (s', (run, Some e))
      end
    end.

Definition start_run : Run :=
  {| step_results := []; tc_status := U "passed"; tc_error := None;
     interaction_failed := false |}.

(** The [except Exception] around the loop. *)
Definition after_loop (out : Run * option exn) : Run :=
  match out with
  | (run, None) => run
  | (run, Some e) =>
    {| step_results := step_results run;
       tc_status := U "failed";
       tc_error := if falsy (tc_error run) then Some (format_exc e) else tc_error run;
       interaction_failed := interaction_failed run |}
  end.

Definition run_test_case (tc : TestCase) (base_url : str) (record_video : bool)
  : M W TestCaseResult :=
  let tc_id_ := get (tc_id tc) (U "TC-???") in
  (nm <- lift (item "name" (tc_name tc)) ;;
   do_ (NewPage record_video) ;;
   resolved_steps <- lift (resolve_steps base_url
                             (match tc_steps tc with Some l => l | None => [] end)) ;;
   run <- (fun s => let '(s', out) := run_steps tc_id_ 0 resolved_steps start_run s in
                    (s', inr (after_loop out))) ;;
   do_ ClosePage ;;
   video_file <- (if record_video then do_ (SaveVideo tc_id_) else mret None) ;;
   mret {| r_id := tc_id_; r_name := nm; r_status := tc_status run;
           r_steps := step_results run; r_video := video_file;
           r_error := tc_error run |})%M.

(** ** The main runner *)

Record Summary : Type := {
  total : nat;
  passed : nat;
  failed : nat;
  skipped : nat
}.

Record Results : Type := {
  summary : Summary;
  test_cases : list TestCaseResult
}.

(** What [main] leaves: [results.json], if it got to write it, and the
    exit code. *)
Record Outcome : Type := {
  written : option Results;
  exit_code : nat
}.

Fixpoint run_all (cases : list TestCase) (base_url : str) (video : bool)
  : M W (list TestCaseResult) :=
  match cases with
  | [] => mret []
  | tc :: cases' =>
    (result <- run_test_case tc base_url video ;;
     rest <- run_all cases' base_url video ;;
     mret (result :: rest))%M
  end.

(** [sum(1 for r in all_results if r["status"] == status)] *)
Definition count_status (status : string) (all_results : list TestCaseResult) : nat :=
  length (filter (fun r => str_eqb (r_status r) (U status)) all_results).

Definition summarize (all_results : list TestCaseResult) : Summary :=
  {| total := length all_results;
     passed := count_status "passed" all_results;
     failed := count_status "failed" all_results;
     skipped := count_status "skipped" all_results |}.

(** [[tc for tc in test_cases if tc.get("id") == wanted]] *)
Definition select_cases (wanted : str) (cases : list TestCase) : list TestCase :=
  filter (fun tc => match tc_id tc with
                    | Some i => str_eqb i wanted
                    | None => false
                    end) cases.

(** The cases to run: all of them without [--filter], those of the
    given id with it. *)
Definition cases_to_run (filter_arg : option str) (cases : list TestCase)
  : list TestCase :=
  match filter_arg with
  | Some (c :: f) => select_cases (c :: f) cases
  | _ => cases
  end.

(** [main], from the loaded payload on: [meta_base_url] is
    [meta.get("base_url")], [cases] is [payload.get("test_cases", [])]. *)
Definition main (filter_arg : option str) (arg_base_url : str) (headed video : bool)
    (meta_base_url : option str) (cases : list TestCase) : M W Outcome :=
  let selected := cases_to_run filter_arg cases in
  match filter_arg, selected with
  | Some (_ :: _), [] => mret {| written := None; exit_code := 1 |}
  | _, _ =>
    let base_url := ParseDocx.or_else arg_base_url (get meta_base_url []) in
    (do_ (Launch headed) ;;
     all_results <- run_all selected base_url video ;;
     do_ Shutdown ;;
     let s := summarize all_results in
     mret {| written := Some {| summary := s; test_cases := all_results |};
             exit_code := if 0 <? failed s then 1 else 0 |})%M
  end.

End WithEnv.

End RunTests.

(* ------------------------------------------------------------------ *)
(** * A scripted browser *)
(* ------------------------------------------------------------------ *)

(** A browser for examples: the world is the number of calls answered
    so far; a call raises when the script says so and otherwise
    returns at once, with fixed answers to the queries. *)

Module Scripted.
Import RunTests.

Record script : Type := {
  raises : event -> bool;
  page_url : str;
  page_title : str;
  page_text : str;
  matches : nat
}.

Definition boom : exn := Raise "TimeoutError" (U "Timeout 10000ms exceeded.").

Definition reply (sc : script) (A : Type) (c : call A) : res A :=
  if raises sc (Event c) then inl boom
  else
    match c in call T return res T with
    | Launch _ => inr tt
    | Shutdown => inr tt
    | NewPage _ => inr tt
    | ClosePage => inr tt
    | SaveVideo tc_id => inr (Some (tc_id ++ U ".webm"))
    | Goto _ => inr tt
    | WaitForLoadState _ _ => inr tt
    | ClickFirst _ _ => inr tt
    | Count _ => inr (matches sc)
    | ClickNth _ _ _ => inr tt
    | WaitForVisible _ _ => inr tt
    | FillFirst _ _ _ => inr tt
    | SelectOption _ _ _ => inr tt
    | Hover _ _ => inr tt
    | WaitForTimeout _ => inr tt
    | Evaluate _ => inr tt
    | Screenshot _ => inr tt
    | InnerText _ _ => inr (page_text sc)
    | Url => inr (page_url sc)
    | Title => inr (page_title sc)
    end.

Definition env (sc : script) : Env nat := {|
  answer := fun A c w => (S w, reply sc c);
  format_exc := fun e => U "Traceback (most recent call last): " ++ exn_msg e
|}.

Definition init : St nat := {| world := 0; log := [] |}.

(** Every call returns. *)
Definition calm : script := {|
  raises := fun _ => false;
  page_url := U "https://x.test/login";
  page_title := U "Login";
  page_text := U "Welcome";
  matches := 1
|}.

(** Every click raises. *)
Definition no_click : script := {|
  raises := fun e =>
    match e with
    | Event (ClickFirst _ _) => true
    | Event (ClickNth _ _ _) => true
    | _ => false
    end;
  page_url := U "https://x.test/login";
  page_title := U "Login";
  page_text := U "Welcome";
  matches := 3
|}.

(** Every screenshot raises. *)
Definition no_camera : script := {|
  raises := fun e =>
    match e with
    | Event (Screenshot _) => true
    | _ => false
    end;
  page_url := U "https://x.test/login";
  page_title := U "Login";
  page_text := U "Welcome";
  matches := 1
|}.

Definition statuses (r : TestCaseResult) : list str := map sr_status (r_steps r).

End Scripted.

Section RunExamples.
Import RunTests Scripted.
Let UD := latin_cjk.
Existing Instance UD.

Definition five_steps : list Step := [
  mk_target (U "goto") (U "/login");
  mk_target (U "click") (U "#submit");
  mk_value (U "fill") (U "#q, #search") (U "abc");
  mk_target (U "assert_visible") (U "Welcome");
  mk_shot (U "end")
].

Definition five_case : TestCase :=
  mk_case (U "TC-001") (U "Login") [] five_steps [].

Example exec_goto_ex :
  @execute_step nat (env calm) UD (mk_target (U "goto") (U "/login")) (U "TC-001") 0 init =
  ({| world := 3;
      log := [Event (Goto (U "/login"));
              Event (WaitForLoadState (U "networkidle") 15000);
              Event (Screenshot (U "TC-001_step_00_goto.png"))] |},
   inr {| sr_index := 0; sr_action := U "goto"; sr_target := U "/login"; sr_value := [];
          sr_status := U "passed";
          sr_screenshot := Some (U "TC-001_step_00_goto.png"); sr_error := None |}).
Proof. vm_compute. reflexivity. Qed.

Example exec_click_ex :
  @execute_step nat (env no_click) UD (mk_target (U "click") (U "Submit")) (U "TC-001") 1 init =
  ({| world := 5;
      log := [Event (ClickFirst (U "text=Submit") 10000);
              Event (Count (U "text=Submit"));
              Event (ClickNth (U "text=Submit") 1 3000);
              Event (ClickNth (U "text=Submit") 2 3000);
              Event (Screenshot (U "TC-001_step_01_FAIL.png"))] |},
   inr {| sr_index := 1; sr_action := U "click"; sr_target := U "Submit"; sr_value := [];
          sr_status := U "failed";
          sr_screenshot := Some (U "TC-001_step_01_FAIL.png");
          sr_error := Some (U "Timeout 10000ms exceeded.") |}).
Proof. vm_compute. reflexivity. Qed.

Example run_five_calm :
  option_map statuses
    (match snd (@run_test_case nat (env calm) UD five_case (U "https://x.test/") false init) with
     | inr r => Some r
     | inl _ => None
     end) =
  Some (map U ["passed"; "passed"; "passed"; "passed"; "passed"]%string).
Proof. vm_compute. reflexivity. Qed.

Example run_five_no_click :
  option_map statuses
    (match snd (@run_test_case nat (env no_click) UD five_case (U "https://x.test/") false init) with
     | inr r => Some r
     | inl _ => None
     end) =
  Some (map U ["passed"; "failed"; "skipped"; "skipped"; "passed"]%string).
Proof. vm_compute. reflexivity. Qed.

Example run_five_log :
  log (fst (@run_test_case nat (env no_click) UD five_case (U "https://x.test/") false init)) =
  [Event (NewPage false);
   Event (Goto (U "https://x.test/login"));
   Event (WaitForLoadState (U "networkidle") 15000);
   Event (Screenshot (U "TC-001_step_00_goto.png"));
   Event (ClickFirst (U "#submit") 10000);
   Event (Count (U "#submit"));
   Event (ClickNth (U "#submit") 1 3000);
   Event (ClickNth (U "#submit") 2 3000);
   Event (Screenshot (U "TC-001_step_01_FAIL.png"));
   Event (Screenshot (U "end.png"));
   Event ClosePage].
Proof. vm_compute. reflexivity. Qed.

End RunExamples.

(* ------------------------------------------------------------------ *)
(** * The action executor never raises *)
(* ------------------------------------------------------------------ *)

Module ExecFacts.
Import RunTests.

(** The thirteen actions of a canonical Step. *)
Definition known_actions : list str :=
  map U ["goto"; "click"; "fill"; "select"; "hover"; "wait"; "scroll"; "screenshot";
         "assert_visible"; "assert_text"; "assert_url"; "assert_title"; "unknown"]%string.

(** The file of the failure screenshot is not the file of the
    screenshot taken after a successful action. *)
Lemma fail_file_distinct (tc_id : str) (step_idx : nat) (a : str) :
  In a known_actions -> fail_file tc_id step_idx <> step_file tc_id step_idx a.
Proof.
  intros Hin Heq. unfold fail_file, step_file in Heq.
  apply app_inv_head in Heq.
  unfold known_actions in Hin. simpl in Hin.
  repeat (destruct Hin as [<-|Hin]; [vm_compute in Heq; discriminate|]).
  contradiction.
Qed.

Section WithEnv.
Context {W : Type} {E : Env W} {UD : Unicode}.

(** The values [execute_step] reads from the Step. *)
Definition action_of (step : Step) : str := get (action step) [].
Definition target_of (step : Step) : str := get (target step) [].
Definition value_of (step : Step) : str := get (value step) [].
Definition name_of (step : Step) (tc_id : str) (step_idx : nat) : str :=
  get (name step) (step_prefix tc_id step_idx ++ action_of step).

(** The [try] block of [execute_step] for a Step. *)
Definition attempt_of (step : Step) (tc_id : str) (step_idx : nat) : M W str :=
  attempt tc_id step_idx (action_of step) (target_of step) (value_of step)
          (name_of step tc_id step_idx).

Definition result_of (step : Step) (step_idx : nat) (status : str)
    (screenshot error : option str) : StepResult :=
  {| sr_index := step_idx; sr_action := action_of step; sr_target := target_of step;
     sr_value := value_of step; sr_status := status; sr_screenshot := screenshot;
     sr_error := error |}.

(** The failure screenshot is attempted, and whether it is captured or
    raises, the handler returns. *)
Lemma rescue_returns (tc_id : str) (step_idx : nat) (s : St W) :
  exists s' shot,
    rescue tc_id step_idx s = (s', inr shot) /\
    log s' = log s ++ [Event (Screenshot (fail_file tc_id step_idx))] /\
    match snd (answer (Screenshot (fail_file tc_id step_idx)) (world s)) with
    | inr _ => shot = Some (path_name (fail_file tc_id step_idx))
    | inl _ => shot = None
    end.
Proof.
  unfold rescue, try_, mbind, do_, mret.
  destruct (answer (Screenshot (fail_file tc_id step_idx)) (world s)) as [w' [e|[]]]; simpl;
    eexists; eexists; repeat split; reflexivity.
Qed.

Lemma execute_step_passed (step : Step) (tc_id : str) (step_idx : nat)
    (s s1 : St W) (shot : str) :
  attempt_of step tc_id step_idx s = (s1, inr shot) ->
  execute_step step tc_id step_idx s =
  (s1, inr (result_of step step_idx (U "passed") (Some shot) None)).
Proof.
  intros H. unfold execute_step, try_, mbind. cbv zeta.
  unfold attempt_of, name_of, action_of, target_of, value_of in H.
  rewrite H. reflexivity.
Qed.

Lemma execute_step_failed (step : Step) (tc_id : str) (step_idx : nat)
    (s s1 : St W) (e : exn) :
  attempt_of step tc_id step_idx s = (s1, inl e) ->
  exists s' shot,
    rescue tc_id step_idx s1 = (s', inr shot) /\
    execute_step step tc_id step_idx s =
    (s', inr (result_of step step_idx (U "failed") shot (Some (exn_msg e)))).
Proof.
  intros H.
  destruct (rescue_returns tc_id step_idx s1) as [s' [shot [Hr _]]].
  exists s', shot. split; [exact Hr|].
  unfold execute_step, try_ at 1, mbind. cbv zeta.
  unfold attempt_of, name_of, action_of, target_of, value_of in H.
  rewrite H. rewrite Hr. reflexivity.
Qed.

(** [execute_step] returns a result for every Step, in every state of
    the browser. *)
Lemma execute_step_returns (step : Step) (tc_id : str) (step_idx : nat) (s : St W) :
  exists s' r, execute_step step tc_id step_idx s = (s', inr r).
Proof.
  destruct (attempt_of step tc_id step_idx s) as [s1 [e|shot]] eqn:Ha.
  - destruct (execute_step_failed _ _ _ _ Ha) as [s' [sh [_ Hx]]]. eauto.
  - rewrite (execute_step_passed _ _ _ _ Ha). eauto.
Qed.

(** What the result echoes, and the two statuses it can have. *)
Lemma execute_step_result (step : Step) (tc_id : str) (step_idx : nat)
    (s s' : St W) (r : StepResult) :
  execute_step step tc_id step_idx s = (s', inr r) ->
  sr_index r = step_idx /\ sr_action r = action_of step /\
  (sr_status r = U "passed" \/ sr_status r = U "failed").
Proof.
  intros H.
  destruct (attempt_of step tc_id step_idx s) as [s1 [e|shot]] eqn:Ha.
  - destruct (execute_step_failed _ _ _ _ Ha) as [s2 [sh [_ Hx]]].
    rewrite Hx in H. inversion H; subst. simpl. auto.
  - rewrite (execute_step_passed _ _ _ _ Ha) in H.
    inversion H; subst. simpl. auto.
Qed.

(** *** Navigation *)

Lemma attempt_goto (step : Step) (tc_id : str) (step_idx : nat) (t : str) (s : St W) :
  action step = Some (U "goto") -> target step = Some t ->
  attempt_of step tc_id step_idx s =
  (do_ (Goto t) ;;
   do_ (WaitForLoadState (U "networkidle") 15000) ;;
   do_ (Screenshot (step_file tc_id step_idx (U "goto"))) ;;
   mret (path_name (step_file tc_id step_idx (U "goto"))))%M s.
Proof.
  intros Ha Ht. unfold attempt_of, attempt, action_of, target_of. rewrite Ha, Ht.
  cbn [get]. unfold act.
  replace (is_action (U "goto") "goto") with true by reflexivity.
  replace (if startswith (U "http") t then t else t) with t
    by (destruct (startswith (U "http") t); reflexivity).
  unfold mbind, do_, mret.
  destruct (answer (Goto t) (world s)) as [w1 [e|[]]]; [reflexivity|].
  cbn [world log].
  destruct (answer (WaitForLoadState (U "networkidle") 15000) w1) as [w2 [e|[]]];
    reflexivity.
Qed.

(** A [goto] Step: the first call is the navigation to the target of
    the Step, as it stands; when the navigation returns, the next call
    is the wait for the network to be idle, for 15000 ms. *)
Lemma execute_goto_calls (step : Step) (tc_id : str) (step_idx : nat) (t : str) (s : St W) :
  action step = Some (U "goto") -> target step = Some t ->
  exists calls : list event,
    log (fst (execute_step step tc_id step_idx s)) = log s ++ Event (Goto t) :: calls /\
    (forall w1, answer (Goto t) (world s) = (w1, inr tt) ->
       exists calls' : list event,
         calls = Event (WaitForLoadState (U "networkidle") NAVIGATION_TIMEOUT_MS) :: calls').
Proof.
  intros Ha Ht.
  pose proof (attempt_goto step tc_id step_idx s Ha Ht) as Hat.
  unfold mbind, do_, mret in Hat.
  destruct (answer (Goto t) (world s)) as [w1 [e|[]]] eqn:E1.
  - (* the navigation raises *)
    destruct (execute_step_failed _ _ _ _ Hat) as [s' [shot [Hr Hx]]].
    rewrite Hx. cbn [fst].
    destruct (rescue_returns tc_id step_idx {| world := w1; log := log s ++ [Event (Goto t)] |})
      as [s2 [shot2 [Hr2 [Hlog _]]]].
    rewrite Hr in Hr2. inversion Hr2; subst s2 shot2.
    rewrite Hlog. cbn [log]. rewrite <- app_assoc.
    eexists. split; [reflexivity|].
    intros w Hw. discriminate.
  - cbn [world log] in Hat.
    destruct (answer (WaitForLoadState (U "networkidle") 15000) w1) as [w2 [e|[]]] eqn:E2.
    + destruct (execute_step_failed _ _ _ _ Hat) as [s' [shot [Hr Hx]]].
      rewrite Hx. cbn [fst].
      destruct (rescue_returns tc_id step_idx
                  {| world := w2;
                     log := (log s ++ [Event (Goto t)]) ++
                            [Event (WaitForLoadState (U "networkidle") 15000)] |})
        as [s2 [shot2 [Hr2 [Hlog _]]]].
      rewrite Hr in Hr2. inversion Hr2; subst s2 shot2.
      rewrite Hlog. cbn [log]. rewrite <- !app_assoc.
      eexists. split; [reflexivity|].
      intros w Hw. eexists. reflexivity.
    + cbn [world log] in Hat.
      destruct (answer (Screenshot (step_file tc_id step_idx (U "goto"))) w2)
        as [w3 [e|[]]] eqn:E3.
      * destruct (execute_step_failed _ _ _ _ Hat) as [s' [shot [Hr Hx]]].
        rewrite Hx. cbn [fst].
        match type of Hr with rescue _ _ ?s1 = _ =>
          destruct (rescue_returns tc_id step_idx s1) as [s2 [shot2 [Hr2 [Hlog _]]]]
        end.
        rewrite Hr in Hr2. inversion Hr2; subst s2 shot2.
        rewrite Hlog. cbn [log]. rewrite <- !app_assoc.
        eexists. split; [reflexivity|].
        intros w Hw. eexists. reflexivity.
      * rewrite (execute_step_passed _ _ _ _ Hat). cbn [fst log].
        rewrite <- !app_assoc.
        eexists. split; [reflexivity|].
        intros w Hw. eexists. reflexivity.
Qed.

End WithEnv.

End ExecFacts.

(* ------------------------------------------------------------------ *)
(** * The case runner *)
(* ------------------------------------------------------------------ *)

Module RunFacts.
Import RunTests ExecFacts.

Lemma str_eqb_eq (a b : str) : str_eqb a b = true <-> a = b.
Proof.
  revert b. induction a as [|x a IH]; intros [|y b]; simpl; split; intros H;
    try reflexivity; try discriminate.
  - apply andb_true_iff in H as [H1 H2]. apply N.eqb_eq in H1. apply IH in H2. congruence.
  - inversion H; subst. rewrite N.eqb_refl. simpl. apply IH. reflexivity.
Qed.

Lemma str_eqb_refl (a : str) : str_eqb a a = true.
Proof. apply str_eqb_eq. reflexivity. Qed.

(** The status of a case is one of two. *)
Definition two_valued (status : str) : Prop :=
  status = U "passed" \/ status = U "failed".

(** A failed result of an action that halts interaction. *)
Definition halting (r : StepResult) : Prop :=
  sr_status r = U "failed" /\ str_in (sr_action r) halting_actions = true.

Section WithEnv.
Context {W : Type} {E : Env W} {UD : Unicode}.

(** *** One turn of the loop *)

(** After an interaction has failed, a Step of a passed-over action is
    recorded as skipped and the browser is left alone. *)
Lemma run_step_skip (tc_id : str) (idx : nat) (step : Step) (run : Run) (s : St W) :
  interaction_failed run = true ->
  str_in (action_of step) skipped_actions = true ->
  run_step tc_id idx step run s = (s, inr (skip_result idx step run)).
Proof.
  intros Hf Ha. unfold run_step. unfold action_of in Ha. rewrite Hf, Ha. reflexivity.
Qed.

(** Any other Step is executed, whatever failed before. *)
Lemma run_step_exec (tc_id : str) (idx : nat) (step : Step) (a : str) (run : Run)
    (s : St W) :
  action step = Some a ->
  interaction_failed run && str_in a skipped_actions = false ->
  exists s' r,
    execute_step step tc_id idx s = (s', inr r) /\
    run_step tc_id idx step run s = (s', inr (record_result a r run)).
Proof.
  intros Ha Hc.
  destruct (execute_step_returns step tc_id idx s) as [s' [r Hx]].
  exists s', r. split; [exact Hx|].
  unfold run_step. rewrite Ha. cbn [get]. rewrite Hc.
  unfold mbind, lift, mret. cbn [item]. rewrite Hx. reflexivity.
Qed.

(** A Step without an action ends the loop: the line that prints the
    Step raises. *)
Lemma run_step_no_action (tc_id : str) (idx : nat) (step : Step) (run : Run) (s : St W) :
  action step = None ->
  run_step tc_id idx step run s = (s, inl (KeyError "action")).
Proof.
  intros Ha. unfold run_step. rewrite Ha. cbn [get].
  replace (str_in [] skipped_actions) with false by reflexivity.
  rewrite andb_false_r. reflexivity.
Qed.

Lemma run_step_cases (tc_id : str) (idx : nat) (step : Step) (run run' : Run)
    (s s' : St W) :
  run_step tc_id idx step run s = (s', inr run') ->
  (s' = s /\ run' = skip_result idx step run /\ interaction_failed run = true /\
   str_in (action_of step) skipped_actions = true)
  \/ (exists r, execute_step step tc_id idx s = (s', inr r) /\
                run' = record_result (action_of step) r run).
Proof.
  intros H.
  destruct (action step) as [a|] eqn:Ha.
  - destruct (interaction_failed run && str_in a skipped_actions) eqn:Hc.
    + apply andb_true_iff in Hc as [Hf Hs].
      rewrite run_step_skip in H; auto.
      * inversion H; subst. left. repeat split; auto.
        unfold action_of. rewrite Ha. exact Hs.
      * unfold action_of. rewrite Ha. exact Hs.
    + destruct (run_step_exec tc_id idx step run s Ha Hc) as [s2 [r [Hx Hr]]].
      rewrite Hr in H. inversion H; subst. right. exists r. split; auto.
      unfold action_of. rewrite Ha. reflexivity.
  - rewrite run_step_no_action in H by exact Ha. discriminate.
Qed.

(** *** What the loop keeps true *)

Record sound (run : Run) : Prop := {
  sound_status : two_valued (tc_status run);
  sound_flag : interaction_failed run = true <-> Exists halting (step_results run)
}.

Lemma start_run_sound : sound start_run.
Proof.
  split.
  - left. reflexivity.
  - simpl. split; [discriminate|]. intros H. inversion H.
Qed.

Lemma skipped_not_halting (idx : nat) (step : Step) : ~ halting (skipped_result idx step).
Proof. intros [H _]. simpl in H. vm_compute in H. discriminate. Qed.

Lemma skip_result_sound (idx : nat) (step : Step) (run : Run) :
  sound run -> sound (skip_result idx step run).
Proof.
  intros [Hs Hf]. split; simpl; auto.
  rewrite Hf. rewrite Exists_app. split; [auto|].
  intros [H|H]; auto.
  inversion H; subst.
  - exfalso. eapply skipped_not_halting; eauto.
  - inversion H1.
Qed.

Lemma record_result_sound (a : str) (r : StepResult) (run : Run) :
  sr_action r = a -> sound run -> sound (record_result a r run).
Proof.
  intros Ha [Hs Hf]. unfold record_result.
  destruct (str_eqb (sr_status r) (U "failed")) eqn:Est.
  - apply str_eqb_eq in Est.
    split; cbn [step_results tc_status interaction_failed].
    + right. reflexivity.
    + rewrite Exists_app, orb_true_iff, Hf. split.
      * intros [H|H]; auto. right. constructor. split; congruence.
      * intros [H|H]; auto. inversion H; subst.
        -- right. apply H1.
        -- inversion H1.
  - split; cbn [step_results tc_status interaction_failed]; auto.
    rewrite Hf, Exists_app. split; auto.
    intros [H|H]; auto. inversion H; subst.
    + destruct H1 as [H1 _]. rewrite H1 in Est. vm_compute in Est. discriminate.
    + inversion H1.
Qed.

Lemma run_step_sound (tc_id : str) (idx : nat) (step : Step) (run run' : Run)
    (s s' : St W) :
  run_step tc_id idx step run s = (s', inr run') -> sound run -> sound run'.
Proof.
  intros H Hs. apply run_step_cases in H as [[_ [-> _]]|[r [Hx ->]]].
  - apply skip_result_sound, Hs.
  - apply record_result_sound; auto.
    apply execute_step_result in Hx. apply Hx.
Qed.

Lemma run_step_appends (tc_id : str) (idx : nat) (step : Step) (run run' : Run)
    (s s' : St W) :
  run_step tc_id idx step run s = (s', inr run') ->
  exists r, step_results run' = step_results run ++ [r].
Proof.
  intros H. apply run_step_cases in H as [[_ [-> _]]|[r [Hx ->]]].
  - eexists. reflexivity.
  - exists r. unfold record_result.
    destruct (str_eqb (sr_status r) (U "failed")); reflexivity.
Qed.

(** *** The loop *)

Lemma run_steps_app (tc_id : str) (pre post : list Step) :
  forall (idx : nat) (run : Run) (s : St W),
    run_steps tc_id idx (pre ++ post) run s =
    match run_steps tc_id idx pre run s with
    | (s1, (run1, None)) => run_steps tc_id (idx + length pre) post run1 s1
    | (s1, (run1, Some e)) => (s1, (run1, Some e))
    end.
Proof.
  induction pre as [|step pre IH]; intros idx run s.
  - simpl. rewrite Nat.add_0_r. reflexivity.
  - simpl. destruct (run_step tc_id idx step run s) as [s' [e|run']]; [reflexivity|].
    rewrite IH. simpl. rewrite Nat.add_succ_r. reflexivity.
Qed.

Lemma run_steps_sound (tc_id : str) (steps : list Step) :
  forall (idx : nat) (run run' : Run) (s s' : St W) (ab : option exn),
    run_steps tc_id idx steps run s = (s', (run', ab)) -> sound run -> sound run'.
Proof.
  induction steps as [|step steps IH]; intros idx run run' s s' ab H Hs.
  - simpl in H. inversion H; subst. exact Hs.
  - simpl in H. destruct (run_step tc_id idx step run s) as [s1 [e|run1]] eqn:E1.
    + inversion H; subst. exact Hs.
    + eapply IH; eauto. eapply run_step_sound; eauto.
Qed.

(** The loop only appends to the results; without an exception it
    appends one result for each Step. *)
Lemma run_steps_appends (tc_id : str) (steps : list Step) :
  forall (idx : nat) (run run' : Run) (s s' : St W) (ab : option exn),
    run_steps tc_id idx steps run s = (s', (run', ab)) ->
    exists more, step_results run' = step_results run ++ more /\
                 (ab = None -> length more = length steps).
Proof.
  induction steps as [|step steps IH]; intros idx run run' s s' ab H.
  - simpl in H. inversion H; subst. exists []. rewrite app_nil_r. auto.
  - simpl in H. destruct (run_step tc_id idx step run s) as [s1 [e|run1]] eqn:E1.
    + inversion H; subst. exists []. rewrite app_nil_r. split; [auto | discriminate].
    + destruct (run_step_appends _ _ _ _ _ E1) as [r Hr].
      destruct (IH _ _ _ _ _ _ H) as [more [Hm Hl]].
      exists (r :: more). rewrite Hm, Hr, <- app_assoc. split; [reflexivity|].
      intros Hab. simpl. rewrite Hl; auto.
Qed.

Lemma after_loop_two_valued (run : Run) (ab : option exn) :
  two_valued (tc_status run) -> two_valued (tc_status (after_loop (run, ab))).
Proof.
  intros H. destruct ab; simpl; [right; reflexivity | exact H].
Qed.

(** *** The case *)

(** What [run_test_case] returns is built from the loop over the
    resolved Steps. *)
Lemma run_test_case_inv (tc : TestCase) (base_url : str) (record_video : bool)
    (s s' : St W) (res : TestCaseResult) :
  run_test_case tc base_url record_video s = (s', inr res) ->
  exists nm s0 resolved s1 run ab,
    tc_name tc = Some nm /\
    do_ (NewPage record_video) s = (s0, inr tt) /\
    resolve_steps base_url (match tc_steps tc with Some l => l | None => [] end)
      = inr resolved /\
    run_steps (get (tc_id tc) (U "TC-???")) 0 resolved start_run s0 = (s1, (run, ab)) /\
    r_name res = nm /\
    r_status res = tc_status (after_loop (run, ab)) /\
    r_steps res = step_results run /\
    r_error res = tc_error (after_loop (run, ab)).
Proof.
  unfold run_test_case. unfold mbind at 1. unfold lift.
  destruct (tc_name tc) as [nm|]; cbn [item]; [|discriminate].
  unfold mbind at 1.
  destruct (do_ (NewPage record_video) s) as [s0 [e|[]]] eqn:E0; [discriminate|].
  unfold mbind at 1.
  destruct (resolve_steps base_url match tc_steps tc with Some l => l | None => [] end)
    as [e|resolved] eqn:Er; [discriminate|].
  unfold mbind at 1.
  destruct (run_steps (get (tc_id tc) (U "TC-???")) 0 resolved start_run s0)
    as [s1 [run ab]] eqn:El.
  unfold mbind at 1.
  destruct (do_ ClosePage s1) as [s2 [e|[]]]; [discriminate|].
  unfold mbind at 1.
  destruct ((if record_video then do_ (SaveVideo (get (tc_id tc) (U "TC-???"))) else mret None) s2)
    as [s3 [e|v]]; [discriminate|].
  unfold mret. intros H. inversion H; subst. cbn.
  exists nm, s0, resolved, s1, run, ab.
  repeat split; auto.
  - destruct ab; reflexivity.
Qed.

Lemma run_test_case_two_valued (tc : TestCase) (base_url : str) (record_video : bool)
    (s s' : St W) (res : TestCaseResult) :
  run_test_case tc base_url record_video s = (s', inr res) ->
  two_valued (r_status res).
Proof.
  intros H. apply run_test_case_inv in H
    as (nm & s0 & resolved & s1 & run & ab & _ & _ & _ & Hl & _ & Hst & _).
  rewrite Hst. apply after_loop_two_valued.
  apply (sound_status (run_steps_sound _ _ _ _ Hl start_run_sound)).
Qed.

(** *** All the cases *)

Lemma run_all_spec (cases : list TestCase) (base_url : str) (video : bool) :
  forall (s s' : St W) (rs : list TestCaseResult),
    run_all cases base_url video s = (s', inr rs) ->
    length rs = length cases /\ Forall (fun r => two_valued (r_status r)) rs.
Proof.
  induction cases as [|tc cases IH]; intros s s' rs H.
  - simpl in H. inversion H; subst. split; auto.
  - simpl in H. unfold mbind at 1 in H.
    destruct (run_test_case tc base_url video s) as [s1 [e|r]] eqn:E1; [discriminate|].
    unfold mbind at 1 in H.
    destruct (run_all cases base_url video s1) as [s2 [e|rest]] eqn:E2; [discriminate|].
    unfold mret in H. inversion H; subst.
    destruct (IH _ _ _ E2) as [Hl Hf]. split; simpl; [congruence|].
    constructor; auto. eapply run_test_case_two_valued; eauto.
Qed.

End WithEnv.

(** *** Counting *)

Lemma count_two_valued (rs : list TestCaseResult) :
  Forall (fun r => two_valued (r_status r)) rs ->
  count_status "passed" rs + count_status "failed" rs = length rs /\
  count_status "skipped" rs = 0.
Proof.
  unfold count_status. induction rs as [|r rs IH]; intros H; [split; reflexivity|].
  inversion H; subst. destruct (IH H3) as [IH1 IH2].
  simpl. destruct H2 as [H2|H2]; rewrite H2.
  - replace (str_eqb (U "passed") (U "passed")) with true by reflexivity.
    replace (str_eqb (U "passed") (U "failed")) with false by reflexivity.
    replace (str_eqb (U "passed") (U "skipped")) with false by reflexivity.
    simpl. split; [lia | exact IH2].
  - replace (str_eqb (U "failed") (U "passed")) with false by reflexivity.
    replace (str_eqb (U "failed") (U "failed")) with true by reflexivity.
    replace (str_eqb (U "failed") (U "skipped")) with false by reflexivity.
    simpl. split; [lia | exact IH2].
Qed.

Section MainFacts.
Context {W : Type} {E : Env W} {UD : Unicode}.

(** When [main] writes its results, they are those of [run_all] on the
    cases to run. *)
Lemma main_inv (filter_arg : option str) (arg_base_url : str) (headed video : bool)
    (meta_base_url : option str) (cases : list TestCase)
    (s s' : St W) (out : Outcome) (res : Results) :
  main filter_arg arg_base_url headed video meta_base_url cases s = (s', inr out) ->
  written out = Some res ->
  exists s1 s2 base_url,
    run_all (cases_to_run filter_arg cases) base_url video s1 = (s2, inr (test_cases res)) /\
    summary res = summarize (test_cases res).
Proof.
  intros H Hw. unfold main in H.
  set (selected := cases_to_run filter_arg cases) in *.
  assert (Hrun :
    (do_ (Launch headed) ;;
     all_results <- run_all selected
                      (ParseDocx.or_else arg_base_url (get meta_base_url [])) video ;;
     do_ Shutdown ;;
     mret {| written := Some {| summary := summarize all_results;
                                test_cases := all_results |};
             exit_code := if 0 <? failed (summarize all_results) then 1 else 0 |})%M s
    = (s', inr out)).
  { destruct filter_arg as [[|c f]|]; try exact H.
    destruct selected; [|exact H].
    unfold mret in H. inversion H; subst. discriminate. }
  clear H. unfold mbind at 1 in Hrun.
  destruct (do_ (Launch headed) s) as [s0 [e|[]]]; [discriminate|].
  unfold mbind at 1 in Hrun.
  destruct (run_all selected (ParseDocx.or_else arg_base_url (get meta_base_url [])) video s0)
    as [s1 [e|rs]] eqn:Er; [discriminate|].
  unfold mbind at 1 in Hrun.
  destruct (do_ Shutdown s1) as [s2 [e|[]]]; [discriminate|].
  unfold mret in Hrun. inversion Hrun; subst. simpl in Hw. inversion Hw; subst.
  exists s0, s1, (ParseDocx.or_else arg_base_url (get meta_base_url [])).
  split; [exact Er | reflexivity].
Qed.

End MainFacts.

End RunFacts.

(* ------------------------------------------------------------------ *)
(** * Every pattern of the scripts is in the fragment *)
(* ------------------------------------------------------------------ *)

Definition compiled (p : Re.pattern) : bool :=
  match Re.pat_re p with
  | Re.Cls false [] => false
  | _ => true
  end.

Lemma patterns_compile :
  forallb compiled
    (map fst ParseDocx._STEP_ACTION_PATTERNS ++
     [ParseDocx._TC_HEADER_RE; ParseDocx._NUMBERED_STEP_RE; ParseDocx._BULLET_STEP_RE;
      ParseDocx._EXPECTED_RE; ParseDocx._URL_RE;
      ParseDocx._ZH_GOTO_VERBS; ParseDocx._ZH_CLICK_VERBS; ParseDocx._ZH_FILL_VERBS;
      ParseDocx._ZH_ASSERT_VERBS; ParseDocx._ZH_BROWSE_KEYWORDS;
      ParseDocx.fragment_sep; ParseDocx.arrow_verb; ParseDocx.step_marker;
      ParseDocx.quoted; ParseDocx.non_word;
      ParseDocx.table_rule; ParseDocx.step_sep; ParseDocx.grid_rule; ParseDocx.bold;
      ParseDocx.grid_header; ParseDocx.leading_digits; ParseDocx.tc_word;
      ParseDocx.meta_url; ParseDocx.meta_title; ParseDocx.meta_env; ParseDocx.meta_by;
      ParseDocx.meta_sep; RunTests.css_chars]) = true.
Proof. vm_compute. reflexivity. Qed.

(* ------------------------------------------------------------------ *)
(** * Properties of parse_docx.py *)
(* ------------------------------------------------------------------ *)

Module ParseDocxSpec.
Import ParseDocx.

Section WithUnicode.
Context {UD : Unicode}.

(** C4.  [infer_step] is total: for every input it returns a Step and
    raises nothing.  An input that is empty once stripped and freed of
    its leading marker, in particular an input of white space only,
    gives the Step [{action: screenshot, name: blank_step}].  A text
    that no pattern of the first pass and no verb family of the second
    pass matches gives a screenshot Step whose name is the first 40
    characters of the text with every character outside [\w] replaced
    by an underscore: at most 40 characters, all of them word
    characters. *)
Theorem infer_step_total (raw : str) :
  (exists step, infer_step raw = inr step) /\
  (unmarked raw = [] -> infer_step raw = inr (mk_shot (U "blank_step"))) /\
  (forallb isspace raw = true -> infer_step raw = inr (mk_shot (U "blank_step"))) /\
  (unmarked raw <> [] ->
   first_pass _STEP_ACTION_PATTERNS (resolved (unmarked raw)) = None ->
   second_pass (resolved (unmarked raw)) = None ->
   exists n,
     infer_step raw = inr (mk_shot n) /\
     n = sanitized (resolved (unmarked raw)) /\
     length n <= 40 /\
     forallb InferFacts.is_word n = true).
Proof.
  split; [apply InferFacts.infer_step_returns|].
  split; [apply InferFacts.infer_step_blank|].
  split.
  - intros H. apply InferFacts.infer_step_blank, InferFacts.unmarked_space, H.
  - intros Hne H1 H2. eexists. split; [|split; [reflexivity|split]].
    + apply InferFacts.infer_step_fallback; assumption.
    + apply InferFacts.sanitized_length.
    + apply InferFacts.sanitized_word.
Qed.

(** C5, as the code has it.  The output of [_resolve_arrow_chains]
    holds no arrow, and it has as many fragments between commas and
    semicolons as the input.  When the text holds an arrow, a fragment
    that holds one and has two non-empty arrow parts or more, the first
    of them without a leading verb of the list, becomes the verb of
    clicking followed by the last part; a fragment with fewer than two
    non-empty parts only loses its arrows. *)
Theorem chain_resolution (text : str) :
  contains arrow (_resolve_arrow_chains text) = false /\
  length (Re.split fragment_sep (_resolve_arrow_chains text)) =
    length (Re.split fragment_sep text) /\
  (forall (i : nat) (fragment : str),
     contains arrow text = true ->
     nth_error (Re.split fragment_sep text) i = Some fragment ->
     contains arrow (strip fragment) = true ->
     (2 <= length (arrow_parts (strip fragment)) ->
      Re.match_ arrow_verb (hd [] (arrow_parts (strip fragment))) = None ->
      nth_error (Re.split fragment_sep (_resolve_arrow_chains text)) i =
        Some (U "點選" ++ List.last (arrow_parts (strip fragment)) [])) /\
     (length (arrow_parts (strip fragment)) < 2 ->
      nth_error (Re.split fragment_sep (_resolve_arrow_chains text)) i =
        Some (replace "→" [] (strip fragment)))).
Proof.
  split; [apply ChainFacts.contains_arrow_false, ChainFacts.resolve_no_arrow|].
  split; [apply ChainFacts.resolve_count|].
  intros i fragment Hc Hi Ha.
  rewrite (ChainFacts.resolve_fragments _ Hc).
  rewrite nth_error_map, Hi. cbn [option_map].
  rewrite ChainFacts.resolve_fragment_eq. cbv zeta. rewrite Ha. cbn [negb].
  split.
  - intros Hlen Hv. apply Nat.ltb_ge in Hlen. rewrite Hlen.
    unfold ChainFacts.chain_result. rewrite Hv. reflexivity.
  - intros Hlen. apply Nat.ltb_lt in Hlen. rewrite Hlen. reflexivity.
Qed.

(** C6.  [parse_markdown_to_cases] tries the pipe table, then the grid
    table, then the sections, and the cases it returns are those of
    the first strategy that gives at least one: those of the pipe
    table when it gives one, whatever the grid and the sections hold;
    else those of the grid table when it gives one; else those of the
    sections (with their exploratory fallback). *)
Theorem extractor_priority (today md base_url0 : str) :
  let lines := splitlines md in
  let m := fold_left meta_line (firstn 20 lines)
             {| title := U "Test Suite"; base_url := base_url0; environment := [];
                tested_by := []; date := today |} in
  (forall c cs,
     _parse_table_cases lines = inr (c :: cs) ->
     parse_markdown_to_cases today md base_url0 =
       inr {| meta := m; test_cases := c :: cs |}) /\
  (forall c cs,
     _parse_table_cases lines = inr [] ->
     _parse_grid_table_cases md = inr (c :: cs) ->
     parse_markdown_to_cases today md base_url0 =
       inr {| meta := m; test_cases := c :: cs |}) /\
  (forall cases,
     _parse_table_cases lines = inr [] ->
     _parse_grid_table_cases md = inr [] ->
     section_cases lines m = inr cases ->
     parse_markdown_to_cases today md base_url0 =
       inr {| meta := m; test_cases := cases |}).
Proof.
  cbv zeta. unfold parse_markdown_to_cases. cbv zeta.
  split; [|split].
  - intros c cs Ht. rewrite Ht. reflexivity.
  - intros c cs Ht Hg. rewrite Ht. cbn [bind]. rewrite Hg. reflexivity.
  - intros cases Ht Hg Hs. rewrite Ht. cbn [bind]. rewrite Hg. cbn [bind].
    rewrite Hs. reflexivity.
Qed.

(** C10.  After [parse_markdown_to_cases] has given the payload, [main]
    reads the tables of the document with python-docx; when that pass
    ends with at least one case, these cases replace all the cases of
    the payload, whichever markdown strategy gave them, and the meta
    block stays.  When the pass gives no case, or raises, the payload
    is written as it was. *)
Theorem docx_pass_overrides (today md base_url0 : str) (doc : Docx) (payload : Payload) :
  parse_markdown_to_cases today md base_url0 = inr payload ->
  (forall c cs,
     docx_pass doc = inr (c :: cs) ->
     main today md base_url0 doc = inr {| meta := meta payload; test_cases := c :: cs |}) /\
  (docx_pass doc = inr [] -> main today md base_url0 doc = inr payload) /\
  (forall e, docx_pass doc = inl e -> main today md base_url0 doc = inr payload).
Proof.
  intros Hp. unfold main. rewrite Hp. cbn [bind].
  split; [|split].
  - intros c cs Hd. rewrite Hd. reflexivity.
  - intros Hd. rewrite Hd. reflexivity.
  - intros e Hd. rewrite Hd. reflexivity.
Qed.

End WithUnicode.

End ParseDocxSpec.

Module ParseDocxWitness.
Import ParseDocx ParseDocxSpec.

#[local] Existing Instance latin_cjk.

Lemma infer_step_total_witness :
  infer_step (U "  步驟3.  ") = inr (mk_shot (U "blank_step")) /\
  infer_step (U "   ") = inr (mk_shot (U "blank_step")) /\
  exists n, infer_step (U "hello, world!") = inr (mk_shot n) /\ length n <= 40.
Proof.
  split; [|split].
  - destruct (infer_step_total (U "  步驟3.  ")) as (_ & H & _).
    apply H. vm_compute. reflexivity.
  - destruct (infer_step_total (U "   ")) as (_ & _ & H & _).
    apply H. vm_compute. reflexivity.
  - destruct (infer_step_total (U "hello, world!")) as (_ & _ & _ & H).
    destruct H as (n & H1 & _ & H3 & _).
    + vm_compute. discriminate.
    + vm_compute. reflexivity.
    + vm_compute. reflexivity.
    + exists n. split; assumption.
Defined.

Definition chain_text : str := U "進入首頁, 主選單 → 檢索→進階;查看結果".

Lemma chain_resolution_witness :
  nth_error (Re.split fragment_sep (_resolve_arrow_chains chain_text)) 1 = Some (U "點選進階") /\
  nth_error (Re.split fragment_sep (_resolve_arrow_chains (U "主選單→"))) 0 = Some (U "主選單").
Proof.
  split.
  - destruct (chain_resolution chain_text) as (_ & _ & H).
    destruct (H 1 (U " 主選單 → 檢索→進階")) as (H2 & _).
    + vm_compute. reflexivity.
    + vm_compute. reflexivity.
    + vm_compute. reflexivity.
    + rewrite H2.
      * vm_compute. reflexivity.
      * vm_compute. lia.
      * vm_compute. reflexivity.
  - destruct (chain_resolution (U "主選單→")) as (_ & _ & H).
    destruct (H 0 (U "主選單→")) as (_ & H1).
    + vm_compute. reflexivity.
    + vm_compute. reflexivity.
    + vm_compute. reflexivity.
    + rewrite H1.
      * vm_compute. reflexivity.
      * vm_compute. lia.
Defined.

(** A fragment that ends in an arrow has one non-empty part; that part
    has no leading verb of the list, and yet the fragment does not
    become the verb of clicking followed by the part: it only loses
    its arrow. *)
Lemma trailing_arrow_keeps_no_verb :
  contains arrow (U "主選單→") = true /\
  Re.split fragment_sep (U "主選單→") = [U "主選單→"] /\
  arrow_parts (strip (U "主選單→")) = [U "主選單"] /\
  Re.match_ arrow_verb (U "主選單") = None /\
  _resolve_arrow_chains (U "主選單→") = U "主選單" /\
  _resolve_arrow_chains (U "主選單→") <> U "點選" ++ U "主選單".
Proof.
  repeat split; try (vm_compute; reflexivity).
  vm_compute. discriminate.
Qed.

Definition today_ex : str := U "2026-01-01".

Lemma extractor_priority_witness :
  (exists m,
     parse_markdown_to_cases today_ex md_both [] =
     inr {| meta := m;
            test_cases :=
              [mk_case (U "T1") (U "Login") []
                 [mk_target (U "goto") (U "/login"); mk_target (U "click") (U "#submit")]
                 (U "ok")] |}) /\
  (exists m c, parse_markdown_to_cases today_ex md_grid [] =
               inr {| meta := m; test_cases := [c] |}) /\
  (exists m c, parse_markdown_to_cases today_ex md_sections [] =
               inr {| meta := m; test_cases := [c] |}).
Proof.
  split; [|split].
  - destruct (extractor_priority today_ex md_both []) as (H & _ & _).
    eexists. apply H. vm_compute. reflexivity.
  - destruct (extractor_priority today_ex md_grid []) as (_ & H & _).
    eexists. eexists. apply H.
    + vm_compute. reflexivity.
    + vm_compute. reflexivity.
  - destruct (extractor_priority today_ex md_sections []) as (_ & _ & H).
    eexists. eexists. apply H.
    + vm_compute. reflexivity.
    + vm_compute. reflexivity.
    + vm_compute. reflexivity.
Defined.

(** A document whose table python-docx reads. *)
Definition docx_ex : Docx :=
  inr [[inr [U "項目序"; U "測試項目"; U "操作步驟"; U "預期結果"];
        inr [U "1"; U "登入"; U "點選登入"; U "成功"]]].

Lemma docx_pass_overrides_witness :
  exists m,
    parse_markdown_to_cases today_ex md_both [] =
      inr {| meta := m;
             test_cases :=
               [mk_case (U "T1") (U "Login") []
                  [mk_target (U "goto") (U "/login"); mk_target (U "click") (U "#submit")]
                  (U "ok")] |} /\
    main today_ex md_both [] docx_ex =
      inr {| meta := m;
             test_cases :=
               [mk_case (U "TC-001") (U "登入") (U "點選登入")
                  [mk_target (U "click") (U "登入")] (U "成功")] |} /\
    main today_ex md_both [] (inr []) =
      parse_markdown_to_cases today_ex md_both [] /\
    main today_ex md_both [] (inl (Raise "ImportError" (U "No module named 'docx'"))) =
      parse_markdown_to_cases today_ex md_both [].
Proof.
  destruct (parse_markdown_to_cases today_ex md_both []) as [e|payload] eqn:Hp.
  - vm_compute in Hp. discriminate.
  - exists (meta payload).
    destruct (docx_pass_overrides today_ex md_both [] docx_ex Hp) as (H1 & _ & _).
    destruct (docx_pass_overrides today_ex md_both [] (inr []) Hp) as (_ & H2 & _).
    destruct (docx_pass_overrides today_ex md_both []
                (inl (Raise "ImportError" (U "No module named 'docx'"))) Hp) as (_ & _ & H3).
    split; [|split; [|split]].
    + vm_compute in Hp. inversion Hp. reflexivity.
    + apply H1. vm_compute. reflexivity.
    + apply H2. reflexivity.
    + eapply H3. reflexivity.
Defined.

End ParseDocxWitness.

(* ------------------------------------------------------------------ *)
(** * Running a case from its parts *)
(* ------------------------------------------------------------------ *)

Module CaseFacts.
Import RunTests ExecFacts RunFacts.

Section WithEnv.
Context {W : Type} {E : Env W} {UD : Unicode}.

(** A [screenshot] Step whose capture returns. *)
Lemma execute_screenshot (step : Step) (tc_id : str) (step_idx : nat) (s : St W) (w' : W) :
  action step = Some (U "screenshot") ->
  answer (Screenshot (name_of step tc_id step_idx ++ U ".png")) (world s) = (w', inr tt) ->
  execute_step step tc_id step_idx s =
  ({| world := w';
      log := log s ++ [Event (Screenshot (name_of step tc_id step_idx ++ U ".png"))] |},
   inr (result_of step step_idx (U "passed")
          (Some (path_name (name_of step tc_id step_idx ++ U ".png"))) None)).
Proof.
  intros Ha Hs. apply execute_step_passed.
  unfold attempt_of, attempt. unfold action_of at 1. rewrite Ha. cbn [get].
  unfold act.
  replace (is_action (U "screenshot") "goto") with false by reflexivity.
  replace (is_action (U "screenshot") "click") with false by reflexivity.
  replace (is_action (U "screenshot") "fill") with false by reflexivity.
  replace (is_action (U "screenshot") "select") with false by reflexivity.
  replace (is_action (U "screenshot") "hover") with false by reflexivity.
  replace (is_action (U "screenshot") "wait") with false by reflexivity.
  replace (is_action (U "screenshot") "scroll") with false by reflexivity.
  replace (is_action (U "screenshot") "screenshot") with true by reflexivity.
  unfold mbind, do_, mret. rewrite Hs. reflexivity.
Qed.

(** [run_test_case] from its parts: the page, the resolved Steps, the
    loop, the closing of the page and the video. *)
Lemma run_test_case_parts (tc : TestCase) (base_url : str) (record_video : bool)
    (nm : str) (resolved : list Step) (s s0 s3 s4 s5 : St W)
    (run : Run) (ab : option exn) (v : option str) :
  tc_name tc = Some nm ->
  do_ (NewPage record_video) s = (s0, inr tt) ->
  resolve_steps base_url (match tc_steps tc with Some l => l | None => [] end)
    = inr resolved ->
  run_steps (get (tc_id tc) (U "TC-???")) 0 resolved start_run s0 = (s3, (run, ab)) ->
  do_ ClosePage s3 = (s4, inr tt) ->
  (if record_video then do_ (SaveVideo (get (tc_id tc) (U "TC-???"))) else mret None) s4
    = (s5, inr v) ->
  run_test_case tc base_url record_video s =
  (s5, inr {| r_id := get (tc_id tc) (U "TC-???"); r_name := nm;
              r_status := tc_status (after_loop (run, ab));
              r_steps := step_results run; r_video := v;
              r_error := tc_error (after_loop (run, ab)) |}).
Proof.
  intros Hn H0 Hr Hl Hc Hv. unfold run_test_case, mbind, lift, mret.
  cbv beta. rewrite Hn. cbn [item]. cbv beta iota.
  rewrite H0. cbv beta iota.
  rewrite Hr. cbv beta iota.
  rewrite Hl. cbv beta iota.
  rewrite Hc. cbv beta iota.
  unfold mret in Hv. rewrite Hv. cbv beta iota.
  destruct ab; reflexivity.
Qed.

(** A Step that is not a [goto] is left as it is. *)
Lemma resolve_step_other (base_url : str) (step : Step) :
  action_is step "goto" = false -> resolve_step base_url step = inr step.
Proof. intros H. unfold resolve_step. rewrite H. reflexivity. Qed.

End WithEnv.

End CaseFacts.

(* ------------------------------------------------------------------ *)
(** * Properties of run_tests.py *)
(* ------------------------------------------------------------------ *)

Module RunTestsSpec.
Import RunTests ExecFacts RunFacts.

Section WithEnv.
Context {W : Type} {E : Env W} {UD : Unicode}.

(** C8.  [execute_step] returns a StepResult for every Step, whatever
    its action, and raises nothing.  When the [try] block raises [e],
    the result has status [failed] and carries [str(e)]; the screenshot
    of the failure has been attempted, as the last call, under a name
    of its own; the result holds that name if the screenshot was taken
    and none if taking it raised.  When the block returns, the status
    is [passed]. *)
Theorem execute_step_contains_failures (step : Step) (tc_id : str) (step_idx : nat)
    (s : St W) :
  (exists s' r, execute_step step tc_id step_idx s = (s', inr r)) /\
  (forall s1 e,
     attempt_of step tc_id step_idx s = (s1, inl e) ->
     exists s' r,
       execute_step step tc_id step_idx s = (s', inr r) /\
       sr_status r = U "failed" /\
       sr_error r = Some (exn_msg e) /\
       log s' = log s1 ++ [Event (Screenshot (fail_file tc_id step_idx))] /\
       match snd (answer (Screenshot (fail_file tc_id step_idx)) (world s1)) with
       | inr _ => sr_screenshot r = Some (path_name (fail_file tc_id step_idx))
       | inl _ => sr_screenshot r = None
       end) /\
  (forall s1 shot,
     attempt_of step tc_id step_idx s = (s1, inr shot) ->
     exists r,
       execute_step step tc_id step_idx s = (s1, inr r) /\
       sr_status r = U "passed" /\ sr_error r = None) /\
  (forall a, In a known_actions -> fail_file tc_id step_idx <> step_file tc_id step_idx a).
Proof.
  split; [apply execute_step_returns|].
  split; [|split].
  - intros s1 e Ha.
    destruct (execute_step_failed _ _ _ _ Ha) as [s' [shot [Hr Hx]]].
    destruct (rescue_returns tc_id step_idx s1) as [s2 [shot2 [Hr2 [Hlog Hshot]]]].
    rewrite Hr in Hr2. inversion Hr2; subst s2 shot2.
    eexists. eexists. split; [exact Hx|].
    cbn. repeat split; auto.
  - intros s1 shot Ha. eexists. split.
    + apply execute_step_passed. exact Ha.
    + cbn. auto.
  - intros a Ha. apply fail_file_distinct, Ha.
Qed.

(** C7, as the code has it.  For a [goto] Step [execute_step] first
    navigates to the target of the Step as it stands, and when the
    navigation returns it waits for the network to be idle, for
    15000 ms.  It is [run_test_case] that prepares the target before
    the Steps run: a target that starts with [http] is kept, a target
    that starts with a slash is joined to the base URL. *)
Theorem goto_navigation (step : Step) (t : str) :
  action step = Some (U "goto") -> target step = Some t ->
  (forall tc_id step_idx (s : St W),
     exists calls : list event,
       log (fst (execute_step step tc_id step_idx s)) = log s ++ Event (Goto t) :: calls /\
       (forall w1, answer (Goto t) (world s) = (w1, inr tt) ->
          exists calls' : list event,
            calls = Event (WaitForLoadState (U "networkidle") NAVIGATION_TIMEOUT_MS) :: calls')) /\
  (forall base_url,
     (startswith (U "http") t = true -> resolve_step base_url step = inr step) /\
     (startswith (U "http") t = false -> startswith (U "/") t = true ->
      resolve_step base_url step =
        inr (with_target step
               (rstrip_chars (U "/") base_url ++ U "/" ++ lstrip_chars (U "/") t)))).
Proof.
  intros Ha Ht. split.
  - intros tc_id step_idx s. apply execute_goto_calls; assumption.
  - intros base_url. unfold resolve_step, action_is. rewrite Ha, Ht.
    replace (str_eqb (U "goto") (U "goto")) with true by reflexivity.
    cbn [item bind]. split.
    + intros H. rewrite H. reflexivity.
    + intros H1 H2. rewrite H1, H2. reflexivity.
Qed.

(** C1, as the code has it.  Take the loop of [run_test_case] after
    the Steps [pre], none of which ended it, and let one of them, a
    click, fill, select or hover, have a failed StepResult.  Then a
    next Step whose action is click, fill, select, hover or one of the
    four assertions is recorded as skipped, with the fixed reason, and
    the browser is not touched: the state and the log of calls after
    the Step are those before it.  A next Step of any other action is
    executed and its StepResult is the one [execute_step] returns.  In
    both cases this is the StepResult at the place of the Step in the
    results of the whole case. *)
Theorem cascading_skip (tc_id : str) (pre : list Step) (step : Step)
    (s s1 : St W) (run1 : Run) :
  run_steps tc_id 0 pre start_run s = (s1, (run1, None)) ->
  Exists halting (step_results run1) ->
  (str_in (action_of step) skipped_actions = true ->
   run_step tc_id (length pre) step run1 s1 =
     (s1, inr (skip_result (length pre) step run1)) /\
   forall post s2 run2 ab,
     run_steps tc_id 0 (pre ++ step :: post) start_run s = (s2, (run2, ab)) ->
     nth_error (step_results run2) (length pre) =
       Some (skipped_result (length pre) step)) /\
  (forall a,
     action step = Some a -> str_in a skipped_actions = false ->
     exists s2 r,
       execute_step step tc_id (length pre) s1 = (s2, inr r) /\
       run_step tc_id (length pre) step run1 s1 = (s2, inr (record_result a r run1)) /\
       forall post s3 run3 ab,
         run_steps tc_id 0 (pre ++ step :: post) start_run s = (s3, (run3, ab)) ->
         nth_error (step_results run3) (length pre) = Some r).
Proof.
  intros Hpre Hhalt.
  pose proof (run_steps_sound _ _ _ _ Hpre start_run_sound) as Hsound.
  assert (Hflag : interaction_failed run1 = true) by (apply Hsound, Hhalt).
  pose proof Hpre as Hpre'.
  apply run_steps_appends in Hpre' as [more [Hmore Hlen]].
  cbn [step_results start_run app] in Hmore.
  specialize (Hlen eq_refl).
  assert (Hat : forall post s2 run2 ab run' s',
            run_step tc_id (length pre) step run1 s1 = (s', inr run') ->
            run_steps tc_id 0 (pre ++ step :: post) start_run s = (s2, (run2, ab)) ->
            exists more2, step_results run2 = step_results run' ++ more2).
  { intros post s2 run2 ab run' s' Hstep Hall.
    rewrite run_steps_app, Hpre in Hall. cbn [Nat.add] in Hall.
    cbn [run_steps] in Hall. rewrite Hstep in Hall.
    apply run_steps_appends in Hall as [more2 [Hm2 _]]. eauto. }
  split.
  - intros Hs.
    pose proof (run_step_skip tc_id (length pre) step run1 s1 Hflag Hs) as Hstep.
    split; [exact Hstep|].
    intros post s2 run2 ab Hall.
    destruct (Hat _ _ _ _ _ _ Hstep Hall) as [more2 Hm2].
    rewrite Hm2. cbn [skip_result step_results]. rewrite Hmore.
    rewrite <- app_assoc. rewrite nth_error_app2 by lia.
    rewrite Hlen, Nat.sub_diag. reflexivity.
  - intros a Ha Hs.
    destruct (run_step_exec tc_id (length pre) step run1 s1 Ha) as [s2 [r [Hx Hstep]]].
    { rewrite Hs. apply andb_false_r. }
    exists s2, r. split; [exact Hx|]. split; [exact Hstep|].
    intros post s3 run3 ab Hall.
    destruct (Hat _ _ _ _ _ _ Hstep Hall) as [more2 Hm2].
    rewrite Hm2.
    assert (Hrec : step_results (record_result a r run1) = step_results run1 ++ [r]).
    { unfold record_result. destruct (str_eqb (sr_status r) (U "failed")); reflexivity. }
    rewrite Hrec, Hmore. rewrite <- app_assoc. rewrite nth_error_app2 by lia.
    rewrite Hlen, Nat.sub_diag. reflexivity.
Qed.

(** C2.  A case of five Steps, goto, click, fill, assert_visible and
    screenshot, on a page that opens and closes: when the goto passes
    and the click fails, and the capture of the final screenshot
    returns, [run_test_case] returns the StepResults passed, failed,
    skipped, skipped, passed, in this order.  The fill and the
    assertion are not executed: after the calls of the click the only
    call before the page is closed is the final screenshot. *)
Theorem five_step_cascade (tc : TestCase) (nm t base_url : str) (record_video : bool)
    (g g' c f a sh : Step) (s s0 s1 s2 s4 s5 : St W) (r1 r2 : StepResult)
    (w3 : W) (v : option str) :
  let id := get (tc_id tc) (U "TC-???") in
  let shot := Screenshot (name_of sh id 4 ++ U ".png") in
  let s3 := {| world := w3; log := log s2 ++ [Event shot] |} in
  tc_name tc = Some nm ->
  tc_steps tc = Some [g; c; f; a; sh] ->
  action g = Some (U "goto") -> target g = Some t ->
  action c = Some (U "click") ->
  action f = Some (U "fill") ->
  action a = Some (U "assert_visible") ->
  action sh = Some (U "screenshot") ->
  resolve_step base_url g = inr g' ->
  do_ (NewPage record_video) s = (s0, inr tt) ->
  execute_step g' id 0 s0 = (s1, inr r1) -> sr_status r1 = U "passed" ->
  execute_step c id 1 s1 = (s2, inr r2) -> sr_status r2 = U "failed" ->
  answer shot (world s2) = (w3, inr tt) ->
  do_ ClosePage s3 = (s4, inr tt) ->
  (if record_video then do_ (SaveVideo id) else mret None) s4 = (s5, inr v) ->
  exists res r5,
    run_test_case tc base_url record_video s = (s5, inr res) /\
    r_steps res = [r1; r2; skipped_result 2 f; skipped_result 3 a; r5] /\
    map sr_status (r_steps res) =
      [U "passed"; U "failed"; U "skipped"; U "skipped"; U "passed"] /\
    execute_step sh id 4 s2 = (s3, inr r5) /\
    log s4 = log s2 ++ [Event shot; Event ClosePage].
Proof.
  intros id shot s3 Hn Hsteps Hg Ht Hc Hf Ha Hsh Hres H0 Hx1 Hp1 Hx2 Hp2 Hshot Hclose Hvideo.
  (* the resolved Steps *)
  assert (Hgoto : action_is g "goto" = true).
  { unfold action_is. rewrite Hg. reflexivity. }
  assert (Hother : forall x y, action x = Some (U y) -> str_eqb (U y) (U "goto") = false ->
                               action_is x "goto" = false).
  { intros x y Hxa Hne. unfold action_is. rewrite Hxa. exact Hne. }
  assert (Hresolved : resolve_steps base_url [g; c; f; a; sh] = inr [g'; c; f; a; sh]).
  { unfold resolve_steps. cbn [existsb resolve_all]. rewrite Hgoto, Hres.
    rewrite !CaseFacts.resolve_step_other.
    - reflexivity.
    - apply (Hother sh "screenshot"%string Hsh). reflexivity.
    - apply (Hother a "assert_visible"%string Ha). reflexivity.
    - apply (Hother f "fill"%string Hf). reflexivity.
    - apply (Hother c "click"%string Hc). reflexivity. }
  (* the action of the resolved goto *)
  assert (Hg' : action g' = Some (U "goto")).
  { unfold resolve_step in Hres. rewrite Hgoto, Ht in Hres. cbn [item bind] in Hres.
    destruct (startswith (U "http") t); [|destruct (startswith (U "/") t)];
      inversion Hres; subst; exact Hg. }
  (* the final screenshot *)
  pose proof (CaseFacts.execute_screenshot sh id 4 s2 Hsh Hshot) as Hx5.
  fold shot in Hx5. fold s3 in Hx5.
  set (r5 := result_of sh 4 (U "passed")
               (Some (path_name (name_of sh id 4 ++ U ".png"))) None) in *.
  (* the loop, Step by Step *)
  set (run1 := record_result (U "goto") r1 start_run).
  set (run2 := record_result (U "click") r2 run1).
  set (run3 := skip_result 2 f run2).
  set (run4 := skip_result 3 a run3).
  set (run5 := record_result (U "screenshot") r5 run4).
  assert (Hflag2 : interaction_failed run2 = true).
  { unfold run2, record_result. rewrite Hp2.
    replace (str_eqb (U "failed") (U "failed")) with true by reflexivity.
    cbn [interaction_failed]. apply orb_true_r. }
  assert (Hstep1 : run_step id 0 g' start_run s0 = (s1, inr run1)).
  { destruct (run_step_exec id 0 g' start_run s0 Hg' eq_refl) as [sx [rx [Hx Hr]]].
    rewrite Hx1 in Hx. inversion Hx; subst. exact Hr. }
  assert (Hstep2 : run_step id 1 c run1 s1 = (s2, inr run2)).
  { destruct (run_step_exec id 1 c run1 s1 Hc) as [sx [rx [Hx Hr]]].
    - unfold run1, record_result. rewrite Hp1.
      replace (str_eqb (U "passed") (U "failed")) with false by reflexivity.
      reflexivity.
    - rewrite Hx2 in Hx. inversion Hx; subst. exact Hr. }
  assert (Hstep3 : run_step id 2 f run2 s2 = (s2, inr run3)).
  { apply run_step_skip; [exact Hflag2|]. unfold action_of. rewrite Hf. reflexivity. }
  assert (Hstep4 : run_step id 3 a run3 s2 = (s2, inr run4)).
  { apply run_step_skip; [exact Hflag2|]. unfold action_of. rewrite Ha. reflexivity. }
  assert (Hstep5 : run_step id 4 sh run4 s2 = (s3, inr run5)).
  { destruct (run_step_exec id 4 sh run4 s2 Hsh) as [sx [rx [Hx Hr]]].
    - apply andb_false_r.
    - rewrite Hx5 in Hx. inversion Hx; subst. exact Hr. }
  assert (Hloop : run_steps id 0 [g'; c; f; a; sh] start_run s0 = (s3, (run5, None))).
  { cbn [run_steps]. rewrite Hstep1, Hstep2, Hstep3, Hstep4, Hstep5. reflexivity. }
  assert (Hresults : step_results run5 =
                     [r1; r2; skipped_result 2 f; skipped_result 3 a; r5]).
  { unfold run5, run4, run3, run2, run1, record_result.
    rewrite Hp1, Hp2.
    replace (str_eqb (U "passed") (U "failed")) with false by reflexivity.
    replace (str_eqb (U "failed") (U "failed")) with true by reflexivity.
    replace (str_eqb (sr_status r5) (U "failed")) with false by reflexivity.
    reflexivity. }
  exists {| r_id := id; r_name := nm;
            r_status := tc_status (after_loop (run5, None));
            r_steps := step_results run5; r_video := v;
            r_error := tc_error (after_loop (run5, None)) |}, r5.
  split; [|split; [|split; [|split]]].
  - eapply CaseFacts.run_test_case_parts; eauto.
    rewrite Hsteps. exact Hresolved.
  - exact Hresults.
  - cbn [r_steps]. rewrite Hresults. cbn [map skipped_result sr_status].
    rewrite Hp1, Hp2. reflexivity.
  - exact Hx5.
  - unfold do_ in Hclose. destruct (answer ClosePage (world s3)) as [w4 r4].
    inversion Hclose; subst. cbn [log s3]. rewrite <- app_assoc. reflexivity.
Qed.

End WithEnv.

Section Aggregation.
Context {W : Type} {E : Env W} {UD : Unicode}.

(** C3.  When [main] writes its results, the summary has
    [total = passed + failed + skipped], and [total] is the number of
    TestCaseResults, one for each test case that was to be run: each
    case of the input, or each case with the id of [--filter]. *)
Theorem summary_invariant (filter_arg : option str) (arg_base_url : str)
    (headed video : bool) (meta_base_url : option str) (cases : list TestCase)
    (s s' : St W) (out : Outcome) (res : Results) :
  main filter_arg arg_base_url headed video meta_base_url cases s = (s', inr out) ->
  written out = Some res ->
  total (summary res) =
    passed (summary res) + failed (summary res) + skipped (summary res) /\
  total (summary res) = length (test_cases res) /\
  length (test_cases res) = length (cases_to_run filter_arg cases).
Proof.
  intros H Hw.
  destruct (main_inv _ _ _ _ _ _ _ H Hw) as (s1 & s2 & base_url & Hrun & Hsum).
  destruct (run_all_spec _ _ _ _ Hrun) as [Hlen Hall].
  destruct (count_two_valued Hall) as [Hpf Hsk].
  rewrite Hsum. cbn [summarize total passed failed skipped].
  rewrite Hsk, Hpf. repeat split; auto; lia.
Qed.

(** C9.  The status of a TestCaseResult is [passed] or [failed]: what
    [run_test_case] returns is never [skipped], a status only
    StepResults have.  So in every summary [main] writes the count of
    skipped cases is 0 and [total = passed + failed]. *)
Theorem case_status_two_valued :
  (forall (tc : TestCase) (base_url : str) (record_video : bool) (s s' : St W)
          (r : TestCaseResult),
     run_test_case tc base_url record_video s = (s', inr r) ->
     (r_status r = U "passed" \/ r_status r = U "failed") /\ r_status r <> U "skipped") /\
  (forall (filter_arg : option str) (arg_base_url : str) (headed video : bool)
          (meta_base_url : option str) (cases : list TestCase)
          (s s' : St W) (out : Outcome) (res : Results),
     main filter_arg arg_base_url headed video meta_base_url cases s = (s', inr out) ->
     written out = Some res ->
     Forall (fun r => r_status r = U "passed" \/ r_status r = U "failed") (test_cases res) /\
     skipped (summary res) = 0 /\
     total (summary res) = passed (summary res) + failed (summary res)).
Proof.
  split.
  - intros tc base_url record_video s s' r H.
    pose proof (run_test_case_two_valued _ _ _ _ H) as Ht.
    split; [exact Ht|].
    destruct Ht as [Ht|Ht]; rewrite Ht; vm_compute; discriminate.
  - intros filter_arg arg_base_url headed video meta_base_url cases s s' out res H Hw.
    destruct (main_inv _ _ _ _ _ _ _ H Hw) as (s1 & s2 & base_url & Hrun & Hsum).
    destruct (run_all_spec _ _ _ _ Hrun) as [Hlen Hall].
    destruct (count_two_valued Hall) as [Hpf Hsk].
    rewrite Hsum. cbn [summarize total passed failed skipped].
    rewrite Hsk, Hpf. repeat split; auto; lia.
Qed.

End Aggregation.

End RunTestsSpec.

Module RunTestsWitness.
Import RunTests ExecFacts RunFacts RunTestsSpec Scripted.

#[local] Existing Instance latin_cjk.

Definition base_ex : str := U "https://x.test/".

(** The five Steps, the goto resolved against [base_ex]. *)
Definition goto_resolved : Step := mk_target (U "goto") (U "https://x.test/login").
Definition click_ex : Step := mk_target (U "click") (U "#submit").
Definition fill_ex : Step := mk_value (U "fill") (U "#q, #search") (U "abc").
Definition assert_ex : Step := mk_target (U "assert_visible") (U "Welcome").
Definition shot_ex : Step := mk_shot (U "end").

Lemma cascading_skip_witness :
  nth_error
    (step_results
       (fst (snd (run_steps (E := env no_click) (U "TC-001") 0
                    ([goto_resolved; click_ex] ++ [fill_ex; assert_ex; shot_ex])
                    start_run init)))) 2
    = Some (skipped_result 2 fill_ex) /\
  exists r,
    nth_error
      (step_results
         (fst (snd (run_steps (E := env no_click) (U "TC-001") 0
                      ([goto_resolved; click_ex] ++ [shot_ex]) start_run init)))) 2
      = Some r /\
    sr_status r = U "passed".
Proof.
  destruct (run_steps (E := env no_click) (U "TC-001") 0 [goto_resolved; click_ex]
              start_run init) as [s1 [run1 ab]] eqn:Hpre.
  vm_compute in Hpre. inversion Hpre; subst s1 run1 ab. clear Hpre.
  split.
  - edestruct (cascading_skip (E := env no_click) (U "TC-001")
                 [goto_resolved; click_ex] fill_ex init) as [Hskip _].
    + vm_compute. reflexivity.
    + apply Exists_cons_tl, Exists_cons_hd. split; vm_compute; reflexivity.
    + destruct Hskip as [_ Hat]; [vm_compute; reflexivity|].
      apply (Hat [assert_ex; shot_ex]
               (fst (run_steps (E := env no_click) (U "TC-001") 0
                       ([goto_resolved; click_ex] ++ [fill_ex; assert_ex; shot_ex])
                       start_run init))
               _
               (snd (snd (run_steps (E := env no_click) (U "TC-001") 0
                            ([goto_resolved; click_ex] ++ [fill_ex; assert_ex; shot_ex])
                            start_run init)))).
      destruct (run_steps (E := env no_click) (U "TC-001") 0
                  ([goto_resolved; click_ex] ++ [fill_ex; assert_ex; shot_ex])
                  start_run init) as [sx [rx abx]].
      reflexivity.
  - edestruct (cascading_skip (E := env no_click) (U "TC-001")
                 [goto_resolved; click_ex] shot_ex init) as [_ Hexec].
    + vm_compute. reflexivity.
    + apply Exists_cons_tl, Exists_cons_hd. split; vm_compute; reflexivity.
    + destruct (Hexec (U "screenshot")) as (s2 & r & Hx & _ & Hat).
      * reflexivity.
      * vm_compute. reflexivity.
      * exists r. split.
        -- apply (Hat []
                    (fst (run_steps (E := env no_click) (U "TC-001") 0
                            ([goto_resolved; click_ex] ++ [shot_ex]) start_run init))
                    _
                    (snd (snd (run_steps (E := env no_click) (U "TC-001") 0
                                 ([goto_resolved; click_ex] ++ [shot_ex]) start_run init)))).
           destruct (run_steps (E := env no_click) (U "TC-001") 0
                       ([goto_resolved; click_ex] ++ [shot_ex]) start_run init)
             as [sx [rx abx]].
           reflexivity.
        -- vm_compute in Hx. inversion Hx. reflexivity.
Defined.

(** A case whose first Step is an assertion that fails: the click
    after it is executed, not skipped. *)
Definition assert_then_click : TestCase :=
  mk_case (U "TC-002") (U "Dashboard") []
    [mk_target (U "assert_url") (U "dashboard"); mk_target (U "click") (U "#go")] [].

Lemma failed_assertion_does_not_skip :
  exists s' res,
    run_test_case (E := env calm) assert_then_click [] false init = (s', inr res) /\
    map sr_action (r_steps res) = [U "assert_url"; U "click"] /\
    map sr_status (r_steps res) = [U "failed"; U "passed"] /\
    log s' = [Event (NewPage false);
              Event Url;
              Event (Screenshot (U "TC-002_step_00_FAIL.png"));
              Event (ClickFirst (U "#go") 10000);
              Event (WaitForLoadState (U "networkidle") 8000);
              Event (Screenshot (U "TC-002_step_01_click.png"));
              Event ClosePage].
Proof.
  eexists. eexists. split; [vm_compute; reflexivity|].
  repeat split.
Qed.

Lemma five_step_cascade_witness :
  exists s' res,
    run_test_case (E := env no_click) five_case base_ex false init = (s', inr res) /\
    map sr_status (r_steps res) =
      [U "passed"; U "failed"; U "skipped"; U "skipped"; U "passed"].
Proof.
  edestruct (five_step_cascade (E := env no_click) five_case base_ex false init
               (nm := U "Login") (t := U "/login")
               (g := mk_target (U "goto") (U "/login")) (g' := goto_resolved)
               (c := click_ex) (f := fill_ex) (a := assert_ex) (sh := shot_ex))
    as (res & r5 & Hrun & _ & Hst & _).
  - reflexivity.
  - reflexivity.
  - reflexivity.
  - reflexivity.
  - reflexivity.
  - reflexivity.
  - reflexivity.
  - reflexivity.
  - vm_compute. reflexivity.
  - vm_compute. reflexivity.
  - vm_compute. reflexivity.
  - vm_compute. reflexivity.
  - vm_compute. reflexivity.
  - vm_compute. reflexivity.
  - vm_compute. reflexivity.
  - vm_compute. reflexivity.
  - vm_compute. reflexivity.
  - eexists. exists res. split; [exact Hrun | exact Hst].
Defined.

Lemma summary_invariant_witness :
  exists s' out res,
    main (E := env no_click) None [] false false (Some base_ex) [five_case; five_case] init
      = (s', inr out) /\
    written out = Some res /\
    total (summary res) = 2 /\
    total (summary res) =
      passed (summary res) + failed (summary res) + skipped (summary res).
Proof.
  destruct (main (E := env no_click) None [] false false (Some base_ex)
              [five_case; five_case] init) as [s' [e|out]] eqn:H.
  - vm_compute in H. discriminate.
  - destruct (written out) as [res|] eqn:Hw.
    + destruct (summary_invariant _ _ _ _ _ _ _ H Hw) as (H1 & H2 & H3).
      exists s', out, res. repeat split; auto.
      rewrite H2, H3. reflexivity.
    + vm_compute in H. inversion H; subst. discriminate.
Defined.

Lemma case_status_two_valued_witness :
  exists s' r,
    run_test_case (E := env no_click) five_case base_ex false init = (s', inr r) /\
    r_status r <> U "skipped" /\
    exists s2 out res,
      main (E := env no_click) (Some (U "TC-001")) [] false false (Some base_ex)
        [five_case; assert_then_click] init = (s2, inr out) /\
      written out = Some res /\
      skipped (summary res) = 0.
Proof.
  destruct (case_status_two_valued (E := env no_click)) as [Hcase Hmain].
  destruct (run_test_case (E := env no_click) five_case base_ex false init)
    as [s' [e|r]] eqn:H.
  - vm_compute in H. discriminate.
  - exists s', r. split; [reflexivity|].
    split; [apply (Hcase _ _ _ _ _ _ H)|].
    destruct (main (E := env no_click) (Some (U "TC-001")) [] false false (Some base_ex)
                [five_case; assert_then_click] init) as [s2 [e|out]] eqn:Hm.
    + vm_compute in Hm. discriminate.
    + destruct (written out) as [res|] eqn:Hw.
      * exists s2, out, res. repeat split; auto.
        apply (Hmain _ _ _ _ _ _ _ _ _ _ Hm Hw).
      * vm_compute in Hm. inversion Hm; subst. discriminate.
Defined.

(** The executor navigates to the target of the Step as it is: a
    root-relative target is not joined to any base URL by
    [execute_step], which is not given one. *)
Lemma executor_does_not_join :
  log (fst (execute_step (E := env calm) (mk_target (U "goto") (U "/login"))
              (U "TC-001") 0 init)) =
    [Event (Goto (U "/login"));
     Event (WaitForLoadState (U "networkidle") 15000);
     Event (Screenshot (U "TC-001_step_00_goto.png"))] /\
  resolve_step base_ex (mk_target (U "goto") (U "/login")) = inr goto_resolved /\
  U "/login" <> U "https://x.test/login".
Proof.
  split; [vm_compute; reflexivity|].
  split; [vm_compute; reflexivity|].
  vm_compute. discriminate.
Qed.

Lemma goto_navigation_witness :
  (exists calls : list event,
     log (fst (execute_step (E := env calm) (mk_target (U "goto") (U "/login"))
                 (U "TC-001") 0 init)) =
     Event (Goto (U "/login")) ::
     Event (WaitForLoadState (U "networkidle") NAVIGATION_TIMEOUT_MS) :: calls) /\
  resolve_step base_ex (mk_target (U "goto") (U "/login")) = inr goto_resolved /\
  resolve_step base_ex goto_resolved = inr goto_resolved.
Proof.
  destruct (goto_navigation (E := env calm) (mk_target (U "goto") (U "/login"))
              (t := U "/login") eq_refl eq_refl) as [Hx Hr].
  destruct (goto_navigation (E := env calm) goto_resolved
              (t := U "https://x.test/login") eq_refl eq_refl) as [_ Hr2].
  split; [|split].
  - destruct (Hx (U "TC-001") 0 init) as (calls & Hlog & Hwait).
    destruct (Hwait 1) as [calls' Hc]; [reflexivity|].
    exists calls'. rewrite Hlog, Hc. reflexivity.
  - destruct (Hr base_ex) as [_ H2]. rewrite H2.
    + vm_compute. reflexivity.
    + vm_compute. reflexivity.
    + vm_compute. reflexivity.
  - destruct (Hr2 base_ex) as [H1 _]. apply H1. vm_compute. reflexivity.
Defined.

Lemma execute_step_contains_failures_witness :
  (exists s' r,
     execute_step (E := env no_click) click_ex (U "TC-001") 1 init = (s', inr r) /\
     sr_status r = U "failed" /\
     sr_error r = Some (U "Timeout 10000ms exceeded.") /\
     sr_screenshot r = Some (U "TC-001_step_01_FAIL.png")) /\
  (exists s' r,
     execute_step (E := env no_camera) click_ex (U "TC-001") 1 init = (s', inr r) /\
     sr_status r = U "failed" /\ sr_screenshot r = None) /\
  (exists s' r,
     execute_step (E := env calm) click_ex (U "TC-001") 1 init = (s', inr r) /\
     sr_status r = U "passed") /\
  fail_file (U "TC-001") 1 <> step_file (U "TC-001") 1 (U "click").
Proof.
  split; [|split; [|split]].
  - destruct (execute_step_contains_failures (E := env no_click) click_ex (U "TC-001") 1 init)
      as (_ & Hfail & _).
    destruct (attempt_of (E := env no_click) click_ex (U "TC-001") 1 init)
      as [s1 [e|shot]] eqn:Ha.
    + destruct (Hfail s1 e eq_refl) as (s' & r & Hx & Hst & Herr & _ & Hshot).
      exists s', r.
      split; [exact Hx|]. split; [exact Hst|].
      vm_compute in Ha. inversion Ha; subst s1 e. clear Ha.
      split; [exact Herr | exact Hshot].
    + vm_compute in Ha. discriminate.
  - destruct (execute_step_contains_failures (E := env no_camera) click_ex (U "TC-001") 1 init)
      as (_ & Hfail & _).
    destruct (attempt_of (E := env no_camera) click_ex (U "TC-001") 1 init)
      as [s1 [e|shot]] eqn:Ha.
    + destruct (Hfail s1 e eq_refl) as (s' & r & Hx & Hst & _ & _ & Hshot).
      exists s', r.
      split; [exact Hx|]. split; [exact Hst|].
      vm_compute in Ha. inversion Ha; subst s1 e. clear Ha.
      exact Hshot.
    + vm_compute in Ha. discriminate.
  - destruct (execute_step_contains_failures (E := env calm) click_ex (U "TC-001") 1 init)
      as (_ & _ & Hpass & _).
    destruct (attempt_of (E := env calm) click_ex (U "TC-001") 1 init)
      as [s1 [e|shot]] eqn:Ha.
    + vm_compute in Ha. discriminate.
    + destruct (Hpass s1 shot eq_refl) as (r & Hx & Hst & _).
      exists s1, r. split; auto.
  - destruct (execute_step_contains_failures (E := env calm) click_ex (U "TC-001") 1 init)
      as (_ & _ & _ & Hd).
    apply Hd. vm_compute. auto.
Defined.

End RunTestsWitness.

(* ------------------------------------------------------------------ *)
(** * What a computation adds to the log *)
(* ------------------------------------------------------------------ *)

Module LogFacts.
Import RunTests ExecFacts.

(** Calls that click, and calls that fill. *)
Definition is_click (e : event) : bool :=
  match e with
  | Event (ClickFirst _ _) => true
  | Event (ClickNth _ _ _) => true
  | _ => false
  end.

Definition is_fill (e : event) : bool :=
  match e with
  | Event (FillFirst _ _ _) => true
  | _ => false
  end.

Definition count (p : event -> bool) (l : list event) : nat := length (filter p l).

Lemma count_app (p : event -> bool) (l1 l2 : list event) :
  count p (l1 ++ l2) = count p l1 + count p l2.
Proof. unfold count. rewrite filter_app, length_app. reflexivity. Qed.

Section WithEnv.
Context {W : Type} {E : Env W} {UD : Unicode}.

(** [adds P c]: whatever [c] does, it leaves the log it found and
    appends calls [l] with [P l]. *)
Definition adds {A : Type} (P : list event -> Prop) (c : M W A) : Prop :=
  forall s s' r, c s = (s', r) -> exists l, log s' = log s ++ l /\ P l.

Definition at_most (p : event -> bool) (n : nat) (l : list event) : Prop :=
  count p l <= n.

Lemma adds_weaken {A : Type} (P Q : list event -> Prop) (c : M W A) :
  (forall l, P l -> Q l) -> adds P c -> adds Q c.
Proof.
  intros HPQ Hc s s' r H. destruct (Hc _ _ _ H) as [l [Hl HP]]. eauto.
Qed.

Lemma adds_mret {A : Type} (p : event -> bool) (a : A) : adds (at_most p 0) (mret a).
Proof.
  intros s s' r H. unfold mret in H. inversion H; subst.
  exists []. rewrite app_nil_r. split; [reflexivity | apply Nat.le_refl].
Qed.

Lemma adds_raise {A : Type} (p : event -> bool) (e : exn) :
  adds (at_most p 0) (raise (A := A) e).
Proof.
  intros s s' r H. unfold raise in H. inversion H; subst.
  exists []. rewrite app_nil_r. split; [reflexivity | apply Nat.le_refl].
Qed.

Lemma adds_lift {A : Type} (p : event -> bool) (x : res A) : adds (at_most p 0) (lift x).
Proof.
  intros s s' r H. unfold lift in H. inversion H; subst.
  exists []. rewrite app_nil_r. split; [reflexivity | apply Nat.le_refl].
Qed.

Lemma adds_do {A : Type} (p : event -> bool) (c : call A) :
  adds (at_most p (if p (Event c) then 1 else 0)) (do_ c).
Proof.
  intros s s' r H. unfold do_ in H.
  destruct (answer c (world s)) as [w' r']. inversion H; subst. cbn [log].
  exists [Event c]. split; [reflexivity|].
  unfold at_most, count. cbn [filter]. destruct (p (Event c)); apply Nat.le_refl.
Qed.

Lemma adds_mbind {A B : Type} (p : event -> bool) (n k : nat)
    (c : M W A) (f : A -> M W B) :
  adds (at_most p n) c -> (forall a, adds (at_most p k) (f a)) ->
  adds (at_most p (n + k)) (mbind c f).
Proof.
  intros Hc Hf s s' r H. unfold mbind in H.
  destruct (c s) as [s1 [e|a]] eqn:Ec.
  - inversion H; subst. destruct (Hc _ _ _ Ec) as [l [Hl Hn]].
    exists l. split; [exact Hl|]. unfold at_most in *. lia.
  - destruct (Hc _ _ _ Ec) as [l1 [Hl1 Hn1]].
    destruct (Hf a _ _ _ H) as [l2 [Hl2 Hn2]].
    exists (l1 ++ l2). rewrite Hl2, Hl1, app_assoc. split; [reflexivity|].
    unfold at_most in *. rewrite count_app. lia.
Qed.

Lemma adds_try {A : Type} (p : event -> bool) (n k : nat)
    (c : M W A) (h : exn -> M W A) :
  adds (at_most p n) c -> (forall e, adds (at_most p k) (h e)) ->
  adds (at_most p (n + k)) (try_ c h).
Proof.
  intros Hc Hh s s' r H. unfold try_ in H.
  destruct (c s) as [s1 [e|a]] eqn:Ec.
  - destruct (Hc _ _ _ Ec) as [l1 [Hl1 Hn1]].
    destruct (Hh e _ _ _ H) as [l2 [Hl2 Hn2]].
    exists (l1 ++ l2). rewrite Hl2, Hl1, app_assoc. split; [reflexivity|].
    unfold at_most in *. rewrite count_app. lia.
  - inversion H; subst. destruct (Hc _ _ _ Ec) as [l [Hl Hn]].
    exists l. split; [exact Hl|]. unfold at_most in *. lia.
Qed.

Lemma adds_le {A : Type} (p : event -> bool) (n k : nat) (c : M W A) :
  n <= k -> adds (at_most p n) c -> adds (at_most p k) c.
Proof.
  intros Hle. apply adds_weaken. unfold at_most. intros l Hl. lia.
Qed.

Lemma adds_if {A : Type} (P : list event -> Prop) (b : bool) (c1 c2 : M W A) :
  adds P c1 -> adds P c2 -> adds P (if b then c1 else c2).
Proof. destruct b; auto. Qed.

(** A call that neither clicks nor fills. *)
Lemma adds_do_0 {A : Type} (p : event -> bool) (c : call A) :
  p (Event c) = false -> adds (at_most p 0) (do_ c).
Proof.
  intros H. pose proof (adds_do p c) as Hd. rewrite H in Hd. exact Hd.
Qed.

(** *** The retries of a click and of a fill *)

Lemma probe_clicks (selector : str) (indices : list nat) :
  adds (at_most is_click (length indices)) (probe selector indices).
Proof.
  induction indices as [|i indices IH]; cbn [probe length].
  - apply adds_mret.
  - change (S (length indices)) with (1 + length indices).
    apply adds_try; [|intros e; exact IH].
    change 1 with (1 + 0).
    apply adds_mbind; [apply (adds_do is_click (ClickNth selector i 3000))|].
    intros a. apply adds_mret.
Qed.

Lemma probe_fills (selector : str) (indices : list nat) :
  adds (at_most is_fill 0) (probe selector indices).
Proof.
  induction indices as [|i indices IH]; cbn [probe].
  - apply adds_mret.
  - change 0 with (0 + 0). apply adds_try; [|intros e; exact IH].
    change 0 with (0 + 0).
    apply adds_mbind; [apply adds_do_0; reflexivity|].
    intros a. apply adds_mret.
Qed.

Lemma fill_any_fills (selectors : list str) (value : str) :
  adds (at_most is_fill (length selectors)) (fill_any selectors value).
Proof.
  induction selectors as [|sel selectors IH]; cbn [fill_any length].
  - apply adds_mret.
  - change (S (length selectors)) with (1 + length selectors).
    apply adds_try; [|intros e; exact IH].
    change 1 with (0 + (1 + 0)).
    apply adds_mbind; [apply adds_do_0; reflexivity|].
    intros a. apply adds_mbind; [apply (adds_do is_fill (FillFirst sel value 5000))|].
    intros b. apply adds_mret.
Qed.

Lemma fill_any_clicks (selectors : list str) (value : str) :
  adds (at_most is_click 0) (fill_any selectors value).
Proof.
  induction selectors as [|sel selectors IH]; cbn [fill_any].
  - apply adds_mret.
  - change 0 with (0 + 0). apply adds_try; [|intros e; exact IH].
    change 0 with (0 + (0 + 0)).
    apply adds_mbind; [apply adds_do_0; reflexivity|].
    intros a. apply adds_mbind; [apply adds_do_0; reflexivity|].
    intros b. apply adds_mret.
Qed.

Lemma number_or_adds (p : event -> bool) (target : str) (default : N) :
  adds (at_most p 0) (number_or target default).
Proof.
  unfold number_or. destruct (isdigit target); [|apply adds_mret].
  destruct (int target); [apply adds_mret | apply adds_raise].
Qed.

End WithEnv.

End LogFacts.

Module BoundFacts.
Import RunTests ExecFacts LogFacts.

Section WithEnv.
Context {W : Type} {E : Env W} {UD : Unicode}.

Lemma adds_if_sum {A : Type} (p : event -> bool) (n k : nat) (b : bool) (c1 c2 : M W A) :
  adds (at_most p n) c1 -> adds (at_most p k) c2 ->
  adds (at_most p (n + k)) (if b then c1 else c2).
Proof.
  intros H1 H2. destruct b.
  - eapply adds_le; [|exact H1]. lia.
  - eapply adds_le; [|exact H2]. lia.
Qed.

Lemma adds_do_1 {A : Type} (p : event -> bool) (c : call A) :
  adds (at_most p 1) (do_ c).
Proof.
  eapply adds_le; [|apply adds_do]. destruct (p (Event c)); lia.
Qed.

(** The later matches probed after a click has failed are at most
    four. *)
Lemma probe_at_most_4 (selector : str) (n : nat) :
  adds (at_most is_click 4) (probe selector (seq 1 (Nat.min n 5 - 1))).
Proof.
  eapply adds_le; [|apply probe_clicks]. rewrite length_seq. lia.
Qed.

End WithEnv.

(** Counting the calls of a computation, by its shape. *)
Ltac count_call :=
  first [eapply adds_do_0; reflexivity | eapply adds_do_1].

Ltac count_calls :=
  lazymatch goal with
  | |- adds _ (mbind _ _) => eapply adds_mbind; [count_calls | intro; cbv beta; count_calls]
  | |- adds _ (try_ _ _) => eapply adds_try; [count_calls | intro; cbv beta; count_calls]
  | |- adds _ (if _ then _ else _) => eapply adds_if_sum; count_calls
  | |- adds _ (do_ _) => count_call
  | |- adds _ (mret _) => eapply adds_mret
  | |- adds _ (raise _) => eapply adds_raise
  | |- adds _ (lift _) => eapply adds_lift
  | |- adds _ (number_or _ _) => eapply number_or_adds
  | |- adds (at_most is_click _) (probe _ _) => eapply probe_at_most_4
  | |- adds (at_most is_fill _) (probe _ _) => eapply probe_fills
  | |- adds (at_most is_click _) (fill_any _ _) => eapply fill_any_clicks
  | |- adds (at_most is_fill _) (fill_any _ _) => eapply fill_any_fills
  end.

Section Bounds.
Context {W : Type} {E : Env W} {UD : Unicode}.

Lemma act_clicks (action target value name : str) :
  adds (at_most is_click 5) (act action target value name).
Proof.
  unfold act.
  repeat (apply adds_if;
          [eapply adds_le; cycle 1; [count_calls | cbn; lia]|]).
  eapply adds_le; cycle 1; [count_calls | cbn; lia].
Qed.

Lemma act_fills (action target value name : str) :
  adds (at_most is_fill (length (PyStr.split "," target) + 1))
       (act action target value name).
Proof.
  unfold act.
  repeat (apply adds_if;
          [eapply adds_le; cycle 1; [count_calls | cbn; rewrite ?length_map; lia]|]).
  eapply adds_le; cycle 1; [count_calls | cbn; lia].
Qed.

Lemma attempt_clicks (tc_id : str) (step_idx : nat) (action target value name : str) :
  adds (at_most is_click 5) (attempt tc_id step_idx action target value name).
Proof.
  unfold attempt.
  eapply adds_le; cycle 1.
  - eapply adds_mbind; [apply act_clicks|].
    intros early. instantiate (1 := 0). destruct early.
    + apply adds_mret.
    + change 0 with (0 + 0).
      eapply adds_mbind; [apply adds_do_0; reflexivity | intro; apply adds_mret].
  - lia.
Qed.

Lemma attempt_fills (tc_id : str) (step_idx : nat) (action target value name : str) :
  adds (at_most is_fill (length (PyStr.split "," target) + 1))
       (attempt tc_id step_idx action target value name).
Proof.
  unfold attempt.
  eapply adds_le; cycle 1.
  - eapply adds_mbind; [apply act_fills|].
    intros early. instantiate (1 := 0). destruct early.
    + apply adds_mret.
    + change 0 with (0 + 0).
      eapply adds_mbind; [apply adds_do_0; reflexivity | intro; apply adds_mret].
  - lia.
Qed.

Lemma execute_step_clicks (step : Step) (tc_id : str) (step_idx : nat) :
  adds (at_most is_click 5) (execute_step step tc_id step_idx).
Proof.
  unfold execute_step, rescue. cbv zeta.
  eapply adds_le; cycle 1.
  - eapply adds_try.
    + eapply adds_mbind; [apply attempt_clicks | intro; cbv beta; count_calls].
    + intros e. count_calls.
  - cbn. lia.
Qed.

Lemma execute_step_fills (step : Step) (tc_id : str) (step_idx : nat) :
  adds (at_most is_fill (length (PyStr.split "," (target_of step)) + 1))
       (execute_step step tc_id step_idx).
Proof.
  unfold execute_step, rescue. cbv zeta.
  eapply adds_le; cycle 1.
  - eapply adds_try.
    + eapply adds_mbind; [apply attempt_fills | intro; cbv beta; count_calls].
    + intros e. count_calls.
  - unfold target_of. cbn. lia.
Qed.

End Bounds.

End BoundFacts.

(* ------------------------------------------------------------------ *)
(** * More on the case runner *)
(* ------------------------------------------------------------------ *)

Module CoherenceFacts.
Import RunTests ExecFacts RunFacts.

Definition st_passed (r : StepResult) : Prop := sr_status r = U "passed".
Definition st_failed (r : StepResult) : Prop := sr_status r = U "failed".
Definition st_skipped (r : StepResult) : Prop := sr_status r = U "skipped".

Definition skip_reason : str := U "Skipped: prior step failed".

(** The error of the first failed StepResult that has an error text. *)
Definition has_error (r : StepResult) : bool :=
  str_eqb (sr_status r) (U "failed") && negb (falsy (sr_error r)).

Definition first_error (l : list StepResult) : option str :=
  match find has_error l with
  | Some r => sr_error r
  | None => None
  end.

Lemma app_one_split (A : Type) (l pre post : list A) (r x : A) :
  l ++ [r] = pre ++ x :: post ->
  (pre = l /\ x = r /\ post = []) \/
  (exists post', post = post' ++ [r] /\ l = pre ++ x :: post').
Proof.
  revert pre. induction l as [|y l IH]; intros pre H.
  - destruct pre as [|z pre]; simpl in H.
    + inversion H; subst. left. auto.
    + inversion H. destruct pre; discriminate.
  - destruct pre as [|z pre]; simpl in H.
    + inversion H; subst. right. exists l. auto.
    + inversion H; subst. destruct (IH _ H2) as [[-> [-> ->]]|[post' [-> ->]]].
      * left. auto.
      * right. exists post'. auto.
Qed.

Lemma passed_not_failed : U "passed" <> U "failed".
Proof. vm_compute. discriminate. Qed.

Lemma skipped_not_failed : U "skipped" <> U "failed".
Proof. vm_compute. discriminate. Qed.

Lemma passed_not_skipped : U "passed" <> U "skipped".
Proof. vm_compute. discriminate. Qed.

Lemma find_app_one (A : Type) (p : A -> bool) (l : list A) (r : A) :
  find p (l ++ [r]) =
  match find p l with
  | Some x => Some x
  | None => if p r then Some r else None
  end.
Proof.
  induction l as [|y l IH]; simpl.
  - reflexivity.
  - destruct (p y); auto.
Qed.

Section WithEnv.
Context {W : Type} {E : Env W} {UD : Unicode}.

(** What a result of [execute_step] holds. *)
Lemma execute_step_echo (step : Step) (tc_id : str) (step_idx : nat)
    (s s' : St W) (r : StepResult) :
  execute_step step tc_id step_idx s = (s', inr r) ->
  sr_index r = step_idx /\ sr_action r = action_of step /\
  sr_target r = target_of step /\ sr_value r = value_of step /\
  ((st_passed r /\ sr_error r = None /\ exists shot, sr_screenshot r = Some shot) \/
   (st_failed r /\ exists msg, sr_error r = Some msg)).
Proof.
  intros H.
  destruct (attempt_of step tc_id step_idx s) as [s1 [e|shot]] eqn:Ha.
  - destruct (execute_step_failed _ _ _ _ Ha) as [s2 [sh [_ Hx]]].
    rewrite Hx in H. inversion H; subst. cbn. repeat split; auto.
    right. split; [reflexivity | eauto].
  - rewrite (execute_step_passed _ _ _ _ Ha) in H.
    inversion H; subst. cbn. repeat split; auto.
    left. repeat split; eauto.
Qed.

(** What the loop keeps true of its variables. *)
Record coherent (run : Run) : Prop := {
  coh_passed :
    tc_status run = U "passed" ->
    Forall st_passed (step_results run) /\ tc_error run = None /\
    interaction_failed run = false;
  coh_failed : tc_status run = U "failed" -> tc_error run <> None;
  coh_exists : Exists st_failed (step_results run) <-> tc_status run = U "failed";
  coh_skip :
    forall pre r post,
      step_results run = pre ++ r :: post -> st_skipped r ->
      Exists halting pre /\ sr_error r = Some skip_reason /\ sr_screenshot r = None;
  coh_error : forall e, first_error (step_results run) = Some e -> tc_error run = Some e;
  coh_quiet : first_error (step_results run) = None -> falsy (tc_error run) = true
}.

Lemma start_run_coherent : coherent start_run.
Proof.
  split; cbn.
  - auto.
  - intros H. exfalso. apply passed_not_failed, H.
  - split; intros H; [inversion H | exfalso; apply passed_not_failed, H].
  - intros pre r post H. destruct pre; discriminate.
  - discriminate.
  - reflexivity.
Qed.

Lemma skip_result_coherent (idx : nat) (step : Step) (run : Run) :
  sound run -> interaction_failed run = true -> coherent run ->
  coherent (skip_result idx step run).
Proof.
  intros Hsound Hflag Hc.
  assert (Hfailed : tc_status run = U "failed").
  { destruct (sound_status Hsound) as [Hp|Hf]; [|exact Hf].
    destruct (coh_passed Hc Hp) as (_ & _ & Hff). congruence. }
  split; cbn [skip_result step_results tc_status tc_error interaction_failed].
  - intros Hp. exfalso. apply passed_not_failed. congruence.
  - apply (coh_failed Hc).
  - rewrite Exists_app, (coh_exists Hc).
    split; [intros _; exact Hfailed | intros _; left; exact Hfailed].
  - intros pre r post Heq Hs.
    apply app_one_split in Heq as [[-> [-> ->]]|[post' [-> Heq]]].
    + split; [apply (sound_flag Hsound), Hflag | split; reflexivity].
    + eapply (coh_skip Hc); eauto.
  - intros e He. apply (coh_error Hc).
    unfold first_error in *. rewrite find_app_one in He.
    destruct (find has_error (step_results run)); [exact He|].
    cbn in He. discriminate.
  - intros He. apply (coh_quiet Hc).
    unfold first_error in *. rewrite find_app_one in He.
    destruct (find has_error (step_results run)); [exact He | reflexivity].
Qed.

Lemma falsy_some (o : option str) : falsy o = false -> exists c m, o = Some (c :: m).
Proof. destruct o as [[|c m]|]; try discriminate. eauto. Qed.

Lemma record_result_coherent (a : str) (r : StepResult) (run : Run) :
  (st_passed r /\ sr_error r = None) \/ (st_failed r /\ exists msg, sr_error r = Some msg) ->
  sound run -> coherent run -> coherent (record_result a r run).
Proof.
  intros Hr Hsound Hc. unfold record_result.
  destruct Hr as [[Hp Herr]|[Hf [msg Herr]]].
  - (* a passed result *)
    unfold st_passed in Hp. rewrite Hp.
    replace (str_eqb (U "passed") (U "failed")) with false by reflexivity.
    assert (Hno : has_error r = false).
    { unfold has_error. rewrite Hp. reflexivity. }
    split; cbn [step_results tc_status tc_error interaction_failed].
    + intros Hst. destruct (coh_passed Hc Hst) as (Hall & He & Hff).
      repeat split; auto. apply Forall_app. split; auto.
    + apply (coh_failed Hc).
    + rewrite Exists_app, (coh_exists Hc). split; auto.
      intros [H|H]; auto. inversion H; subst.
      * unfold st_failed in H1. exfalso. apply passed_not_failed. congruence.
      * inversion H1.
    + intros pre x post Heq Hs.
      apply app_one_split in Heq as [[-> [-> ->]]|[post' [-> Heq]]].
      * unfold st_skipped in Hs. exfalso. apply passed_not_skipped. congruence.
      * eapply (coh_skip Hc); eauto.
    + intros e He. apply (coh_error Hc).
      unfold first_error in *. rewrite find_app_one, Hno in He.
      destruct (find has_error (step_results run)); [exact He | discriminate].
    + intros He. apply (coh_quiet Hc).
      unfold first_error in *. rewrite find_app_one, Hno in He.
      destruct (find has_error (step_results run)); [exact He | reflexivity].
  - (* a failed result *)
    unfold st_failed in Hf. rewrite Hf.
    replace (str_eqb (U "failed") (U "failed")) with true by reflexivity.
    split; cbn [step_results tc_status tc_error interaction_failed].
    + intros Hst. exfalso. apply passed_not_failed. congruence.
    + intros _. destruct (falsy (tc_error run)) eqn:Efal.
      * rewrite Herr. discriminate.
      * destruct (falsy_some _ Efal) as (c & m & ->). discriminate.
    + split; auto. intros _. apply Exists_app. right. constructor. exact Hf.
    + intros pre x post Heq Hs.
      apply app_one_split in Heq as [[-> [-> ->]]|[post' [-> Heq]]].
      * unfold st_skipped in Hs. exfalso. apply skipped_not_failed. congruence.
      * eapply (coh_skip Hc); eauto.
    + intros e He. unfold first_error in He. rewrite find_app_one in He.
      destruct (find has_error (step_results run)) as [x|] eqn:Efind.
      * assert (Hold : tc_error run = Some e).
        { apply (coh_error Hc). unfold first_error. rewrite Efind. exact He. }
        rewrite Hold.
        apply find_some in Efind as [_ Hx]. unfold has_error in Hx.
        apply andb_true_iff in Hx as [_ Hx]. rewrite He in Hx.
        destruct (falsy (Some e)); [discriminate | reflexivity].
      * assert (Hq : falsy (tc_error run) = true).
        { apply (coh_quiet Hc). unfold first_error. rewrite Efind. reflexivity. }
        rewrite Hq. destruct (has_error r); [exact He | discriminate].
    + intros He. unfold first_error in He. rewrite find_app_one in He.
      destruct (find has_error (step_results run)) as [x|] eqn:Efind.
      * exfalso. apply find_some in Efind as [_ Hx]. unfold has_error in Hx.
        apply andb_true_iff in Hx as [_ Hx]. rewrite He in Hx. discriminate.
      * assert (Hq : falsy (tc_error run) = true).
        { apply (coh_quiet Hc). unfold first_error. rewrite Efind. reflexivity. }
        rewrite Hq. unfold has_error in He. rewrite Hf in He.
        replace (str_eqb (U "failed") (U "failed")) with true in He by reflexivity.
        cbn [andb] in He.
        destruct (falsy (sr_error r)) eqn:Er; [reflexivity|].
        cbn in He. rewrite Herr in He. discriminate.
Qed.

Lemma run_step_coherent (tc_id : str) (idx : nat) (step : Step) (run run' : Run)
    (s s' : St W) :
  run_step tc_id idx step run s = (s', inr run') ->
  sound run -> coherent run -> coherent run'.
Proof.
  intros H Hs Hc.
  apply run_step_cases in H as [[_ [-> [Hflag _]]]|[r [Hx ->]]].
  - apply skip_result_coherent; assumption.
  - apply record_result_coherent; auto.
    apply execute_step_echo in Hx as (_ & _ & _ & _ & [(Hp & He & _)|(Hf & He)]); auto.
Qed.

Lemma run_steps_coherent (tc_id : str) (steps : list Step) :
  forall (idx : nat) (run run' : Run) (s s' : St W) (ab : option exn),
    run_steps tc_id idx steps run s = (s', (run', ab)) ->
    sound run -> coherent run -> coherent run'.
Proof.
  induction steps as [|step steps IH]; intros idx run run' s s' ab H Hs Hc.
  - simpl in H. inversion H; subst. exact Hc.
  - simpl in H. destruct (run_step tc_id idx step run s) as [s1 [e|run1]] eqn:E1.
    + inversion H; subst. exact Hc.
    + eapply IH; eauto.
      * eapply run_step_sound; eauto.
      * eapply run_step_coherent; eauto.
Qed.

End WithEnv.

End CoherenceFacts.

Module OrderFacts.
Import RunTests ExecFacts RunFacts CoherenceFacts.

(** A StepResult that echoes the Step at place [idx]. *)
Definition echoes (idx : nat) (step : Step) (r : StepResult) : Prop :=
  sr_index r = idx /\ sr_action r = action_of step /\
  sr_target r = target_of step /\ sr_value r = value_of step.

Definition has_action (step : Step) : Prop := action step <> None.

Section WithEnv.
Context {W : Type} {E : Env W} {UD : Unicode}.

Lemma run_step_echo (tc_id : str) (idx : nat) (step : Step) (run run' : Run)
    (s s' : St W) :
  run_step tc_id idx step run s = (s', inr run') ->
  exists r, step_results run' = step_results run ++ [r] /\ echoes idx step r.
Proof.
  intros H. apply run_step_cases in H as [[_ [-> _]]|[r [Hx ->]]].
  - eexists. split; [reflexivity|]. repeat split.
  - exists r. split.
    + unfold record_result. destruct (str_eqb (sr_status r) (U "failed")); reflexivity.
    + apply execute_step_echo in Hx as (H1 & H2 & H3 & H4 & _). repeat split; auto.
Qed.

Lemma run_steps_echo (tc_id : str) (steps : list Step) :
  forall (idx : nat) (run run' : Run) (s s' : St W) (ab : option exn),
    run_steps tc_id idx steps run s = (s', (run', ab)) ->
    exists more,
      step_results run' = step_results run ++ more /\
      length more <= length steps /\
      (ab = None -> length more = length steps) /\
      forall i r, nth_error more i = Some r ->
        exists step, nth_error steps i = Some step /\ echoes (idx + i) step r.
Proof.
  induction steps as [|step steps IH]; intros idx run run' s s' ab H.
  - simpl in H. inversion H; subst. exists []. rewrite app_nil_r.
    repeat split; auto. intros [|i] r Hn; discriminate.
  - simpl in H. destruct (run_step tc_id idx step run s) as [s1 [e|run1]] eqn:E1.
    + inversion H; subst. exists []. rewrite app_nil_r.
      repeat split; simpl; try lia; try discriminate.
      intros [|i] r Hn; discriminate.
    + destruct (run_step_echo _ _ _ _ _ E1) as [r0 [Hr0 He0]].
      destruct (IH _ _ _ _ _ _ H) as (more & Hm & Hle & Hlen & Hnth).
      exists (r0 :: more). rewrite Hm, Hr0, <- app_assoc.
      split; [reflexivity|]. split; [simpl; lia|].
      split; [intros Hab; simpl; rewrite Hlen; auto|].
      intros [|i] r Hn; simpl in Hn.
      * inversion Hn; subst. exists step. rewrite Nat.add_0_r. split; auto.
      * destruct (Hnth _ _ Hn) as (st & Hst & Hech).
        exists st. split; [exact Hst|].
        replace (idx + S i) with (S idx + i) by lia. exact Hech.
Qed.

(** When every Step has an action, no turn of the loop raises. *)
Lemma run_step_returns (tc_id : str) (idx : nat) (step : Step) (run : Run) (s : St W) :
  has_action step -> exists s' run', run_step tc_id idx step run s = (s', inr run').
Proof.
  intros Ha. unfold has_action in Ha.
  destruct (action step) as [a|] eqn:Hact; [|congruence].
  destruct (interaction_failed run && str_in a skipped_actions) eqn:Hc.
  - apply andb_true_iff in Hc as [Hf Hs].
    rewrite run_step_skip; eauto. unfold action_of. rewrite Hact. exact Hs.
  - destruct (run_step_exec tc_id idx step run s Hact Hc) as (s' & r & _ & Hr). eauto.
Qed.

Lemma run_steps_no_abort (tc_id : str) (steps : list Step) :
  Forall has_action steps ->
  forall (idx : nat) (run run' : Run) (s s' : St W) (ab : option exn),
    run_steps tc_id idx steps run s = (s', (run', ab)) -> ab = None.
Proof.
  induction steps as [|step steps IH]; intros Hall idx run run' s s' ab H.
  - simpl in H. inversion H; reflexivity.
  - inversion Hall; subst. simpl in H.
    destruct (run_step_returns tc_id idx run s H2) as (s1 & run1 & Hr).
    rewrite Hr in H. eapply IH; eauto.
Qed.

(** The loop stops at the first Step without an action: the Steps
    after it are not run, and the results are those of the Steps
    before it. *)
Lemma run_steps_abort (tc_id : str) (pre post : list Step) (bad : Step)
    (s s1 : St W) (run1 : Run) :
  run_steps tc_id 0 pre start_run s = (s1, (run1, None)) ->
  action bad = None ->
  run_steps tc_id 0 (pre ++ bad :: post) start_run s =
    (s1, (run1, Some (KeyError "action"))).
Proof.
  intros Hpre Hbad. rewrite run_steps_app, Hpre. cbn [run_steps].
  rewrite run_step_no_action by exact Hbad. reflexivity.
Qed.

End WithEnv.

End OrderFacts.

(* ------------------------------------------------------------------ *)
(** * Resolving the targets of goto Steps *)
(* ------------------------------------------------------------------ *)

Module ResolveFacts.
Import RunTests ExecFacts RunFacts.

Definition slash : N := 47.

Lemma lstrip_by_split (p : N -> bool) (s : str) :
  exists pre, s = pre ++ lstrip_by p s /\ forallb p pre = true /\
              (forall c, hd_error (lstrip_by p s) = Some c -> p c = false).
Proof.
  induction s as [|c s (pre & Heq & Hall & Hhd)]; simpl.
  - exists []. repeat split. intros c H. discriminate.
  - destruct (p c) eqn:Ec.
    + exists (c :: pre). simpl. rewrite Ec, Hall. split; [congruence | auto].
    + exists []. repeat split. intros c' H. simpl in H. congruence.
Qed.

Lemma lstrip_by_app_keep (p : N -> bool) (a b : str) :
  (forall c, hd_error b = Some c -> p c = false) ->
  lstrip_by p (a ++ b) = lstrip_by p a ++ b.
Proof.
  intros Hb. induction a as [|x a IH]; simpl.
  - destruct b as [|c b]; [reflexivity|]. simpl. rewrite (Hb c); reflexivity.
  - destruct (p x); [exact IH | reflexivity].
Qed.

(** Stripping on the right keeps a prefix that does not end with a
    stripped character. *)
Lemma rstrip_by_app_keep (p : N -> bool) (pre t : str) :
  (forall c, hd_error (rev pre) = Some c -> p c = false) ->
  rstrip_by p (pre ++ t) = pre ++ rstrip_by p t.
Proof.
  intros H. unfold rstrip_by. rewrite rev_app_distr.
  rewrite lstrip_by_app_keep by exact H.
  rewrite rev_app_distr, rev_involutive. reflexivity.
Qed.

Lemma rstrip_by_split (p : N -> bool) (s : str) :
  exists suf, s = rstrip_by p s ++ suf /\ forallb p suf = true /\
              (forall c, hd_error (rev (rstrip_by p s)) = Some c -> p c = false).
Proof.
  unfold rstrip_by.
  destruct (lstrip_by_split p (rev s)) as (pre & Heq & Hall & Hhd).
  exists (rev pre). repeat split.
  - rewrite <- rev_app_distr, <- Heq, rev_involutive. reflexivity.
  - rewrite forallb_forall in *. intros x Hx. apply Hall. apply in_rev. exact Hx.
  - rewrite rev_involutive. exact Hhd.
Qed.

Lemma startswith_app (pre t : str) : startswith pre (pre ++ t) = true.
Proof.
  induction pre as [|x pre IH]; simpl; [reflexivity|].
  rewrite N.eqb_refl. exact IH.
Qed.

Lemma startswith_split (pre s : str) :
  startswith pre s = true -> exists t, s = pre ++ t.
Proof.
  revert s. induction pre as [|x pre IH]; intros s H.
  - exists s. reflexivity.
  - destruct s as [|y s]; [discriminate|]. simpl in H.
    apply andb_true_iff in H as [H1 H2]. apply N.eqb_eq in H1. subst y.
    destruct (IH _ H2) as [t ->]. exists t. reflexivity.
Qed.

(** A base URL that starts with [http] still does once its final
    slashes are stripped. *)
Lemma rstrip_keeps_http (base_url : str) :
  startswith (U "http") base_url = true ->
  startswith (U "http") (rstrip_chars (U "/") base_url) = true.
Proof.
  intros H. apply startswith_split in H as [t ->].
  unfold rstrip_chars. rewrite rstrip_by_app_keep.
  - apply startswith_app.
  - intros c Hc. vm_compute in Hc. inversion Hc; subst. reflexivity.
Qed.

Lemma forallb_repeat (p : N -> bool) (l : str) (c : N) :
  (forall x, p x = true -> x = c) -> forallb p l = true -> l = repeat c (length l).
Proof.
  intros Hp. induction l as [|x l IH]; simpl; intros H; [reflexivity|].
  apply andb_true_iff in H as [H1 H2]. rewrite (Hp _ H1). f_equal. auto.
Qed.

Lemma is_slash (x : N) : mem x (U "/") = true -> x = slash.
Proof.
  unfold mem. simpl. rewrite orb_false_r. intros H. apply N.eqb_eq in H. exact H.
Qed.

Definition runnable (st : Step) : Prop :=
  action st <> None /\ (action_is st "goto" = true -> target st <> None).

Definition absolute (st : Step) : Prop :=
  action_is st "goto" = true ->
  exists t, target st = Some t /\ startswith (U "http") t = true.

(** The relation between a Step and its resolved copy. *)
Definition resolved_from (base_url : str) (st st' : Step) : Prop :=
  action st' = action st /\ value st' = value st /\ name st' = name st /\
  (action_is st "goto" = false -> st' = st) /\
  (action_is st "goto" = true ->
   exists t, target st = Some t /\
     target st' = Some
       (if startswith (U "http") t then t
        else if startswith (U "/") t
             then rstrip_chars (U "/") base_url ++ U "/" ++ lstrip_chars (U "/") t
             else rstrip_chars (U "/") base_url ++ U "/")).

Lemma resolve_step_spec (base_url : str) (st st' : Step) :
  resolve_step base_url st = inr st' -> resolved_from base_url st st'.
Proof.
  unfold resolve_step, resolved_from. destruct (action_is st "goto") eqn:Eg.
  - destruct (target st) as [t|] eqn:Et; cbn [item bind]; [|discriminate].
    intros H.
    assert (Hst : st' =
              if startswith (U "http") t then st
              else with_target st
                     (if startswith (U "/") t
                      then rstrip_chars (U "/") base_url ++ U "/" ++ lstrip_chars (U "/") t
                      else rstrip_chars (U "/") base_url ++ U "/")).
    { destruct (startswith (U "http") t); [|destruct (startswith (U "/") t)];
        inversion H; reflexivity. }
    clear H. subst st'.
    split; [destruct (startswith (U "http") t); reflexivity|].
    split; [destruct (startswith (U "http") t); reflexivity|].
    split; [destruct (startswith (U "http") t); reflexivity|].
    split; [discriminate|].
    intros _. exists t. split; [reflexivity|].
    destruct (startswith (U "http") t); [exact Et | reflexivity].
  - intros H. inversion H; subst. repeat split; auto. discriminate.
Qed.

Lemma resolve_step_error (base_url : str) (st : Step) (e : exn) :
  resolve_step base_url st = inl e ->
  e = KeyError "target" /\ action_is st "goto" = true /\ target st = None.
Proof.
  unfold resolve_step. destruct (action_is st "goto") eqn:Eg; [|discriminate].
  destruct (target st) as [t|] eqn:Et; cbn [item bind].
  - destruct (startswith (U "http") t); [|destruct (startswith (U "/") t)]; discriminate.
  - intros H. inversion H. auto.
Qed.

Lemma resolve_all_spec (base_url : str) (steps : list Step) :
  forall resolved,
    resolve_all base_url steps = inr resolved ->
    Forall2 (resolved_from base_url) steps resolved.
Proof.
  induction steps as [|st steps IH]; intros resolved H; simpl in H.
  - inversion H. constructor.
  - destruct (resolve_step base_url st) as [e|st'] eqn:Es; [discriminate|].
    cbn [bind] in H.
    destruct (resolve_all base_url steps) as [e|rest] eqn:Er; [discriminate|].
    cbn [bind ret] in H. inversion H; subst.
    constructor; auto. apply resolve_step_spec, Es.
Qed.

Lemma resolve_all_error (base_url : str) (steps : list Step) (e : exn) :
  resolve_all base_url steps = inl e ->
  e = KeyError "target" /\
  Exists (fun st => action_is st "goto" = true /\ target st = None) steps.
Proof.
  induction steps as [|st steps IH]; intros H; simpl in H; [discriminate|].
  destruct (resolve_step base_url st) as [e1|st'] eqn:Es.
  - cbn [bind] in H. inversion H; subst.
    apply resolve_step_error in Es as (-> & Hg & Ht). split; auto.
  - cbn [bind] in H.
    destruct (resolve_all base_url steps) as [e2|rest] eqn:Er.
    + cbn [bind] in H. inversion H; subst. destruct (IH eq_refl) as [-> Hex]. auto.
    + discriminate.
Qed.

Lemma resolve_all_returns (base_url : str) (steps : list Step) :
  Forall (fun st => action_is st "goto" = true -> target st <> None) steps ->
  exists resolved, resolve_all base_url steps = inr resolved.
Proof.
  intros Hall. destruct (resolve_all base_url steps) as [e|resolved] eqn:Er; [|eauto].
  exfalso. apply resolve_all_error in Er as [_ Hex].
  rewrite Forall_forall in Hall. apply Exists_exists in Hex as (st & Hin & Hg & Ht).
  apply (Hall st Hin Hg Ht).
Qed.

(** The goto put in front when no Step navigates. *)
Definition auto_goto (base_url : str) (steps : list Step) : list Step :=
  if negb (existsb (fun s => action_is s "goto") steps) && ParseDocx.nonempty base_url
  then [{| action := Some (U "goto"); target := Some base_url;
           value := None; name := None |}]
  else [].

Lemma resolve_steps_spec (base_url : str) (steps resolved : list Step) :
  resolve_steps base_url steps = inr resolved ->
  exists rest,
    resolved = auto_goto base_url steps ++ rest /\
    Forall2 (resolved_from base_url) steps rest.
Proof.
  unfold resolve_steps, auto_goto.
  destruct (resolve_all base_url steps) as [e|rest] eqn:Er; [discriminate|].
  cbn [bind]. intros H. exists rest. split; [|apply resolve_all_spec, Er].
  destruct (negb (existsb (fun s => action_is s "goto") steps) && ParseDocx.nonempty base_url);
    inversion H; reflexivity.
Qed.

End ResolveFacts.

(* ------------------------------------------------------------------ *)
(** * Further properties of run_tests.py *)
(* ------------------------------------------------------------------ *)

Module RunTestsMore.
Import RunTests ExecFacts RunFacts LogFacts BoundFacts CoherenceFacts OrderFacts ResolveFacts.

(** The actions that [execute_step] knows. *)
Definition handled_actions : list str :=
  map U ["goto"; "click"; "fill"; "select"; "hover"; "wait"; "scroll"; "screenshot";
         "assert_visible"; "assert_text"; "assert_url"; "assert_title"]%string.

Section WithEnv.
Context {W : Type} {E : Env W} {UD : Unicode}.

(** X1.  Whatever the Step and whatever the browser answers,
    [execute_step] keeps the calls made before it and adds at most
    five clicks (the first match and up to four later ones) and at
    most one fill for each comma-separated candidate of the target
    plus one. *)
Theorem retries_bounded (step : Step) (tc_id : str) (step_idx : nat) (s : St W) :
  exists calls,
    log (fst (execute_step step tc_id step_idx s)) = log s ++ calls /\
    count is_click calls <= 5 /\
    count is_fill calls <= length (PyStr.split "," (target_of step)) + 1.
Proof.
  destruct (execute_step step tc_id step_idx s) as [s' r] eqn:Hx.
  destruct (execute_step_clicks step tc_id step_idx _ Hx) as [l1 [Hl1 Hc]].
  destruct (execute_step_fills step tc_id step_idx _ Hx) as [l2 [Hl2 Hf]].
  assert (l1 = l2) by (apply (app_inv_head (log s)); congruence). subst l2.
  exists l1. cbn [fst]. auto.
Qed.

(** X2.  An action that [execute_step] does not know is no error: the
    only call is the screenshot of the Step, and the Step passes when
    the capture returns. *)
Theorem unknown_action_passes (step : Step) (tc_id : str) (step_idx : nat)
    (s : St W) (w' : W) :
  str_in (action_of step) handled_actions = false ->
  answer (Screenshot (step_file tc_id step_idx (action_of step))) (world s) = (w', inr tt) ->
  execute_step step tc_id step_idx s =
    ({| world := w';
        log := log s ++ [Event (Screenshot (step_file tc_id step_idx (action_of step)))] |},
     inr (result_of step step_idx (U "passed")
            (Some (path_name (step_file tc_id step_idx (action_of step)))) None)).
Proof.
  intros Hun Hshot. apply execute_step_passed.
  unfold attempt_of, attempt, act.
  unfold handled_actions in Hun. cbn [map existsb str_in] in Hun.
  unfold str_in in Hun. cbn [existsb] in Hun.
  repeat (apply orb_false_iff in Hun; destruct Hun as [?H Hun]).
  unfold is_action.
  repeat match goal with
         | H : str_eqb (action_of step) (U ?a) = false |- _ => rewrite H; clear H
         end.
  unfold mbind, do_, mret. rewrite Hshot. reflexivity.
Qed.

(** X3.  What [run_test_case] returns is coherent: a passed case has
    only passed StepResults and no error; a failed case has an error;
    a case with a failed StepResult is failed. *)
Theorem case_result_coherent (tc : TestCase) (base_url : str) (record_video : bool)
    (s s' : St W) (res : TestCaseResult) :
  run_test_case tc base_url record_video s = (s', inr res) ->
  (r_status res = U "passed" -> Forall st_passed (r_steps res) /\ r_error res = None) /\
  (r_status res = U "failed" -> r_error res <> None) /\
  (Exists st_failed (r_steps res) -> r_status res = U "failed").
Proof.
  intros H. apply run_test_case_inv in H
    as (nm & s0 & resolved & s1 & run & ab & _ & _ & _ & Hl & _ & Hst & Hsteps & Herr).
  pose proof (run_steps_sound _ _ _ _ Hl start_run_sound) as Hsound.
  pose proof (run_steps_coherent _ _ _ _ Hl start_run_sound start_run_coherent) as Hc.
  rewrite Hst, Hsteps, Herr. destruct ab as [e|]; cbn [after_loop tc_status tc_error].
  - split; [|split].
    + intros Hp. exfalso. apply passed_not_failed. congruence.
    + intros _. destruct (falsy (tc_error run)) eqn:Ef; [discriminate|].
      destruct (falsy_some _ Ef) as (c & m & ->). discriminate.
    + reflexivity.
  - split; [|split].
    + intros Hp. destruct (coh_passed Hc Hp) as (Hall & He & _). auto.
    + apply (coh_failed Hc).
    + apply (coh_exists Hc).
Qed.

(** X4.  A StepResult is skipped only after a click, fill, select or
    hover has failed earlier in the same case; it then carries the
    fixed reason and no screenshot. *)
Theorem skipped_only_after_failure (tc : TestCase) (base_url : str) (record_video : bool)
    (s s' : St W) (res : TestCaseResult) (pre post : list StepResult) (r : StepResult) :
  run_test_case tc base_url record_video s = (s', inr res) ->
  r_steps res = pre ++ r :: post ->
  sr_status r = U "skipped" ->
  Exists halting pre /\ sr_error r = Some (U "Skipped: prior step failed") /\
  sr_screenshot r = None.
Proof.
  intros H Heq Hs. apply run_test_case_inv in H
    as (nm & s0 & resolved & s1 & run & ab & _ & _ & _ & Hl & _ & _ & Hsteps & _).
  pose proof (run_steps_coherent _ _ _ _ Hl start_run_sound start_run_coherent) as Hc.
  rewrite Hsteps in Heq. eapply (coh_skip Hc); eauto.
Qed.

(** X5.  The error of a case is the error of its first failed
    StepResult that has an error text. *)
Theorem case_error_is_first_error (tc : TestCase) (base_url : str) (record_video : bool)
    (s s' : St W) (res : TestCaseResult) (e : str) :
  run_test_case tc base_url record_video s = (s', inr res) ->
  first_error (r_steps res) = Some e ->
  r_error res = Some e.
Proof.
  intros H He. apply run_test_case_inv in H
    as (nm & s0 & resolved & s1 & run & ab & _ & _ & _ & Hl & _ & _ & Hsteps & Herr).
  pose proof (run_steps_coherent _ _ _ _ Hl start_run_sound start_run_coherent) as Hc.
  rewrite Hsteps in He. pose proof (coh_error Hc He) as Hold.
  rewrite Herr. destruct ab as [x|]; cbn [after_loop tc_error]; [|exact Hold].
  rewrite Hold.
  unfold first_error in He.
  destruct (find has_error (step_results run)) as [r|] eqn:Ef; [|discriminate].
  apply find_some in Ef as [_ Hr]. unfold has_error in Hr.
  apply andb_true_iff in Hr as [_ Hr]. rewrite He in Hr.
  destruct (falsy (Some e)); [discriminate | reflexivity].
Qed.

(** X6.  The StepResults follow the resolved Steps, in order: the
    result at place [i] has index [i] and echoes the action, target
    and value of the Step at place [i].  There are never more results
    than Steps, and as many when every Step has an action. *)
Theorem step_results_in_order (tc : TestCase) (base_url : str) (record_video : bool)
    (s s' : St W) (res : TestCaseResult) :
  run_test_case tc base_url record_video s = (s', inr res) ->
  exists resolved,
    resolve_steps base_url (match tc_steps tc with Some l => l | None => [] end)
      = inr resolved /\
    length (r_steps res) <= length resolved /\
    (Forall has_action resolved -> length (r_steps res) = length resolved) /\
    forall i r, nth_error (r_steps res) i = Some r ->
      exists step, nth_error resolved i = Some step /\ echoes i step r.
Proof.
  intros H. apply run_test_case_inv in H
    as (nm & s0 & resolved & s1 & run & ab & _ & _ & Hr & Hl & _ & _ & Hsteps & _).
  exists resolved. split; [exact Hr|].
  destruct (run_steps_echo _ _ _ _ _ Hl) as (more & Hm & Hle & Hlen & Hnth).
  cbn [step_results start_run app] in Hm. rewrite Hsteps, Hm.
  split; [exact Hle|]. split.
  - intros Hall. apply Hlen. eapply run_steps_no_abort; eauto.
  - intros i r Hi. destruct (Hnth _ _ Hi) as (st & Hst & He). eauto.
Qed.

(** X7.  A Step without an action ends the loop of its case: the
    Steps before it keep their results, the Steps after it are not
    run, the page is still closed and the case is failed, with the
    traceback as its error when no Step had failed with an error
    text. *)
Theorem missing_action_aborts (tc : TestCase) (base_url : str) (record_video : bool)
    (nm : str) (pre post : list Step) (bad : Step)
    (s s0 s1 s4 s5 : St W) (run1 : Run) (v : option str) :
  tc_name tc = Some nm ->
  do_ (NewPage record_video) s = (s0, inr tt) ->
  resolve_steps base_url (match tc_steps tc with Some l => l | None => [] end)
    = inr (pre ++ bad :: post) ->
  action bad = None ->
  run_steps (get (tc_id tc) (U "TC-???")) 0 pre start_run s0 = (s1, (run1, None)) ->
  do_ ClosePage s1 = (s4, inr tt) ->
  (if record_video then do_ (SaveVideo (get (tc_id tc) (U "TC-???"))) else mret None) s4
    = (s5, inr v) ->
  exists res,
    run_test_case tc base_url record_video s = (s5, inr res) /\
    r_status res = U "failed" /\
    r_steps res = step_results run1 /\
    length (r_steps res) = length pre /\
    r_error res =
      (if falsy (tc_error run1) then Some (format_exc (KeyError "action"))
       else tc_error run1).
Proof.
  intros Hn H0 Hr Hbad Hpre Hc Hv.
  pose proof (@run_steps_abort _ _ _ _ pre post bad _ _ _ Hpre Hbad) as Hall.
  eexists. split.
  - eapply CaseFacts.run_test_case_parts; eauto.
  - cbn. repeat split.
    destruct (run_steps_echo _ _ _ _ _ Hpre) as (more & Hm & _ & Hlen & _).
    cbn [step_results start_run app] in Hm. rewrite Hm. apply Hlen. reflexivity.
Qed.

Lemma resolved_from_all (base_url : str) (steps resolved : list Step) :
  Forall2 (resolved_from base_url) steps resolved ->
  Forall (fun st => action_is st "goto" = true -> target st <> None) steps.
Proof.
  induction 1 as [|st st' l l' Hrf _ IH]; constructor; auto.
  intros Hg. destruct Hrf as (_ & _ & _ & _ & Hgoto).
  destruct (Hgoto Hg) as (t & Ht & _). congruence.
Qed.

(** X8.  A case without a name raises [KeyError] before the browser is
    touched.  A goto Step without a target raises [KeyError] once the
    page is open: no Step is run and the page is not closed. *)
Theorem malformed_case_raises (tc : TestCase) (base_url : str) (record_video : bool)
    (s : St W) :
  (tc_name tc = None ->
   run_test_case tc base_url record_video s = (s, inl (KeyError "name"))) /\
  (forall nm s0,
     tc_name tc = Some nm ->
     do_ (NewPage record_video) s = (s0, inr tt) ->
     Exists (fun st => action_is st "goto" = true /\ target st = None)
            (match tc_steps tc with Some l => l | None => [] end) ->
     run_test_case tc base_url record_video s = (s0, inl (KeyError "target")) /\
     log s0 = log s ++ [Event (NewPage record_video)]).
Proof.
  split.
  - intros Hn. unfold run_test_case, mbind, lift. rewrite Hn. reflexivity.
  - intros nm s0 Hn H0 Hex.
    assert (Hr : resolve_steps base_url (match tc_steps tc with Some l => l | None => [] end)
                 = inl (KeyError "target")).
    { unfold resolve_steps.
      destruct (resolve_all base_url (match tc_steps tc with Some l => l | None => [] end))
        as [e|resolved] eqn:Er.
      - apply resolve_all_error in Er as [-> _]. reflexivity.
      - exfalso. apply resolve_all_spec, resolved_from_all in Er.
        apply Exists_exists in Hex as (st & Hin & Hg & Ht).
        rewrite Forall_forall in Er. exact (Er _ Hin Hg Ht). }
    split.
    + unfold run_test_case, mbind, lift. rewrite Hn. cbn [item]. cbv beta iota.
      rewrite H0. cbv beta iota. rewrite Hr. reflexivity.
    + unfold do_ in H0. destruct (answer (NewPage record_video) (world s)) as [w r].
      inversion H0; subst. reflexivity.
Qed.

End WithEnv.

End RunTestsMore.

(* ------------------------------------------------------------------ *)
(** * Facts about the main runner *)
(* ------------------------------------------------------------------ *)

Module MainFacts.
Import RunTests RunFacts ResolveFacts.

(** A result belongs to a case: it has its id, or the placeholder, and
    its name. *)
Definition result_of_case (tc : TestCase) (r : TestCaseResult) : Prop :=
  r_id r = get (tc_id tc) (U "TC-???") /\ tc_name tc = Some (r_name r).

Section WithEnv.
Context {W : Type} {E : Env W} {UD : Unicode}.

Lemma run_test_case_id (tc : TestCase) (base_url : str) (record_video : bool)
    (s s' : St W) (res : TestCaseResult) :
  run_test_case tc base_url record_video s = (s', inr res) ->
  result_of_case tc res.
Proof.
  unfold run_test_case, result_of_case, mbind, lift, mret. intros H.
  destruct (tc_name tc) as [nm|]; [|discriminate]. cbn [item] in H. cbv beta iota in H.
  destruct (do_ (NewPage record_video) s) as [s0 [e|[]]]; [discriminate|].
  destruct (resolve_steps base_url (match tc_steps tc with Some l => l | None => [] end))
    as [e|resolved]; [discriminate|]. cbv beta iota in H.
  destruct (run_steps (get (tc_id tc) (U "TC-???")) 0 resolved start_run s0) as [s1 out].
  cbv beta iota in H.
  destruct (do_ ClosePage s1) as [s2 [e|[]]]; [discriminate|].
  destruct ((if record_video then do_ (SaveVideo (get (tc_id tc) (U "TC-???")))
             else fun s => (s, inr None)) s2) as [s3 [e|v]]; [discriminate|].
  inversion H; subst. cbn. auto.
Qed.

Lemma run_all_ids (cases : list TestCase) (base_url : str) (video : bool) :
  forall (s s' : St W) (rs : list TestCaseResult),
    run_all cases base_url video s = (s', inr rs) ->
    Forall2 result_of_case cases rs.
Proof.
  induction cases as [|tc cases IH]; intros s s' rs H.
  - simpl in H. inversion H; subst. constructor.
  - simpl in H. unfold mbind at 1 in H.
    destruct (run_test_case tc base_url video s) as [s1 [e|r]] eqn:E1; [discriminate|].
    unfold mbind at 1 in H.
    destruct (run_all cases base_url video s1) as [s2 [e|rest]] eqn:E2; [discriminate|].
    unfold mret in H. inversion H; subst.
    constructor; [eapply run_test_case_id; eauto | eapply IH; eauto].
Qed.

(** A case that raises ends the run of all cases. *)
Lemma run_all_raises (pre post : list TestCase) (tc : TestCase) (base_url : str)
    (video : bool) (e : exn) :
  forall (s s1 s2 : St W) (rs : list TestCaseResult),
    run_all pre base_url video s = (s1, inr rs) ->
    run_test_case tc base_url video s1 = (s2, inl e) ->
    run_all (pre ++ tc :: post) base_url video s = (s2, inl e).
Proof.
  induction pre as [|c pre IH]; intros s s1 s2 rs Hpre Htc.
  - simpl in Hpre. inversion Hpre; subst. simpl. unfold mbind. rewrite Htc. reflexivity.
  - simpl in Hpre. unfold mbind at 1 in Hpre.
    destruct (run_test_case c base_url video s) as [s0 [x|r]] eqn:E1; [discriminate|].
    unfold mbind at 1 in Hpre.
    destruct (run_all pre base_url video s0) as [s3 [x|rest]] eqn:E2; [discriminate|].
    unfold mret in Hpre. inversion Hpre; subst.
    simpl. unfold mbind at 1. rewrite E1. unfold mbind at 1.
    rewrite (IH _ _ _ _ E2 Htc). reflexivity.
Qed.

(** The two ways of [main]. *)
Definition main_body (filter_arg : option str) (arg_base_url : str) (headed video : bool)
    (meta_base_url : option str) (cases : list TestCase) : M W Outcome :=
  (do_ (Launch headed) ;;
   all_results <- run_all (cases_to_run filter_arg cases)
                    (ParseDocx.or_else arg_base_url (get meta_base_url [])) video ;;
   do_ Shutdown ;;
   mret {| written := Some {| summary := summarize all_results;
                              test_cases := all_results |};
           exit_code := if 0 <? failed (summarize all_results) then 1 else 0 |})%M.

Lemma main_cases (filter_arg : option str) (arg_base_url : str) (headed video : bool)
    (meta_base_url : option str) (cases : list TestCase) :
  (exists c f, filter_arg = Some (c :: f) /\ select_cases (c :: f) cases = [] /\
     main filter_arg arg_base_url headed video meta_base_url cases =
       mret {| written := None; exit_code := 1 |}) \/
  main filter_arg arg_base_url headed video meta_base_url cases =
    main_body filter_arg arg_base_url headed video meta_base_url cases.
Proof.
  unfold main, main_body. cbv zeta.
  destruct filter_arg as [[|c f]|]; try (right; reflexivity).
  destruct (select_cases (c :: f) cases) eqn:Es.
  - left. exists c, f. cbn [cases_to_run]. rewrite Es. auto.
  - right. cbn [cases_to_run]. rewrite Es. reflexivity.
Qed.

Lemma main_body_inv (filter_arg : option str) (arg_base_url : str) (headed video : bool)
    (meta_base_url : option str) (cases : list TestCase) (s s' : St W) (out : Outcome) :
  main_body filter_arg arg_base_url headed video meta_base_url cases s = (s', inr out) ->
  exists s0 s1 rs,
    do_ (Launch headed) s = (s0, inr tt) /\
    run_all (cases_to_run filter_arg cases)
      (ParseDocx.or_else arg_base_url (get meta_base_url [])) video s0 = (s1, inr rs) /\
    do_ Shutdown s1 = (s', inr tt) /\
    out = {| written := Some {| summary := summarize rs; test_cases := rs |};
             exit_code := if 0 <? failed (summarize rs) then 1 else 0 |}.
Proof.
  unfold main_body. intros H. unfold mbind at 1 in H.
  destruct (do_ (Launch headed) s) as [s0 [e|[]]]; [discriminate|].
  unfold mbind at 1 in H.
  destruct (run_all (cases_to_run filter_arg cases)
              (ParseDocx.or_else arg_base_url (get meta_base_url [])) video s0)
    as [s1 [e|rs]] eqn:Er; [discriminate|].
  unfold mbind at 1 in H.
  destruct (do_ Shutdown s1) as [s2 [e|[]]] eqn:Ed; [discriminate|].
  unfold mret in H. inversion H; subst.
  exists s0, s1, rs. auto.
Qed.

Lemma main_written (filter_arg : option str) (arg_base_url : str) (headed video : bool)
    (meta_base_url : option str) (cases : list TestCase) (s s' : St W)
    (out : Outcome) (res : Results) :
  main filter_arg arg_base_url headed video meta_base_url cases s = (s', inr out) ->
  written out = Some res ->
  exists s0 s1,
    do_ (Launch headed) s = (s0, inr tt) /\
    run_all (cases_to_run filter_arg cases)
      (ParseDocx.or_else arg_base_url (get meta_base_url [])) video s0
      = (s1, inr (test_cases res)) /\
    do_ Shutdown s1 = (s', inr tt) /\
    summary res = summarize (test_cases res) /\
    exit_code out = if 0 <? failed (summary res) then 1 else 0.
Proof.
  intros H Hw.
  destruct (main_cases filter_arg arg_base_url headed video meta_base_url cases)
    as [(c & f & _ & _ & Hm)|Hm]; rewrite Hm in H.
  - unfold mret in H. inversion H; subst. discriminate.
  - apply main_body_inv in H as (s0 & s1 & rs & H0 & Hr & Hd & ->).
    cbn in Hw. inversion Hw; subst. exists s0, s1. cbn. auto.
Qed.

Lemma count_status_zero (status : string) (rs : list TestCaseResult) :
  count_status status rs = 0 <-> Forall (fun r => r_status r <> U status) rs.
Proof.
  unfold count_status. induction rs as [|r rs IH]; simpl.
  - split; auto.
  - destruct (str_eqb (r_status r) (U status)) eqn:Eq; simpl.
    + split; [discriminate|]. intros H. inversion H; subst.
      apply str_eqb_eq in Eq. contradiction.
    + rewrite IH. split; intros H.
      * constructor; auto. intros Hs. rewrite Hs in Eq.
        assert (str_eqb (U status) (U status) = true) by (apply str_eqb_eq; reflexivity).
        congruence.
      * inversion H; auto.
Qed.

End WithEnv.

End MainFacts.

(* ------------------------------------------------------------------ *)
(** * How the targets of goto Steps are prepared *)
(* ------------------------------------------------------------------ *)

Module ResolveSpec.
Import RunTests RunFacts ResolveFacts.

Lemma not_slash (c : N) : mem c (U "/") = false -> c <> slash.
Proof. intros H ->. discriminate H. Qed.

Lemma slashes (l : str) : forallb (fun c => mem c (U "/")) l = true ->
  l = repeat slash (length l).
Proof. apply forallb_repeat. exact is_slash. Qed.

Lemma action_is_same (st st' : Step) (a : string) :
  action st' = action st -> action_is st' a = action_is st a.
Proof. unfold action_is. intros ->. reflexivity. Qed.

Lemma resolved_absolute (base_url : str) (st st' : Step) :
  startswith (U "http") base_url = true ->
  resolved_from base_url st st' -> absolute st'.
Proof.
  intros Hb (Ha & _ & _ & Hsame & Hgoto) Hg.
  rewrite (action_is_same _ _ "goto" Ha) in Hg.
  destruct (Hgoto Hg) as (t & Ht & Ht'). eexists. split; [exact Ht'|].
  apply rstrip_keeps_http, startswith_split in Hb as [x Hx].
  destruct (startswith (U "http") t) eqn:Eh; [exact Eh|].
  destruct (startswith (U "/") t); rewrite Hx, <- app_assoc; apply startswith_app.
Qed.

Lemma resolve_all_fixed (base_url : str) (l : list Step) :
  Forall absolute l -> resolve_all base_url l = inr l.
Proof.
  induction 1 as [|st l Hst _ IH]; [reflexivity|].
  simpl. assert (Hs : resolve_step base_url st = inr st).
  { unfold resolve_step. destruct (action_is st "goto") eqn:Eg; [|reflexivity].
    destruct (Hst Eg) as (t & Ht & Hh). rewrite Ht. cbn [item bind]. rewrite Hh.
    reflexivity. }
  rewrite Hs. cbn [bind]. rewrite IH. reflexivity.
Qed.

Lemma has_goto_same (base_url : str) (steps rest : list Step) :
  Forall2 (resolved_from base_url) steps rest ->
  existsb (fun s => action_is s "goto") rest = existsb (fun s => action_is s "goto") steps.
Proof.
  induction 1 as [|st st' l l' Hrf _ IH]; [reflexivity|].
  simpl. rewrite IH. destruct Hrf as (Ha & _). rewrite (action_is_same _ _ "goto" Ha). reflexivity.
Qed.

(** X9.  A goto target that starts with a slash is joined to the base
    URL with exactly one slash at the seam: the slashes that end the
    base URL and the slashes that start the target are dropped, and
    nothing else of either is changed. *)
Theorem join_has_one_slash (base_url t : str) (st st' : Step) :
  action_is st "goto" = true -> target st = Some t ->
  startswith (U "http") t = false -> startswith (U "/") t = true ->
  resolve_step base_url st = inr st' ->
  exists b r n m,
    base_url = b ++ repeat slash n /\ t = repeat slash (S m) ++ r /\
    target st' = Some (b ++ slash :: r) /\
    (forall c, hd_error (rev b) = Some c -> c <> slash) /\
    (forall c, hd_error r = Some c -> c <> slash).
Proof.
  intros Hg Ht Hh Hs Hr. apply resolve_step_spec in Hr as (_ & _ & _ & _ & Hgoto).
  destruct (Hgoto Hg) as (t0 & Ht0 & Ht'). rewrite Ht in Ht0. inversion Ht0; subst t0.
  rewrite Hh, Hs in Ht'. unfold rstrip_chars, lstrip_chars in Ht'.
  destruct (rstrip_by_split (fun c => mem c (U "/")) base_url) as (suf & Hb & Hsuf & Hlast).
  destruct (lstrip_by_split (fun c => mem c (U "/")) t) as (pre & Hp & Hpre & Hfirst).
  set (b := rstrip_by (fun c => mem c (U "/")) base_url) in *.
  set (r := lstrip_by (fun c => mem c (U "/")) t) in *.
  apply slashes in Hsuf. apply slashes in Hpre.
  destruct pre as [|p0 pre].
  - exfalso. simpl in Hp. rewrite Hp in Hs.
    assert (HU : U "/" = [slash]) by reflexivity. rewrite HU in Hs.
    destruct r as [|c r']; [discriminate|].
    specialize (Hfirst c eq_refl). cbn [startswith] in Hs.
    apply andb_true_iff in Hs as [Hs _]. apply N.eqb_eq in Hs. subst c. discriminate.
  - exists b, r, (length suf), (length pre). repeat split.
    + rewrite <- Hsuf. exact Hb.
    + change (repeat slash (S (length pre))) with (repeat slash (length (p0 :: pre))).
      rewrite <- Hpre. exact Hp.
    + exact Ht'.
    + intros c Hc. apply not_slash, Hlast, Hc.
    + intros c Hc. apply not_slash, Hfirst, Hc.
Qed.

(** X10.  With a base URL that starts with [http], every goto Step of
    the prepared list has a target that starts with [http], and
    preparing the prepared list again changes nothing. *)
Theorem resolved_gotos_absolute (base_url : str) (steps resolved : list Step) :
  startswith (U "http") base_url = true ->
  resolve_steps base_url steps = inr resolved ->
  Forall absolute resolved /\ resolve_steps base_url resolved = inr resolved.
Proof.
  intros Hb Hr. apply resolve_steps_spec in Hr as (rest & -> & Hf).
  assert (Hrest : Forall absolute rest).
  { clear -Hb Hf. induction Hf; constructor; auto. eapply resolved_absolute; eauto. }
  assert (Hauto : Forall absolute (auto_goto base_url steps)).
  { unfold auto_goto.
    destruct (negb (existsb (fun s => action_is s "goto") steps) && ParseDocx.nonempty base_url);
      constructor; auto.
    intros _. exists base_url. split; [reflexivity | exact Hb]. }
  assert (Hall : Forall absolute (auto_goto base_url steps ++ rest))
    by (apply Forall_app; auto).
  split; [exact Hall|].
  unfold resolve_steps. rewrite (resolve_all_fixed base_url Hall). cbn [bind].
  assert (Hne : ParseDocx.nonempty base_url = true)
    by (destruct base_url; [discriminate | reflexivity]).
  assert (Hgo : existsb (fun s => action_is s "goto") (auto_goto base_url steps ++ rest) = true).
  { rewrite existsb_app, (has_goto_same Hf). unfold auto_goto. rewrite Hne, andb_true_r.
    destruct (existsb (fun s => action_is s "goto") steps); reflexivity. }
  rewrite Hgo. reflexivity.
Qed.

(** X11.  Preparing the Steps returns exactly when every goto Step has
    a target.  It then keeps the Steps in order, changes nothing but
    the target of goto Steps, and puts one goto to the base URL in
    front when no Step is a goto and the base URL is not empty. *)
Theorem resolve_keeps_steps (base_url : str) (steps : list Step) :
  ((exists resolved, resolve_steps base_url steps = inr resolved) <->
   Forall (fun st => action_is st "goto" = true -> target st <> None) steps) /\
  (forall resolved,
     resolve_steps base_url steps = inr resolved ->
     exists rest,
       resolved = auto_goto base_url steps ++ rest /\
       length rest = length steps /\
       forall i st, nth_error steps i = Some st ->
         exists st', nth_error rest i = Some st' /\
           action st' = action st /\ value st' = value st /\ name st' = name st /\
           (action_is st "goto" = false -> st' = st)).
Proof.
  split; [split|].
  - intros [resolved Hr]. apply resolve_steps_spec in Hr as (rest & _ & Hf).
    clear -Hf. induction Hf as [|st st' l l' Hrf _ IH]; constructor; auto.
    intros Hg. destruct Hrf as (_ & _ & _ & _ & Hgoto).
    destruct (Hgoto Hg) as (t & Ht & _). congruence.
  - intros Hall. destruct (resolve_all_returns base_url Hall) as [resolved Hr].
    unfold resolve_steps. rewrite Hr. cbn [bind].
    destruct (negb (existsb (fun s => action_is s "goto") steps) && ParseDocx.nonempty base_url);
      eexists; reflexivity.
  - intros resolved Hr. apply resolve_steps_spec in Hr as (rest & -> & Hf).
    exists rest. split; [reflexivity|]. split.
    + clear -Hf. induction Hf; simpl; congruence.
    + clear -Hf. induction Hf as [|st0 st0' l l' Hrf _ IH]; intros i st Hi.
      * destruct i; discriminate.
      * destruct i as [|i]; simpl in Hi.
        -- inversion Hi; subst. exists st0'. destruct Hrf as (Ha & Hv & Hn & Hsame & _).
           simpl. auto.
        -- simpl. apply IH, Hi.
Qed.

End ResolveSpec.

(* ------------------------------------------------------------------ *)
(** * What the main runner reports *)
(* ------------------------------------------------------------------ *)

Module MainSpec.
Import RunTests RunFacts MainFacts.

Section WithEnv.
Context {W : Type} {E : Env W} {UD : Unicode}.

(** X12.  When [--filter] names an id that no case has, the browser is
    not launched, no result file is written and the exit code is 1. *)
Theorem filter_without_match (c : N) (f : str) (arg_base_url : str) (headed video : bool)
    (meta_base_url : option str) (cases : list TestCase) (s : St W) :
  Forall (fun tc => tc_id tc <> Some (c :: f)) cases ->
  main (Some (c :: f)) arg_base_url headed video meta_base_url cases s =
    (s, inr {| written := None; exit_code := 1 |}).
Proof.
  intros Hall.
  assert (Hsel : select_cases (c :: f) cases = []).
  { unfold select_cases. induction Hall as [|tc l Hx _ IH]; [reflexivity|].
    simpl. rewrite IH. destruct (tc_id tc) as [i|]; [|reflexivity].
    destruct (str_eqb i (c :: f)) eqn:Eq; [|reflexivity].
    apply str_eqb_eq in Eq. subst. contradiction. }
  unfold main. cbv zeta. cbn [cases_to_run]. rewrite Hsel. reflexivity.
Qed.

(** X13.  When the result file is written, the exit code is 0 exactly
    when every case passed and 1 exactly when some case failed. *)
Theorem exit_code_reports_failure (filter_arg : option str) (arg_base_url : str)
    (headed video : bool) (meta_base_url : option str) (cases : list TestCase)
    (s s' : St W) (out : Outcome) (res : Results) :
  main filter_arg arg_base_url headed video meta_base_url cases s = (s', inr out) ->
  written out = Some res ->
  (exit_code out = 0 <-> Forall (fun r => r_status r = U "passed") (test_cases res)) /\
  (exit_code out = 1 <-> Exists (fun r => r_status r = U "failed") (test_cases res)).
Proof.
  intros H Hw. destruct (main_written _ _ _ _ _ _ _ H Hw)
    as (s0 & s1 & _ & Hr & _ & Hsum & Hx).
  apply run_all_spec in Hr as [_ Htwo].
  rewrite Hx, Hsum. cbn [failed summarize].
  pose proof (count_status_zero "failed" (test_cases res)) as Hz.
  assert (Hpass : Forall (fun r => r_status r <> U "failed") (test_cases res) <->
                  Forall (fun r => r_status r = U "passed") (test_cases res)).
  { rewrite !Forall_forall. split; intros Ha r Hin.
    - rewrite Forall_forall in Htwo. destruct (Htwo r Hin) as [Hp|Hf]; auto.
      exfalso. exact (Ha r Hin Hf).
    - rewrite (Ha r Hin). intros Heq. symmetry in Heq. revert Heq. vm_compute. discriminate. }
  destruct (count_status "failed" (test_cases res)) as [|n] eqn:Ec; cbn.
  - split.
    + split; auto. intros _. apply Hpass, Hz. reflexivity.
    + split; [discriminate|]. intros Hex. exfalso.
      assert (Hno : Forall (fun r => r_status r <> U "failed") (test_cases res))
        by (apply Hz; reflexivity).
      rewrite Forall_forall in Hno. apply Exists_exists in Hex as (r & Hin & Hf).
      exact (Hno r Hin Hf).
  - split.
    + split; [discriminate|]. intros Hall. apply Hpass, Hz in Hall. discriminate.
    + split; auto. intros _.
      destruct (Exists_dec (fun r => r_status r = U "failed") (test_cases res)) as [Hex|Hno].
      * intros r. destruct (str_eqb (r_status r) (U "failed")) eqn:Eq.
        -- left. apply str_eqb_eq, Eq.
        -- right. intros Heq. rewrite Heq in Eq.
           assert (str_eqb (U "failed") (U "failed") = true) by reflexivity. congruence.
      * exact Hex.
      * exfalso. assert (Hall : Forall (fun r => r_status r <> U "failed") (test_cases res)).
        { rewrite Forall_forall. intros r Hin Hf. apply Hno, Exists_exists. eauto. }
        apply Hz in Hall. discriminate.
Qed.

(** X14.  The written results follow the selected cases, one for one
    and in order: each result has the id of its case, or [TC-???] for a
    case without an id, and the name of its case.  With a filter every
    result has the id asked for. *)
Theorem results_follow_cases (filter_arg : option str) (arg_base_url : str)
    (headed video : bool) (meta_base_url : option str) (cases : list TestCase)
    (s s' : St W) (out : Outcome) (res : Results) :
  main filter_arg arg_base_url headed video meta_base_url cases s = (s', inr out) ->
  written out = Some res ->
  Forall2 result_of_case (cases_to_run filter_arg cases) (test_cases res) /\
  (forall c f, filter_arg = Some (c :: f) ->
     Forall (fun r => r_id r = c :: f) (test_cases res)).
Proof.
  intros H Hw. destruct (main_written _ _ _ _ _ _ _ H Hw)
    as (s0 & s1 & _ & Hr & _ & _ & _).
  apply run_all_ids in Hr. split; [exact Hr|].
  intros c f ->. cbn [cases_to_run] in Hr.
  remember (select_cases (c :: f) cases) as sel eqn:Hsel.
  assert (Hin : Forall (fun tc => tc_id tc = Some (c :: f)) sel).
  { subst sel. unfold select_cases. rewrite Forall_forall. intros tc Htc.
    apply filter_In in Htc as [_ Htc]. destruct (tc_id tc) as [i|]; [|discriminate].
    apply str_eqb_eq in Htc. subst i. reflexivity. }
  clear Hsel. induction Hr as [|tc r l l' [Hid _] _ IH]; constructor.
  - inversion Hin; subst. rewrite Hid. match goal with Hq : tc_id tc = _ |- _ => rewrite Hq end.
    reflexivity.
  - apply IH. inversion Hin; auto.
Qed.

(** X15.  A selected case without a name stops the whole run: [main]
    raises [KeyError], no result file is written, not even for the
    cases that ran before it, and the browser is not shut down. *)
Theorem nameless_case_loses_results (filter_arg : option str) (arg_base_url : str)
    (headed video : bool) (meta_base_url : option str) (cases pre post : list TestCase)
    (tc : TestCase) (s s0 s1 : St W) (rs : list TestCaseResult) :
  cases_to_run filter_arg cases = pre ++ tc :: post ->
  tc_name tc = None ->
  do_ (Launch headed) s = (s0, inr tt) ->
  run_all pre (ParseDocx.or_else arg_base_url (get meta_base_url [])) video s0
    = (s1, inr rs) ->
  main filter_arg arg_base_url headed video meta_base_url cases s =
    (s1, inl (KeyError "name")).
Proof.
  intros Hsel Hn H0 Hpre.
  assert (Htc : run_test_case tc (ParseDocx.or_else arg_base_url (get meta_base_url []))
                  video s1 = (s1, inl (KeyError "name"))).
  { unfold run_test_case, mbind, lift. rewrite Hn. reflexivity. }
  pose proof (@run_all_raises _ _ _ pre post tc _ _ _ _ _ _ _ Hpre Htc) as Hall. rewrite <- Hsel in Hall.
  destruct (main_cases filter_arg arg_base_url headed video meta_base_url cases)
    as [(c & f & -> & Hs & _)|Hm].
  - cbn [cases_to_run] in Hsel. rewrite Hs in Hsel. destruct pre; discriminate.
  - rewrite Hm. unfold main_body. unfold mbind at 1. rewrite H0.
    unfold mbind at 1. rewrite Hall. reflexivity.
Qed.

End WithEnv.

End MainSpec.

(* ------------------------------------------------------------------ *)
(** * The screenshot of a Step *)
(* ------------------------------------------------------------------ *)

Module ShotFacts.
Import RunTests ExecFacts RunFacts LogFacts BoundFacts.

Section WithEnv.
Context {W : Type} {E : Env W} {UD : Unicode}.

(** A branch of the chain of actions that falls through to the
    screenshot taken after the action. *)
Definition falls_through (c : M W (option str)) : Prop :=
  forall s s' r, c s = (s', inr r) -> r = None.

Lemma falls_mret : falls_through (mret None).
Proof. intros s s' r H. unfold mret in H. inversion H. reflexivity. Qed.

Lemma falls_mbind {A : Type} (c : M W A) (k : A -> M W (option str)) :
  (forall a, falls_through (k a)) -> falls_through (mbind c k).
Proof.
  intros Hk s s' r H. unfold mbind in H.
  destruct (c s) as [s1 [e|a]]; [discriminate|]. eapply Hk; eauto.
Qed.

Lemma act_early (action target value name : str) (s s' : St W) (shot : str) :
  act action target value name s = (s', inr (Some shot)) ->
  is_action action "screenshot" = true /\
  shot = path_name (name ++ U ".png") /\
  log s' = log s ++ [Event (Screenshot (name ++ U ".png"))].
Proof.
  unfold act. intros H.
  repeat match type of H with
         | (if is_action action "screenshot" then _ else _) _ = _ => fail 1
         | (if ?b then ?c else _) _ = _ =>
           destruct b;
           [ exfalso;
             assert (Hf : falls_through c)
               by (repeat (apply falls_mbind; intros); apply falls_mret);
             specialize (Hf _ _ _ H); discriminate |]
         end.
  destruct (is_action action "screenshot").
  - split; [reflexivity|]. unfold mbind, do_, mret in H.
    destruct (answer (Screenshot (name ++ U ".png")) (world s)) as [w' [e|[]]];
      [discriminate|].
    inversion H; subst. cbn [log]. auto.
  - exfalso.
    repeat match type of H with
           | (if ?b then ?c else _) _ = _ =>
             destruct b;
             [ assert (Hf : falls_through c)
                 by (repeat (apply falls_mbind; intros); apply falls_mret);
               specialize (Hf _ _ _ H); discriminate |]
           end.
    unfold mret in H. discriminate.
Qed.

Lemma act_late (action target value name : str) (s s' : St W) :
  act action target value name s = (s', inr None) ->
  is_action action "screenshot" = false.
Proof.
  intros H. destruct (is_action action "screenshot") eqn:Es; [|reflexivity].
  exfalso. unfold is_action in Es. apply str_eqb_eq in Es. subst action.
  change (act (U "screenshot") target value name)
    with (do_ (Screenshot (name ++ U ".png")) ;;
          mret (Some (path_name (name ++ U ".png"))))%M in H.
  unfold mbind, do_, mret in H.
  destruct (answer (Screenshot (name ++ U ".png")) (world s)) as [w' [e|[]]]; discriminate.
Qed.

(** The file of the screenshot of a Step that passes. *)
Definition shot_file (tc_id : str) (step_idx : nat) (action name : str) : str :=
  if is_action action "screenshot" then name ++ U ".png"
  else step_file tc_id step_idx action.

Lemma attempt_shot (tc_id : str) (step_idx : nat) (action target value name : str)
    (s s' : St W) (shot : str) :
  attempt tc_id step_idx action target value name s = (s', inr shot) ->
  exists calls,
    log s' = log s ++ calls ++ [Event (Screenshot (shot_file tc_id step_idx action name))] /\
    shot = path_name (shot_file tc_id step_idx action name).
Proof.
  unfold attempt, shot_file. intros H. unfold mbind at 1 in H.
  destruct (act action target value name s) as [s0 [e|[sh|]]] eqn:Ea; [discriminate| |].
  - unfold mret in H. inversion H; subst.
    apply act_early in Ea as (-> & -> & Hl). exists []. auto.
  - rewrite (act_late _ _ _ _ _ Ea).
    destruct (act_clicks _ _ _ _ _ Ea) as [l [Hl _]].
    unfold mbind, do_, mret in H.
    destruct (answer (Screenshot (step_file tc_id step_idx action)) (world s0))
      as [w' [e|[]]]; [discriminate|].
    inversion H; subst. cbn [log]. exists l. rewrite Hl, app_assoc. auto.
Qed.

End WithEnv.

End ShotFacts.

Module ShotSpec.
Import RunTests ExecFacts RunFacts LogFacts BoundFacts ShotFacts.

Section WithEnv.
Context {W : Type} {E : Env W} {UD : Unicode}.

(** X16.  The last browser call of [execute_step] is always a
    screenshot.  For a Step that passed it is the capture recorded in
    the result: the file [<name>.png] for a screenshot Step and the
    file named after case, index and action for any other.  For a Step
    that failed it is the failure screenshot, recorded if it was
    captured. *)
Theorem screenshot_ends_step (step : Step) (tc_id : str) (step_idx : nat)
    (s s' : St W) (r : StepResult) :
  execute_step step tc_id step_idx s = (s', inr r) ->
  exists calls p,
    log s' = log s ++ calls ++ [Event (Screenshot p)] /\
    (sr_status r = U "passed" ->
     p = shot_file tc_id step_idx (action_of step) (name_of step tc_id step_idx) /\
     sr_screenshot r = Some (path_name p) /\ sr_error r = None) /\
    (sr_status r = U "failed" ->
     p = fail_file tc_id step_idx /\ sr_error r <> None /\
     (sr_screenshot r = Some (path_name p) \/ sr_screenshot r = None)).
Proof.
  intros H. destruct (attempt_of step tc_id step_idx s) as [s1 [e|shot]] eqn:Ha.
  - destruct (execute_step_failed _ _ _ _ Ha) as (s2 & sh & Hr & Hx).
    rewrite Hx in H. inversion H; subst s2 r. clear H.
    destruct (rescue_returns tc_id step_idx s1) as (s3 & sh' & Hr' & Hl & Hshot).
    rewrite Hr in Hr'. inversion Hr'; subst s3 sh'. clear Hr'.
    destruct (attempt_clicks _ _ _ _ _ _ _ Ha) as [l [Hl1 _]].
    exists l, (fail_file tc_id step_idx). split; [rewrite Hl, Hl1, app_assoc; reflexivity|].
    cbn [result_of sr_status sr_screenshot sr_error]. split.
    + intros Hp. exfalso. revert Hp. vm_compute. discriminate.
    + intros _. split; [reflexivity|]. split; [discriminate|].
      destruct (snd (answer (Screenshot (fail_file tc_id step_idx)) (world s1))); auto.
  - rewrite (execute_step_passed _ _ _ _ Ha) in H. inversion H; subst s1 r. clear H.
    apply attempt_shot in Ha as (calls & Hl & ->).
    eexists calls, _. split; [exact Hl|].
    cbn [result_of sr_status sr_screenshot sr_error]. split.
    + intros _. auto.
    + intros Hp. exfalso. revert Hp. vm_compute. discriminate.
Qed.

End WithEnv.

End ShotSpec.

(* ------------------------------------------------------------------ *)
(** * The shape of the Steps and cases that parse_docx.py builds *)
(* ------------------------------------------------------------------ *)

Module ShapeFacts.
Import ParseDocx RunTests RunFacts ResolveFacts.

(** The actions [infer_step] can give. *)
Definition inferred_actions : list str :=
  map U ["goto"; "click"; "fill"; "select"; "hover"; "assert_visible"; "assert_url";
         "assert_text"; "wait"; "screenshot"; "scroll"]%string.

(** A Step as [infer_step] builds it: one of the actions above; a
    target, or else a screenshot with a name; a scroll has a distance. *)
Record shaped (st : Step) : Prop := {
  shaped_action : exists a, action st = Some a /\ In a inferred_actions;
  shaped_target :
    (exists t, target st = Some t /\ name st = None) \/
    (action st = Some (U "screenshot") /\ target st = None /\ value st = None /\
     exists n, name st = Some n);
  shaped_scroll :
    action st = Some (U "scroll") -> exists t, target st = Some t /\ t <> []
}.

Lemma shaped_target_of (a t : str) :
  In a inferred_actions -> (a = U "scroll" -> t <> []) -> shaped (mk_target a t).
Proof.
  intros Hin Hs. split; cbn.
  - eauto.
  - left. eauto.
  - intros Ha. inversion Ha. eauto.
Qed.

Lemma shaped_value_of (a t v : str) :
  In a inferred_actions -> a <> U "scroll" -> shaped (mk_value a t v).
Proof.
  intros Hin Hs. split; cbn.
  - eauto.
  - left. eauto.
  - intros Ha. inversion Ha. contradiction.
Qed.

Lemma shaped_shot (n : str) : shaped (mk_shot n).
Proof.
  split; cbn.
  - eexists. split; [reflexivity|]. unfold inferred_actions. cbn. tauto.
  - right. eauto.
  - intros Ha. exfalso. revert Ha. vm_compute. discriminate.
Qed.

Lemma shaped_runnable (st : Step) : shaped st -> runnable st.
Proof.
  intros [[a [Ha _]] Ht _]. split; [congruence|].
  intros Hg. destruct Ht as [[t [Ht _]]|[Hs _]]; [congruence|].
  exfalso. unfold action_is in Hg. rewrite Hs in Hg. revert Hg. vm_compute. discriminate.
Qed.

Section WithUnicode.
Context {UD : Unicode}.

Lemma strip_group_inv (groups : list (option str)) (i : nat) (t : str) :
  strip_group groups i = inr t -> exists v, t = strip v.
Proof.
  unfold strip_group. destruct (nth_error groups i) as [[v|]|]; try discriminate.
  intros H. inversion H. eauto.
Qed.

(** What [build_step] gives for the action of a pattern. *)
Lemma build_step_out (a : str) (groups : list (option str)) (text : str) (st : Step) :
  build_step a groups text = inr st ->
  (exists t, target st = Some t /\ name st = None) /\
  action st = Some (if str_eqb a (U "fill_search") then U "fill" else a) /\
  (a = U "scroll" -> exists t, target st = Some t /\ t <> []).
Proof.
  intros H. split; [|split].
  - unfold build_step in H.
    repeat match type of H with
           | (if ?b then _ else _) = _ => destruct b
           | bind ?c _ = _ => destruct c; [discriminate|]; cbn [bind] in H
           | match groups with _ => _ end = _ => destruct groups
           end;
      inversion H; subst; cbn; eauto.
  - unfold build_step in H.
    destruct (str_eqb a (U "fill") && (2 <=? length groups)) eqn:E1.
    { apply andb_true_iff in E1 as [E1 _]. apply str_eqb_eq in E1. subst a.
      destruct (strip_group groups 1); [discriminate|].
      destruct (strip_group groups 0); [discriminate|].
      inversion H; subst. reflexivity. }
    destruct (str_eqb a (U "fill_search")) eqn:Es.
    { destruct (strip_group groups 0); [discriminate|].
      inversion H; subst. reflexivity. }
    repeat match type of H with
           | (if ?b then _ else _) = _ => destruct b
           | bind ?c _ = _ => destruct c; [discriminate|]; cbn [bind] in H
           | match groups with _ => _ end = _ => destruct groups
           end;
      inversion H; subst; reflexivity.
  - intros ->. unfold build_step in H.
    change (str_eqb (U "scroll") (U "fill")) with false in H.
    change (str_eqb (U "scroll") (U "fill_search")) with false in H.
    change (str_eqb (U "scroll") (U "select")) with false in H.
    change (str_eqb (U "scroll") (U "wait")) with false in H.
    change (str_eqb (U "scroll") (U "scroll")) with true in H.
    cbn [andb] in H. cbv iota in H.
    destruct (strip_group groups 0) as [e|t]; [discriminate|]. cbn [bind] in H.
    inversion H; subst. cbn. eexists. split; [reflexivity|].
    destruct t; [vm_compute; discriminate | cbn; discriminate].
Qed.

Lemma first_pass_inv (pats : list (Re.pattern * str)) (text : str) (r : res Step) :
  first_pass pats text = Some r ->
  exists a groups, In a (map snd pats) /\ r = build_step a groups text.
Proof.
  induction pats as [|[p a] pats IH]; simpl; [discriminate|].
  destruct (Re.match_ p text) as [mt|].
  - intros H. inversion H. eauto.
  - intros H. destruct (IH H) as (a' & g & Hin & Hr). eauto.
Qed.

Lemma pattern_actions :
  forall a, In a (map snd _STEP_ACTION_PATTERNS) ->
    In (if str_eqb a (U "fill_search") then U "fill" else a) inferred_actions /\
    ((if str_eqb a (U "fill_search") then U "fill" else a) = U "scroll" -> a = U "scroll").
Proof.
  intros a Hin. cbn [map snd _STEP_ACTION_PATTERNS] in Hin.
  repeat (destruct Hin as [<-|Hin];
          [split; [vm_compute; tauto | vm_compute; try discriminate; reflexivity]|]).
  contradiction.
Qed.

Lemma second_pass_shaped (text : str) (st : Step) :
  second_pass text = Some st -> shaped st.
Proof.
  unfold second_pass. intros H.
  assert (Hgoto : In (U "goto") inferred_actions) by (unfold inferred_actions; cbn; tauto).
  assert (Hclick : In (U "click") inferred_actions) by (unfold inferred_actions; cbn; tauto).
  assert (Hfill : In (U "fill") inferred_actions) by (unfold inferred_actions; cbn; tauto).
  assert (Hvis : In (U "assert_visible") inferred_actions)
    by (unfold inferred_actions; cbn; tauto).
  repeat match type of H with
         | (if ?b then _ else _) = _ => destruct b
         | match ?c with _ => _ end = _ => destruct c
         end;
    try discriminate; inversion H; subst;
    try (apply shaped_target_of; [assumption | vm_compute; discriminate]);
    try (apply shaped_value_of; [assumption | vm_compute; discriminate]).
  split; cbn.
  - eauto.
  - left. eauto.
  - intros Ha. exfalso. revert Ha. vm_compute. discriminate.
Qed.

Lemma infer_step_shaped (raw : str) (st : Step) :
  infer_step raw = inr st -> shaped st.
Proof.
  unfold infer_step.
  destruct (negb (nonempty (unmarked raw))).
  { intros H. inversion H. apply shaped_shot. }
  destruct (first_pass _STEP_ACTION_PATTERNS (resolved (unmarked raw))) as [r|] eqn:E.
  - intros ->. apply first_pass_inv in E as (a & groups & Hin & Hr). symmetry in Hr.
    apply build_step_out in Hr as (Ht & Ha & Hs).
    apply pattern_actions in Hin as [Hin Hsc].
    split.
    + eauto.
    + left. exact Ht.
    + intros Hscroll. apply Hs, Hsc. congruence.
  - destruct (second_pass (resolved (unmarked raw))) as [st'|] eqn:E2.
    + intros H. inversion H; subst. eapply second_pass_shaped; eauto.
    + intros H. inversion H. apply shaped_shot.
Qed.

End WithUnicode.

End ShapeFacts.

Module ExtractFacts.
Import ParseDocx RunTests RunFacts ResolveFacts ShapeFacts.

(** A case as the extractors build it: an id, a name, and one Step or
    more, each of the shape above. *)
Record well_formed (tc : TestCase) : Prop := {
  wf_id : exists i, tc_id tc = Some i /\ i <> [];
  wf_name : exists n, tc_name tc = Some n;
  wf_steps : exists st l, tc_steps tc = Some (st :: l) /\ Forall shaped (st :: l)
}.

(** A case of a table: its name is not empty either. *)
Definition named (tc : TestCase) : Prop :=
  exists n, tc_name tc = Some n /\ n <> [].

(** The case at place [k] has the label of [k + 1]. *)
Definition numbered (cases : list TestCase) : Prop :=
  forall k tc, nth_error cases k = Some tc ->
    tc_id tc = Some (tc_label (N.of_nat (k + 1))).

Lemma tc_label_nonempty (n : N) : tc_label n <> [].
Proof. unfold tc_label. discriminate. Qed.

Lemma nonempty_true (s : str) : nonempty s = true -> s <> [].
Proof. destruct s; [discriminate|]. intros _. discriminate. Qed.

Lemma or_else_nonempty (a b : str) : b <> [] -> or_else a b <> [].
Proof.
  intros Hb. unfold or_else. destruct (nonempty a) eqn:Ea; [|exact Hb].
  apply nonempty_true, Ea.
Qed.

Lemma shaped_goto_root : shaped (mk_target (U "goto") (U "/")).
Proof.
  apply shaped_target_of; [unfold inferred_actions; cbn; tauto|].
  vm_compute. discriminate.
Qed.

Lemma numbered_nil : numbered [].
Proof. intros [|k] tc H; discriminate. Qed.

Lemma numbered_snoc (cases : list TestCase) (tc : TestCase) :
  numbered cases ->
  tc_id tc = Some (tc_label (N.of_nat (length cases + 1))) ->
  numbered (cases ++ [tc]).
Proof.
  intros Hn Hid k tc' Hk.
  destruct (Nat.lt_ge_cases k (length cases)) as [Hlt|Hge].
  - rewrite nth_error_app1 in Hk by exact Hlt. apply Hn, Hk.
  - rewrite nth_error_app2 in Hk by exact Hge.
    destruct (k - length cases) as [|d] eqn:Ed.
    + simpl in Hk. inversion Hk; subst tc'.
      replace k with (length cases) by lia. exact Hid.
    + destruct d; discriminate.
Qed.

Section WithUnicode.
Context {UD : Unicode}.

Lemma infer_steps_returns (pieces : list str) :
  exists l, infer_steps pieces = inr l /\ Forall shaped l.
Proof.
  induction pieces as [|p pieces [l [IH Hl]]]; cbn [infer_steps].
  - exists []. split; [reflexivity | constructor].
  - destruct (nonempty (strip p)); [|eauto].
    destruct (InferFacts.infer_step_returns (strip p)) as [st Hst].
    rewrite Hst, IH. cbn [bind]. eexists. split; [reflexivity|].
    constructor; [eapply infer_step_shaped; eauto | exact Hl].
Qed.

(** The Steps of a row: those inferred, or one goto when there are none. *)
Lemma row_steps (step_list : list Step) :
  Forall shaped step_list ->
  exists st l,
    match step_list with [] => [mk_target (U "goto") (U "/")] | _ => step_list end = st :: l /\
    Forall shaped (st :: l).
Proof.
  intros H. destruct step_list as [|st l].
  - eexists _, _. split; [reflexivity|]. constructor; [apply shaped_goto_root | constructor].
  - eauto.
Qed.

(** *** Pipe tables *)

Lemma table_row_returns (headers cells : list str) (cases : list TestCase) :
  Forall (fun tc => well_formed tc /\ named tc) cases ->
  exists cases',
    table_row headers cells cases = inr cases' /\
    Forall (fun tc => well_formed tc /\ named tc) cases'.
Proof.
  intros Hc. unfold table_row. cbv zeta.
  match goal with |- context [negb (nonempty ?n)] => set (name_val := n) end.
  destruct (nonempty name_val) eqn:En; cbn [negb]; [|eauto].
  match goal with |- context [infer_steps ?p] =>
    destruct (infer_steps_returns p) as (l & -> & Hl) end.
  cbn [bind]. eexists. split; [reflexivity|].
  apply Forall_app. split; [exact Hc|]. constructor; [|constructor].
  destruct (row_steps Hl) as (st & l' & Heq & Hs).
  split; [split|]; cbn [tc_id tc_name tc_steps mk_case].
  - eexists. split; [reflexivity|]. apply or_else_nonempty, tc_label_nonempty.
  - eauto.
  - rewrite Heq. eauto.
  - exists name_val. split; [reflexivity | apply nonempty_true, En].
Qed.

Lemma table_loop_returns (lines : list str) :
  forall (in_table : bool) (headers : list str) (cases : list TestCase),
    Forall (fun tc => well_formed tc /\ named tc) cases ->
    exists cases',
      table_loop lines in_table headers cases = inr cases' /\
      Forall (fun tc => well_formed tc /\ named tc) cases'.
Proof.
  induction lines as [|line lines IH]; intros in_table headers cases Hc; cbn [table_loop].
  - eauto.
  - cbv zeta.
    destruct (negb (startswith (U "|") (strip line))).
    { destruct in_table; [eauto | apply IH, Hc]. }
    match goal with |- context [forallb ?f ?l] => destruct (forallb f l) end;
      [apply IH, Hc|].
    destruct (negb in_table); [apply IH, Hc|].
    match goal with |- context [table_row ?h ?c cases] =>
      destruct (table_row_returns h c Hc) as (cases' & -> & Hc') end.
    cbn [bind]. apply IH, Hc'.
Qed.

(** *** Grid tables *)

(** A case of a grid: its Steps hold a goto and end with the final
    screenshot of the case. *)
Definition closed_by_shot (tc : TestCase) : Prop :=
  exists i steps,
    tc_id tc = Some i /\
    tc_steps tc = Some (steps ++ [mk_shot (i ++ U "_final")]) /\
    existsb is_goto steps = true.

Lemma grid_row_returns (block : list str) (tc_counter : N) :
  grid_row block tc_counter = inr None \/
  exists tc,
    grid_row block tc_counter = inr (Some tc) /\
    well_formed tc /\ named tc /\ closed_by_shot tc /\
    tc_id tc = Some (tc_label (tc_counter + 1)).
Proof.
  unfold grid_row. cbv zeta.
  destruct (length (extract_row_cells block) <? 2); [left; reflexivity|].
  destruct (Re.found grid_header (strip (nth 0 (extract_row_cells block) [])));
    [left; reflexivity|].
  destruct (nonempty (nth 1 (extract_row_cells block) [])) eqn:En;
    cbn [negb orb]; [|left; reflexivity].
  destruct (negb (Re.matches leading_digits (strip (nth 0 (extract_row_cells block) []))));
    [left; reflexivity|].
  match goal with |- context [infer_steps ?p] =>
    destruct (infer_steps_returns p) as (l & -> & Hl) end.
  cbn [bind]. right. eexists. split; [reflexivity|].
  set (steps := if existsb is_goto l then l else mk_target (U "goto") (U "/") :: l).
  assert (Hsteps : Forall shaped steps /\ existsb is_goto steps = true).
  { unfold steps. destruct (existsb is_goto l) eqn:Eg; [auto|].
    split; [constructor; [apply shaped_goto_root | exact Hl] | reflexivity]. }
  destruct Hsteps as [Hs Hg].
  split; [split|split; [|split]]; cbn [tc_id tc_name tc_steps mk_case].
  - eexists. split; [reflexivity | apply tc_label_nonempty].
  - eauto.
  - destruct steps as [|st l'] eqn:Es; [discriminate Hg|].
    eexists _, _. split; [reflexivity|].
    change (Forall shaped ((st :: l') ++ [mk_shot (tc_label (tc_counter + 1) ++ U "_final")])).
    apply Forall_app. split; [exact Hs|]. constructor; [apply shaped_shot | constructor].
  - eexists. split; [reflexivity | apply nonempty_true, En].
  - eexists _, steps. repeat split. exact Hg.
  - reflexivity.
Qed.

Definition grid_case (tc : TestCase) : Prop :=
  well_formed tc /\ named tc /\ closed_by_shot tc.

Lemma grid_loop_returns (blocks : list (list str)) :
  forall (tc_counter : N) (cases : list TestCase),
    tc_counter = N.of_nat (length cases) ->
    Forall grid_case cases -> numbered cases ->
    exists cases',
      grid_loop blocks tc_counter cases = inr cases' /\
      Forall grid_case cases' /\ numbered cases'.
Proof.
  induction blocks as [|block blocks IH]; intros tc_counter cases Hn Hc Hnum;
    cbn [grid_loop].
  - eauto.
  - destruct (grid_row_returns block tc_counter) as [->|(tc & -> & Hw & Hna & Hcl & Hid)];
      cbn [bind].
    + apply IH; auto.
    + apply IH.
      * rewrite length_app. cbn [length]. lia.
      * apply Forall_app. split; [exact Hc|]. constructor; [|constructor].
        unfold grid_case. auto.
      * apply numbered_snoc; [exact Hnum|]. rewrite Hid. do 2 f_equal. lia.
Qed.

(** *** The tables read by python-docx *)

Lemma docx_row_returns (headers cells : list str) (docx_cases : list TestCase) :
  Forall (fun tc => well_formed tc /\ named tc) docx_cases -> numbered docx_cases ->
  exists cases',
    docx_row headers cells docx_cases = inr cases' /\
    Forall (fun tc => well_formed tc /\ named tc) cases' /\ numbered cases'.
Proof.
  intros Hc Hnum. unfold docx_row. cbv zeta.
  match goal with |- context [negb (nonempty ?n)] => set (name_val := n) end.
  destruct (nonempty name_val) eqn:En; cbn [negb orb]; [|eauto].
  destruct (str_in name_val [U "測試項目"; U "test case"; U "name"]); [eauto|].
  match goal with |- context [infer_steps ?p] =>
    destruct (infer_steps_returns p) as (l & -> & Hl) end.
  cbn [bind]. eexists. split; [reflexivity|]. split.
  - apply Forall_app. split; [exact Hc|]. constructor; [|constructor].
    destruct (row_steps Hl) as (st & l' & Heq & Hs).
    split; [split|]; cbn [tc_id tc_name tc_steps mk_case].
    + eexists. split; [reflexivity | apply tc_label_nonempty].
    + eauto.
    + rewrite Heq. eauto.
    + exists name_val. split; [reflexivity | apply nonempty_true, En].
  - apply numbered_snoc; [exact Hnum | reflexivity].
Qed.

Lemma docx_rows_inv (rows : DocxTable) :
  forall (headers : list str) (docx_cases cases' : list TestCase),
    Forall (fun tc => well_formed tc /\ named tc) docx_cases -> numbered docx_cases ->
    docx_rows rows headers docx_cases = inr cases' ->
    Forall (fun tc => well_formed tc /\ named tc) cases' /\ numbered cases'.
Proof.
  induction rows as [|row rows IH]; intros headers docx_cases cases' Hc Hnum H;
    cbn [docx_rows] in H.
  - inversion H; subst. auto.
  - destruct row as [e|texts]; [discriminate|]. cbn [bind] in H. cbv zeta in H.
    match type of H with (if ?b then _ else _) = _ => destruct b end;
      [eapply IH; eauto|].
    match type of H with (if ?b then _ else _) = _ => destruct b end;
      [|eapply IH; eauto].
    match type of H with context [docx_row ?h ?c docx_cases] =>
      destruct (docx_row_returns h c Hc Hnum) as (c1 & Hr & Hc1 & Hn1) end.
    rewrite Hr in H. cbn [bind] in H. eapply IH; eauto.
Qed.

Lemma docx_tables_inv (tables : list DocxTable) :
  forall (docx_cases cases' : list TestCase),
    Forall (fun tc => well_formed tc /\ named tc) docx_cases -> numbered docx_cases ->
    docx_tables tables docx_cases = inr cases' ->
    Forall (fun tc => well_formed tc /\ named tc) cases' /\ numbered cases'.
Proof.
  induction tables as [|table tables IH]; intros docx_cases cases' Hc Hnum H;
    cbn [docx_tables] in H.
  - inversion H; subst. auto.
  - destruct (docx_rows table [] docx_cases) as [e|c1] eqn:Er; [discriminate|].
    cbn [bind] in H. destruct (docx_rows_inv _ _ Hc Hnum Er) as [Hc1 Hn1].
    eapply IH; eauto.
Qed.

(** *** Sections *)

Lemma save_case_well_formed (current : option open_case) (test_cases : list TestCase) :
  Forall well_formed test_cases ->
  (forall c, current = Some c -> oc_id c <> [] /\ Forall shaped (oc_steps c)) ->
  Forall well_formed (save_case current test_cases).
Proof.
  intros Hc Hcur. unfold save_case. destruct current as [c|]; [|exact Hc].
  destruct (Hcur c eq_refl) as [Hid Hs].
  destruct (oc_steps c) as [|st l] eqn:Es; [exact Hc|].
  apply Forall_app. split; [exact Hc|]. constructor; [|constructor].
  split; cbn; eauto. rewrite Es. eauto.
Qed.

Lemma section_loop_inv (lines : list str) :
  forall (current : option open_case) (tc_counter : N) (test_cases cases' : list TestCase),
    Forall well_formed test_cases ->
    (forall c, current = Some c -> oc_id c <> [] /\ Forall shaped (oc_steps c)) ->
    section_loop lines current tc_counter test_cases = inr cases' ->
    Forall well_formed cases'.
Proof.
  induction lines as [|line lines IH]; intros current tc_counter test_cases cases' Hc Hcur H;
    cbn [section_loop] in H.
  - inversion H; subst. apply save_case_well_formed; assumption.
  - destruct (if Re.found tc_word line then Re.match_ _TC_HEADER_RE line else None)
      as [h_match|].
    { cbv zeta in H.
      destruct (strip_group (Re.groups h_match) 1) as [e|nm]; [discriminate|].
      cbn [bind] in H.
      match type of H with match int ?t with _ => _ end = _ =>
        destruct (int t) as [n|]; [|discriminate] end.
      eapply IH; [| |exact H].
      - apply save_case_well_formed; assumption.
      - intros c Hs. inversion Hs; subst. cbn. split; [apply tc_label_nonempty | constructor]. }
    destruct current as [c|]; [|eapply IH; eauto].
    destruct (Hcur c eq_refl) as [Hid Hs].
    destruct (match Re.match_ _NUMBERED_STEP_RE line with
              | Some s_match => Some s_match
              | None => Re.match_ _BULLET_STEP_RE line
              end) as [s_match|].
    + destruct (strip_group (Re.groups s_match) 0) as [e|step_text]; [discriminate|].
      cbn [bind] in H.
      destruct (Re.match_ _EXPECTED_RE step_text) as [exp_m|].
      * destruct (strip_group (Re.groups exp_m) 0) as [e|ex]; [discriminate|].
        cbn [bind] in H. eapply IH; [exact Hc| |exact H].
        intros c' Hc'. inversion Hc'; subst. cbn. auto.
      * destruct (infer_step step_text) as [e|st] eqn:Est; [discriminate|].
        cbn [bind] in H. eapply IH; [exact Hc| |exact H].
        intros c' Hc'. inversion Hc'; subst. cbn. split; [exact Hid|].
        apply Forall_app. split; [exact Hs|].
        constructor; [eapply infer_step_shaped; eauto | constructor].
    + destruct (if startswith (U "#") line then None else Re.search _EXPECTED_RE line)
        as [exp_m|].
      * destruct (strip_group (Re.groups exp_m) 0) as [e|ex]; [discriminate|].
        cbn [bind] in H. eapply IH; [exact Hc| |exact H].
        intros c' Hc'. inversion Hc'; subst. cbn. auto.
      * eapply IH; eauto.
Qed.

(** *** The meta block *)

Lemma meta_line_keeps (m : Meta) (line : str) :
  date (meta_line m line) = date m /\
  (base_url m <> [] -> base_url (meta_line m line) = base_url m).
Proof.
  unfold meta_line. cbv zeta.
  repeat match goal with
         | |- context [match (if ?b then _ else _) with _ => _ end] => destruct b
         | |- context [if ?b then _ else _] => destruct b eqn:?
         | |- context [match after_sep ?l with _ => _ end] => destruct (after_sep l)
         | |- context [match Re.findall ?p ?l with _ => _ end] => destruct (Re.findall p l)
         end; cbn; split; auto; intros Hne;
    try reflexivity;
    match goal with
    | Hb : negb (nonempty (base_url m)) = true |- _ =>
      destruct (base_url m); [contradiction | discriminate]
    end.
Qed.

Lemma meta_lines_keep (lines : list str) :
  forall m,
    date (fold_left meta_line lines m) = date m /\
    (base_url m <> [] -> base_url (fold_left meta_line lines m) = base_url m).
Proof.
  induction lines as [|line lines IH]; intros m; cbn [fold_left]; [auto|].
  destruct (IH (meta_line m line)) as [Hd Hb].
  destruct (meta_line_keeps m line) as [Hd1 Hb1].
  split; [congruence|]. intros Hne. rewrite Hb; rewrite (Hb1 Hne); auto.
Qed.

End WithUnicode.

End ExtractFacts.

(* ------------------------------------------------------------------ *)
(** * The cases of a payload *)
(* ------------------------------------------------------------------ *)

Module PayloadFacts.
Import ParseDocx ShapeFacts ExtractFacts.

Section WithUnicode.
Context {UD : Unicode}.

Lemma table_cases_inv (lines : list str) :
  exists cases,
    _parse_table_cases lines = inr cases /\
    Forall (fun tc => well_formed tc /\ named tc) cases.
Proof.
  unfold _parse_table_cases. apply table_loop_returns. constructor.
Qed.

Lemma grid_cases_inv (md : str) :
  exists cases,
    _parse_grid_table_cases md = inr cases /\
    Forall grid_case cases /\ numbered cases.
Proof.
  unfold _parse_grid_table_cases. apply grid_loop_returns.
  - reflexivity.
  - constructor.
  - apply numbered_nil.
Qed.

Lemma section_cases_inv (lines : list str) (m : Meta) (cases : list TestCase) :
  section_cases lines m = inr cases ->
  cases <> [] /\ Forall well_formed cases.
Proof.
  unfold section_cases. intros H.
  destruct (section_loop lines None 0 []) as [e|l] eqn:El; [discriminate|].
  cbn [bind] in H. apply section_loop_inv in El; [|constructor|discriminate].
  destruct l as [|tc l]; inversion H; subst.
  - split; [discriminate|]. constructor; [|constructor].
    split; cbn [tc_id tc_name tc_steps exploratory mk_case].
    + eexists. split; [reflexivity | vm_compute; discriminate].
    + eauto.
    + eexists _, _. split; [reflexivity|].
      constructor; [|constructor; [apply shaped_shot | constructor]].
      split; cbn.
      * eexists. split; [reflexivity|]. unfold inferred_actions. cbn. tauto.
      * left. eauto.
      * intros Ha. exfalso. revert Ha. vm_compute. discriminate.
  - split; [discriminate | exact El].
Qed.


Lemma weaken_named (cases : list TestCase) :
  Forall (fun tc => well_formed tc /\ named tc) cases -> Forall well_formed cases.
Proof. apply Forall_impl. intros tc [H _]. exact H. Qed.

Lemma weaken_grid (cases : list TestCase) :
  Forall grid_case cases -> Forall well_formed cases.
Proof. apply Forall_impl. intros tc [H _]. exact H. Qed.


Lemma markdown_cases_inv (today md base_url0 : str) (payload : Payload) :
  parse_markdown_to_cases today md base_url0 = inr payload ->
  test_cases payload <> [] /\ Forall well_formed (test_cases payload).
Proof.
  unfold parse_markdown_to_cases. cbv zeta. intros H.
  destruct (table_cases_inv (splitlines md)) as (tcs & Ht & Htw).
  rewrite Ht in H. cbn [bind] in H.
  destruct tcs as [|c cs].
  - destruct (grid_cases_inv md) as (gcs & Hg & Hgw & _).
    rewrite Hg in H. cbn [bind] in H.
    destruct gcs as [|g gs].
    + match type of H with context [section_cases ?l ?m] =>
        destruct (section_cases l m) as [e|scs] eqn:Es; [discriminate|] end.
      cbn [bind] in H. inversion H; subst. cbn [test_cases].
      eapply section_cases_inv; eauto.
    + inversion H; subst. cbn [test_cases].
      split; [discriminate | apply weaken_grid, Hgw].
  - inversion H; subst. cbn [test_cases].
    split; [discriminate | apply weaken_named, Htw].
Qed.

Lemma written_cases_inv (today md base_url0 : str) (doc : Docx) (payload : Payload) :
  main today md base_url0 doc = inr payload ->
  test_cases payload <> [] /\ Forall well_formed (test_cases payload) /\
  (forall c cs, docx_pass doc = inr (c :: cs) ->
     test_cases payload = c :: cs /\ numbered (test_cases payload) /\
     Forall named (test_cases payload)).
Proof.
  unfold main. intros H.
  destruct (parse_markdown_to_cases today md base_url0) as [e|p] eqn:Ep; [discriminate|].
  cbn [bind] in H. apply markdown_cases_inv in Ep as [Hne Hwf].
  destruct (docx_pass doc) as [e|[|c cs]] eqn:Ed.
  - inversion H; subst. split; [exact Hne|]. split; [exact Hwf|]. discriminate.
  - inversion H; subst. split; [exact Hne|]. split; [exact Hwf|]. discriminate.
  - inversion H; subst. cbn [test_cases].
    unfold docx_pass in Ed. destruct doc as [e|tables]; [discriminate|].
    cbn [bind] in Ed.
    apply docx_tables_inv in Ed as [Hc Hn]; [|constructor|apply numbered_nil].
    split; [discriminate|]. split; [apply weaken_named, Hc|].
    intros c' cs' Heq. inversion Heq; subst. split; [reflexivity|]. split; [exact Hn|].
    revert Hc. apply Forall_impl. intros tc [_ Hna]. exact Hna.
Qed.

End WithUnicode.

End PayloadFacts.

(* ------------------------------------------------------------------ *)
(** * Further properties of parse_docx.py *)
(* ------------------------------------------------------------------ *)

Module ParseDocxMore.
Import ParseDocx ShapeFacts ExtractFacts PayloadFacts.

Section WithUnicode.
Context {UD : Unicode}.

(** X17.  The Step that [infer_step] returns has one of eleven actions,
    all of them actions the runner knows.  It has a target, except the
    screenshot Steps of a blank or unrecognised text, which have a name
    instead; the target of a scroll Step is never empty. *)
Theorem inferred_step_shape (raw : str) :
  exists st, infer_step raw = inr st /\ shaped st.
Proof.
  destruct (InferFacts.infer_step_returns raw) as [st Hst].
  exists st. split; [exact Hst | eapply infer_step_shaped; eauto].
Qed.

(** X18.  The pipe-table extractor raises nothing.  Every case it
    returns has an id and a name that are not empty and at least one
    Step, a goto to the root when its row gave none. *)
Theorem table_cases_well_formed (lines : list str) :
  exists cases,
    _parse_table_cases lines = inr cases /\
    Forall (fun tc => well_formed tc /\ named tc) cases.
Proof. apply table_cases_inv. Qed.

(** X19.  The grid-table extractor raises nothing.  Its cases are
    numbered in order from [TC-001]; every case has a name that is not
    empty, a goto among its Steps, and as last Step the screenshot
    named after its id with [_final]. *)
Theorem grid_cases_well_formed (md : str) :
  exists cases,
    _parse_grid_table_cases md = inr cases /\
    Forall grid_case cases /\ numbered cases.
Proof. apply grid_cases_inv. Qed.

(** X20.  A payload that [parse_markdown_to_cases] returns is never
    without cases, and each of its cases has an id, a name and at least
    one Step of the shape [infer_step] gives. *)
Theorem payload_has_cases (today md base_url0 : str) (payload : Payload) :
  parse_markdown_to_cases today md base_url0 = inr payload ->
  test_cases payload <> [] /\ Forall well_formed (test_cases payload).
Proof. apply markdown_cases_inv. Qed.

(** X21.  The date of the payload is the date of the day, and a base
    URL given to [parse_markdown_to_cases] is kept whatever URL the
    document holds. *)
Theorem given_base_url_is_kept (today md base_url0 : str) (payload : Payload) :
  parse_markdown_to_cases today md base_url0 = inr payload ->
  date (meta payload) = today /\
  (base_url0 <> [] -> base_url (meta payload) = base_url0).
Proof.
  unfold parse_markdown_to_cases. cbv zeta. intros H.
  match type of H with context [fold_left meta_line ?l ?m0] =>
    destruct (meta_lines_keep l m0) as [Hd Hb];
    set (m := fold_left meta_line l m0) in * end.
  assert (Hm : meta payload = m).
  { repeat match type of H with
           | bind ?c _ = _ => destruct c; [discriminate|]; cbn [bind] in H
           | match ?l with _ => _ end = _ => destruct l
           end; inversion H; reflexivity. }
  rewrite Hm. cbn [date base_url] in Hd, Hb. auto.
Qed.

(** X22.  What [main] writes is never without cases and every case is
    well formed, whether the cases come from the markdown or from the
    tables read by python-docx; in the second case they are numbered
    in order from [TC-001] and their names are not empty. *)
Theorem written_payload_has_cases (today md base_url0 : str) (doc : Docx)
    (payload : Payload) :
  main today md base_url0 doc = inr payload ->
  test_cases payload <> [] /\ Forall well_formed (test_cases payload) /\
  (forall c cs, docx_pass doc = inr (c :: cs) ->
     test_cases payload = c :: cs /\ numbered (test_cases payload) /\
     Forall named (test_cases payload)).
Proof. apply written_cases_inv. Qed.

End WithUnicode.

End ParseDocxMore.

(* ------------------------------------------------------------------ *)
(** * From the parser to the runner *)
(* ------------------------------------------------------------------ *)

Module PipelineFacts.
Import RunTests ExecFacts RunFacts OrderFacts ResolveFacts ShapeFacts ExtractFacts.

(** A Step the runner has a branch for. *)
Definition handled (st : Step) : Prop :=
  str_in (action_of st) RunTestsMore.handled_actions = true.

Lemma inferred_handled (a : str) :
  In a inferred_actions -> str_in a RunTestsMore.handled_actions = true.
Proof.
  unfold inferred_actions. cbn [map In]. intros H.
  repeat (destruct H as [<-|H]; [reflexivity|]). contradiction.
Qed.

Lemma shaped_handled (st : Step) : shaped st -> has_action st /\ handled st.
Proof.
  intros [[a [Ha Hin]] _ _]. split.
  - unfold has_action. congruence.
  - unfold handled, action_of. rewrite Ha. apply inferred_handled, Hin.
Qed.

Lemma resolved_handled (base_url : str) (steps rest : list Step) :
  Forall shaped steps -> Forall2 (resolved_from base_url) steps rest ->
  Forall (fun st => has_action st /\ handled st) rest.
Proof.
  intros Hs Hf. induction Hf as [|st st' l l' Hrf _ IH]; constructor.
  - inversion Hs; subst. destruct (shaped_handled H1) as [Ha Hh].
    destruct Hrf as (Hact & _). unfold has_action, handled, action_of in *.
    rewrite Hact. auto.
  - apply IH. inversion Hs; auto.
Qed.

Lemma shaped_resolve (base_url : str) (steps : list Step) :
  Forall shaped steps ->
  exists resolved,
    resolve_steps base_url steps = inr resolved /\
    Forall (fun st => has_action st /\ handled st) resolved.
Proof.
  intros Hs.
  assert (Hall : Forall (fun st => action_is st "goto" = true -> target st <> None) steps).
  { revert Hs. apply Forall_impl. intros st H. apply shaped_runnable in H as [_ H]. exact H. }
  destruct (resolve_all_returns base_url Hall) as [rest Hr].
  assert (Hx : exists resolved, resolve_steps base_url steps = inr resolved).
  { unfold resolve_steps. rewrite Hr. cbn [bind].
    destruct (negb (existsb (fun s => action_is s "goto") steps) && ParseDocx.nonempty base_url);
      eexists; reflexivity. }
  destruct Hx as [resolved Hres]. exists resolved. split; [exact Hres|].
  apply resolve_steps_spec in Hres as (rest' & -> & Hf).
  apply Forall_app. split; [|eapply resolved_handled; eauto].
  unfold auto_goto.
  destruct (negb (existsb (fun s => action_is s "goto") steps) && ParseDocx.nonempty base_url);
    constructor; [|constructor].
  split; [discriminate | reflexivity].
Qed.

End PipelineFacts.

Module PipelineSpec.
Import RunTests ExecFacts RunFacts OrderFacts ResolveFacts ShapeFacts ExtractFacts
       PayloadFacts PipelineFacts.

Section WithEnv.
Context {W : Type} {E : Env W} {UD : Unicode}.

(** X23.  Every case that the parser writes can be run: it has a name,
    preparing its Steps raises nothing whatever the base URL, every
    prepared Step has an action the runner knows, and the loop over
    the Steps is never cut short, so that each Step gets a result. *)
Theorem parsed_cases_run (today md base_url0 : str) (doc : ParseDocx.Docx)
    (payload : ParseDocx.Payload) (tc : TestCase) :
  ParseDocx.main today md base_url0 doc = inr payload ->
  In tc (ParseDocx.test_cases payload) ->
  tc_name tc <> None /\
  forall base_url,
    exists resolved,
      resolve_steps base_url (match tc_steps tc with Some l => l | None => [] end)
        = inr resolved /\
      Forall handled resolved /\
      forall (tc_id : str) (s : St W),
        snd (snd (run_steps tc_id 0 resolved start_run s)) = None /\
        length (step_results (fst (snd (run_steps tc_id 0 resolved start_run s))))
          = length resolved.
Proof.
  intros H Hin. apply written_cases_inv in H as (_ & Hwf & _).
  rewrite Forall_forall in Hwf. destruct (Hwf tc Hin) as [_ [n Hn] (st & l & Hs & Hsh)].
  split; [congruence|]. intros base_url. rewrite Hs.
  destruct (shaped_resolve base_url Hsh) as (resolved & Hr & Hall).
  exists resolved. split; [exact Hr|]. split.
  - revert Hall. apply Forall_impl. intros x [_ Hx]. exact Hx.
  - intros tc_id s.
    destruct (run_steps tc_id 0 resolved start_run s) as [s' [run ab]] eqn:Hrun.
    cbn [fst snd].
    assert (Hab : ab = None).
    { eapply run_steps_no_abort; [|exact Hrun].
      revert Hall. apply Forall_impl. intros x [Hx _]. exact Hx. }
    split; [exact Hab|].
    destruct (run_steps_echo _ _ _ _ _ Hrun) as (more & Hm & _ & Hlen & _).
    rewrite Hm. cbn [step_results start_run app]. apply Hlen, Hab.
Qed.

(** X24.  A target that does not start with [css=] is taken as it is or
    wrapped as [text=], and the selector made from it is stable: made
    into a selector again it stays the same, so a text is never wrapped
    twice. *)
Theorem selector_is_stable (target : str) :
  startswith (U "css=") target = false ->
  (_selector_or_text target = target \/
   _selector_or_text target = U "text=" ++ target) /\
  _selector_or_text (_selector_or_text target) = _selector_or_text target.
Proof.
  intros Hcss.
  assert (Hkeep : _selector_or_text target = target ->
                  (_selector_or_text target = target \/
                   _selector_or_text target = U "text=" ++ target) /\
                  _selector_or_text (_selector_or_text target) = _selector_or_text target).
  { intros Hk. split; [left; exact Hk|]. rewrite !Hk. reflexivity. }
  destruct (existsb (fun p => startswith p target) locator_prefixes) eqn:E1.
  { apply Hkeep. unfold _selector_or_text, removeprefix. rewrite E1, Hcss. reflexivity. }
  destruct (str_in (lower target) _HTML_TAGS) eqn:E2.
  { apply Hkeep. unfold _selector_or_text. rewrite E1, E2. reflexivity. }
  destruct (Re.found css_chars target) eqn:E3.
  { apply Hkeep. unfold _selector_or_text. rewrite E1, E2, E3. reflexivity. }
  assert (Hw : _selector_or_text target = U "text=" ++ target).
  { unfold _selector_or_text. rewrite E1, E2, E3. reflexivity. }
  split; [right; exact Hw|]. rewrite Hw.
  unfold _selector_or_text.
  assert (Hp : existsb (fun p => startswith p (U "text=" ++ target)) locator_prefixes = true).
  { unfold locator_prefixes. cbn [map existsb].
    rewrite (startswith_app (U "text=") target). reflexivity. }
  rewrite Hp. reflexivity.
Qed.

End WithEnv.

End PipelineSpec.
